(** * Fast-Copy: the line manager of [JS/script.JS], embedded and verified

    The development follows the source file top-down: the string helpers the
    code takes from the JavaScript platform ([trim], [split], [parseInt],
    truthiness), [Utils], [StorageManager], [ClipboardManager] and finally
    [LineManager].  Event handlers are modelled as functions from an
    application state (the fields [lines] and [index] plus the origin's
    [localStorage]) to a new state and the list of effects they perform on
    the page (dialogs, clipboard writes, progress bar).  Everything the
    browser decides (the outcome of a clipboard write, of a dialog, of a
    storage write, the clock) is an explicit argument of the handler.  In
    [step] and [run] a handler runs to its end before the next one starts;
    the handlers that overlap at the points where an [async] handler
    awaits the clipboard or a dialog are the moves of [play]. *)

From Stdlib Require Import ZArith NArith Ascii String List Bool Lia DecimalString.
From Stdlib Require Import Floats.SpecFloat.
From Stdlib Require Import Reals Lra.
From stdpp Require Import base option list gmap strings.
From Equations Require Import Equations.
From Equations.Prop Require Import Logic.

Local Open Scope Z_scope.

(** ** JavaScript strings

    A JavaScript string is a sequence of UTF-16 code units. *)

Abbreviation jsstring := (list N).

(** ASCII literals of the source, as code units. *)
Definition js (s : string) : jsstring :=
  map N_of_ascii (list_ascii_of_string s).

(** [WhiteSpace] and [LineTerminator] of ECMAScript: the code units that
    [String.prototype.trim] strips. *)
Definition isLineTerminator (c : N) : bool :=
  ((c =? 0x0A) || (c =? 0x0D) || (c =? 0x2028) || (c =? 0x2029))%N.

Definition isWhiteSpace (c : N) : bool :=
  ((c =? 0x09) || (c =? 0x0B) || (c =? 0x0C) || (c =? 0x20) || (c =? 0xA0)
   || (c =? 0x1680) || ((0x2000 <=? c) && (c <=? 0x200A))
   || (c =? 0x202F) || (c =? 0x205F) || (c =? 0x3000) || (c =? 0xFEFF))%N.

Definition isStrWhiteSpaceChar (c : N) : bool :=
  isWhiteSpace c || isLineTerminator c.

Fixpoint trimStart (s : jsstring) : jsstring :=
  match s with
  | [] => []
  | c :: s' => if isStrWhiteSpaceChar c then trimStart s' else s
  end.

Definition trimEnd (s : jsstring) : jsstring :=
  reverse (trimStart (reverse s)).

(** [String.prototype.trim] *)
Definition trim (s : jsstring) : jsstring := trimEnd (trimStart s).

(** [String.prototype.split] with a one-code-unit separator. *)
Fixpoint split (sep : N) (s : jsstring) : list jsstring :=
  match s with
  | [] => [[]]
  | c :: s' =>
      if (c =? sep)%N then [] :: split sep s'
      else match split sep s' with
           | seg :: segs => (c :: seg) :: segs
           | [] => [[c]]
           end
  end.

(** [Array.prototype.join] on an array of strings. *)
Fixpoint join (sep : jsstring) (l : list jsstring) : jsstring :=
  match l with
  | [] => []
  | [s] => s
  | s :: l' => s ++ sep ++ join sep l'
  end.

Definition LF : N := 0x0A%N.

(** Truthiness of a string: only the empty string is falsy. *)
Definition str_truthy (s : jsstring) : bool :=
  match s with [] => false | _ :: _ => true end.

(** A string all of whose code units are stripped by [trim]. *)
Definition blank (s : jsstring) : bool := forallb isStrWhiteSpaceChar s.

(** ** Utils *)

Module Utils.

(** [isEmpty(text) { return !text || !text.trim(); }]; [None] is an
    [undefined] argument. *)
Definition isEmpty (text : option jsstring) : bool :=
  match text with
  | None => true
  | Some s => negb (str_truthy s) || negb (str_truthy (trim s))
  end.

End Utils.

(** ** LineManager.parseLines *)

Definition parseLines (text : jsstring) : list jsstring :=
  if Utils.isEmpty (Some text) then []
  else List.filter (fun line => (0 <? length line)%nat)
                   (map (fun line => trim line) (split LF text)).

(** The Text Splitter in the words of the specification: split on newline,
    trim each segment, discard the empty segments, keep the order. *)
Definition text_splitter_spec (text : jsstring) : list jsstring :=
  List.filter (fun seg => negb (bool_decide (seg = [])))
              (map trim (split LF text)).

(** ** JavaScript values

    The values that [JSON.parse] can produce, plus [undefined].  Numbers are
    the integers: the session index and the timestamp are integers, and a
    fractional number in a stored record is outside this model. *)

Inductive value : Type :=
| VUndefined
| VNull
| VBool (b : bool)
| VNum (n : Z)
| VStr (s : jsstring)
| VArr (elems : list value)
| VObj (props : list (jsstring * value)).

(** [ToBoolean] *)
Definition truthy (v : value) : bool :=
  match v with
  | VUndefined | VNull => false
  | VBool b => b
  | VNum n => negb (n =? 0)
  | VStr s => str_truthy s
  | VArr _ | VObj _ => true
  end.

(** [a || b] *)
Definition js_or (a b : value) : value := if truthy a then a else b.

Fixpoint assoc (k : jsstring) (props : list (jsstring * value)) : option value :=
  match props with
  | [] => None
  | (k', v) :: props' => if decide (k = k') then Some v else assoc k props'
  end.

(** Property read [v.k] for a key that is not a built-in property of
    strings and arrays ([lines], [index]): [None] is the [TypeError] of a
    read on [null] or [undefined]. *)
Definition get (v : value) (k : jsstring) : option value :=
  match v with
  | VUndefined | VNull => None
  | VObj props => Some (default VUndefined (assoc k props))
  | _ => Some VUndefined
  end.

(** [JSON] of the platform.  [JSON_parse] is [None] where [JSON.parse]
    throws a [SyntaxError]. *)
Class JSON := {
  JSON_parse : jsstring -> option value;
  JSON_stringify : value -> jsstring
}.

(** ** CONFIG *)

Module CONFIG.
Definition LINES : string := "savedLines".
Definition MODE : string := "mode".
Definition CLIPBOARD_PERMISSION : string := "clipboardPermission".
End CONFIG.

(** Keys of [CONFIG.MESSAGES.AR] used by the handlers below, and the one
    literal message of [copyByNumber]. *)
Inductive Message : Type :=
| ENTER_TEXT | LIST_ENDED | NO_MORE_LINES | NO_PREVIOUS | NO_PREVIOUS_LINE
| INVALID_NUMBER | COPY_ALL_SUCCESS | COPY_ALL_ERROR | CLIPBOARD_ERROR
| SUCCESS | LINE_COPY_ERROR.

Inductive Mechanism : Type := NativeClipboard | ClipboardJS | ExecCommand.

Inductive Button : Type := genBtn | copyAllBtn.

(** What a handler does to the page, in order. *)
Inductive Event : Type :=
| ShowError (text : Message)
| ShowInfo (title text : Message)
| ShowSuccess (title text : Message)
| PromptForLineNumber (maxLines : nat)
| ClipboardTry (m : Mechanism) (text : jsstring) (ok : bool)
| FlashElement (b : Button)
| ShowButtons
| HideButtons
| SetInputText (text : jsstring)
| ClearStatusText
| SetProgress (percent : option Z)
| SetStatus (current total : Z).

(** ** What the browser decides *)

Inductive SetItemResult : Type := Stored | QuotaExceededError | OtherStorageError.

(** [document.execCommand('copy')] returns a boolean or throws; of a
    thrown error only whether its message mentions the clipboard or a
    permission matters, to [handleCopyError]. *)
Inductive ExecCommandResult : Type :=
| ExecReturned (successful : bool)
| ExecThrew (mentions_clipboard : bool).

Record ClipEnv : Type := {
  hasNativeSupport : bool;            (* navigator.clipboard && isSecureContext *)
  writeText : jsstring -> bool;       (* does navigator.clipboard.writeText resolve *)
  ClipboardJS_defined : bool;         (* typeof ClipboardJS !== "undefined" *)
  ClipboardJS_success : jsstring -> bool;
  execCommand_copy : jsstring -> ExecCommandResult
}.

Record Env : Type := {
  clip : ClipEnv;
  now : Z;                            (* Date.now() *)
  getItem_ok : bool;                  (* false: localStorage.getItem throws *)
  setItem : SetItemResult;
  removeItem_ok : bool                (* false: localStorage.removeItem throws *)
}.

(** ** StorageManager *)

Abbreviation LocalStorage := (gmap string jsstring).

Record Session : Type := { s_lines : value; s_index : value }.

Definition empty_session : Session := {| s_lines := VNull; s_index := VNum 0 |}.

Definition sessionData (lines : list jsstring) (index timestamp : Z) : value :=
  VObj [ (js "lines", VArr (map VStr lines));
         (js "index", VNum index);
         (js "timestamp", VNum timestamp) ].

Section StorageManager.
Context `{JSON}.

Definition clearSession (e : Env) (ls : LocalStorage) : LocalStorage :=
  if removeItem_ok e then delete CONFIG.LINES ls else ls.

Definition handleStorageError (e : Env) (ls : LocalStorage) : LocalStorage :=
  match setItem e with
  | QuotaExceededError => clearSession e ls
  | _ => ls
  end.

Definition saveSession (e : Env) (lines : list jsstring) (index : Z)
    (ls : LocalStorage) : LocalStorage :=
  match setItem e with
  | Stored =>
      <[CONFIG.LINES := JSON_stringify (sessionData lines index (now e))]> ls
  | _ => handleStorageError e ls
  end.

(** [Utils.safeJSONParse] *)
Definition safeJSONParse (str : jsstring) (fallback : value) : value :=
  match JSON_parse str with
  | Some v => v
  | None => fallback
  end.

(** The body of the [try] block of [loadSession]; [None] is a throw. *)
Definition loadSession_try (e : Env) (ls : LocalStorage) : option Session :=
  savedData ← (if getItem_ok e then Some (ls !! CONFIG.LINES) else None);
  match savedData with
  | None | Some [] => Some empty_session
  | Some str =>
      let sessionData := safeJSONParse str VNull in
      if truthy sessionData then
        lines ← get sessionData (js "lines");
        if truthy lines then
          index ← get sessionData (js "index");
          Some {| s_lines := lines; s_index := js_or index (VNum 0) |}
        else Some empty_session
      else Some empty_session
  end.

Definition loadSession (e : Env) (ls : LocalStorage) : Session :=
  match loadSession_try e ls with
  | Some s => s
  | None => empty_session
  end.

End StorageManager.

(** ** ClipboardManager *)

Inductive CopyError : Type :=
| NoTextToCopy
| ClipboardJSFailed
| ExecCommandFailed
| ExecCommandThrew (mentions_clipboard : bool).

Module ClipboardManager.

Definition copyWithClipboardJS (c : ClipEnv) (text : jsstring)
    : list Event * option CopyError :=
  if ClipboardJS_success c text
  then ([ClipboardTry ClipboardJS text true], None)
  else ([ClipboardTry ClipboardJS text false], Some ClipboardJSFailed).

Definition copyWithExecCommand (c : ClipEnv) (text : jsstring)
    : list Event * option CopyError :=
  match execCommand_copy c text with
  | ExecReturned true => ([ClipboardTry ExecCommand text true], None)
  | ExecReturned false =>
      ([ClipboardTry ExecCommand text false], Some ExecCommandFailed)
  | ExecThrew m =>
      ([ClipboardTry ExecCommand text false], Some (ExecCommandThrew m))
  end.

(** [copy(text)]: the effects performed and the rejection, if any.
    [None] as argument is [undefined]. *)
Definition copy (c : ClipEnv) (text : option jsstring)
    : list Event * option CopyError :=
  match text with
  | None | Some [] => ([], Some NoTextToCopy)
  | Some text =>
      let native :=
        if hasNativeSupport c
        then [ClipboardTry NativeClipboard text (writeText c text)]
        else [] in
      if hasNativeSupport c && writeText c text then (native, None)
      else
        let '(log, r) :=
          if ClipboardJS_defined c then copyWithClipboardJS c text
          else copyWithExecCommand c text in
        (native ++ log, r)
  end.

End ClipboardManager.

(** ** Numbers of the status line

    [updateStatus] computes in IEEE 754 binary64, the [Number] type of
    JavaScript: the operations are those of the Standard Library's
    executable specification at precision 53 and maximal exponent 1024. *)

Module Number.

Definition prec : Z := 53.
Definition emax : Z := 1024.

(** The [Number] of an integer (exact up to 2^53). *)
Definition of_Z (z : Z) : spec_float := binary_normalize prec emax z 0 false.

Definition div (x y : spec_float) : spec_float := SFdiv prec emax x y.
Definition mul (x y : spec_float) : spec_float := SFmul prec emax x y.

(** [Math.round]: the integer nearest to [x], ties towards +infinity,
    that is floor (x + 1/2) computed exactly; [None] for [NaN] and the
    infinities, which [Math.round] returns unchanged. *)
Definition Math_round (x : spec_float) : option Z :=
  match x with
  | S754_zero _ => Some 0
  | S754_finite s m e =>
      let n := if s then Z.neg m else Z.pos m in
      Some (if 0 <=? e then n * 2 ^ e
            else (2 * n + 2 ^ (- e)) / 2 ^ (1 - e))
  | S754_infinity _ | S754_nan => None
  end.

End Number.

(** [parseInt(string)] without a radix argument: leading white space is
    skipped, a sign is read, a [0x]/[0X] prefix selects radix 16, and the
    longest prefix of digits is read; [None] is [NaN].  The result is the
    exact integer (JavaScript rounds it to a [Number] beyond 2^53). *)

Definition digit_value (c : N) : option Z :=
  if ((0x30 <=? c) && (c <=? 0x39))%N then Some (Z.of_N c - 0x30)
  else if ((0x61 <=? c) && (c <=? 0x7A))%N then Some (Z.of_N c - 0x61 + 10)
  else if ((0x41 <=? c) && (c <=? 0x5A))%N then Some (Z.of_N c - 0x41 + 10)
  else None.

Fixpoint read_digits (radix : Z) (s : jsstring) (acc : option Z) : option Z :=
  match s with
  | [] => acc
  | c :: s' =>
      match digit_value c with
      | Some d =>
          if d <? radix
          then read_digits radix s' (Some (default 0 acc * radix + d))
          else acc
      | None => acc
      end
  end.

Definition parseInt (str : jsstring) : option Z :=
  let s := trimStart str in
  let '(sign, s) :=
    match s with
    | 0x2D%N :: s' => (-1, s')
    | 0x2B%N :: s' => (1, s')
    | _ => (1, s)
    end in
  let '(radix, s) :=
    match s with
    | 0x30%N :: 0x78%N :: s' => (16, s')
    | 0x30%N :: 0x58%N :: s' => (16, s')
    | _ => (10, s)
    end in
  n ← read_digits radix s None;
  Some (sign * n).

(** ** LineManager *)

(** The fields [lines] and [index] of the [LineManager] instance, and the
    [localStorage] of the page's origin. *)
Record App : Type := {
  lines : list jsstring;
  index : Z;
  storage : gmap string jsstring
}.

Definition set_lines (l : list jsstring) (st : App) : App :=
  {| lines := l; index := index st; storage := storage st |}.
Definition set_index (i : Z) (st : App) : App :=
  {| lines := lines st; index := i; storage := storage st |}.
Definition set_storage (ls : gmap string jsstring) (st : App) : App :=
  {| lines := lines st; index := index st; storage := ls |}.

(** [lines.length] *)
Definition len (st : App) : Z := Z.of_nat (length (lines st)).

(** [lines[i]]; [None] is [undefined]. *)
Definition line_at (ls : list jsstring) (i : Z) : option jsstring :=
  if i <? 0 then None else ls !! Z.to_nat i.

(** The result of the line-number dialog: [Swal.fire] resolves with
    [isConfirmed] and [value], or rejects. *)
Inductive PromptResult : Type :=
| Resolved (isConfirmed : bool) (value : option jsstring)
| Rejected.

(** The loop of [skipEmptyLines], on the index. *)
Equations? skip_from (ls : list jsstring) (i : Z) : Z
    by wf (Z.to_nat (Z.of_nat (length ls) - i)) lt :=
  skip_from ls i
    with inspect ((i <? Z.of_nat (length ls)) && Utils.isEmpty (line_at ls i)) := {
    | exist _ true _ => skip_from ls (i + 1)
    | exist _ false _ => i }.
Proof. apply andb_true_iff in e as [e _]. lia. Qed.

Section LineManager.
Context `{JSON}.

Definition updateStatus (st : App) : list Event :=
  if (length (lines st) =? 0)%nat then []
  else
    let currentCopied := index st in
    let totalLines := len st in
    let percent :=
      Number.Math_round
        (Number.mul
           (Number.div (Number.of_Z currentCopied) (Number.of_Z totalLines))
           (Number.of_Z 100)) in
    [SetProgress percent; SetStatus currentCopied totalLines].

(** The strings of an array of strings. *)
Definition as_strings (elems : list value) : option (list jsstring) :=
  mapM (fun v => match v with VStr s => Some s | _ => None end) elems.

(** [None]: the stored record does not have the shape
    [{lines: string[], index: number}] and would be adopted (a non-empty
    string, an object with a [length], an array with other elements, an
    index that is not a number); the fields would then hold values of other
    types, which this model does not follow. *)
Definition loadSessionDirect (e : Env) (st : App) : option (App * list Event) :=
  let sessionData := loadSession e (storage st) in
  match s_lines sessionData with
  | VArr elems =>
      if (0 <? length elems)%nat then
        ls ← as_strings elems;
        match js_or (s_index sessionData) (VNum 0) with
        | VNum i =>
            let st := set_index i (set_lines ls st) in
            Some (st, [SetInputText (join [LF] (lines st)); ShowButtons]
                        ++ updateStatus st)
        | _ => None
        end
      else Some (st, [])
  | VStr (_ :: _) => None
  | VObj props =>
      match assoc (js "length") props with
      | None => Some (st, [])
      | Some _ => None
      end
  | _ => Some (st, [])
  end.

(** The constructor: empty fields, then [init] restores the session. *)
Definition init (e : Env) (ls : gmap string jsstring) : option (App * list Event) :=
  loadSessionDirect e {| lines := []; index := 0; storage := ls |}.

Definition confirmInput (input : option jsstring) (e : Env) (st : App)
    : App * list Event :=
  let text := trim <$> input in
  if Utils.isEmpty text then (st, [ShowError ENTER_TEXT])
  else
    let st := set_lines (parseLines (default [] text)) st in
    if (length (lines st) =? 0)%nat then (st, [ShowError ENTER_TEXT])
    else
      let st := set_index 0 st in
      let st := set_storage (saveSession e (lines st) (index st) (storage st)) st in
      (st, [ShowButtons] ++ updateStatus st).

Definition skipEmptyLines (st : App) : App :=
  set_index (skip_from (lines st) (index st)) st.

Definition handleCopyError (err : CopyError) : list Event :=
  match err with
  | ExecCommandThrew true => [ShowError CLIPBOARD_ERROR]
  | _ => [ShowError COPY_ALL_ERROR]
  end.

Definition copyNext (e : Env) (st : App) : App * list Event :=
  let st := skipEmptyLines st in
  if len st <=? index st then (st, [ShowInfo LIST_ENDED NO_MORE_LINES])
  else
    let currentLine := line_at (lines st) (index st) in
    match ClipboardManager.copy (clip e) currentLine with
    | (log, None) =>
        let st := set_index (index st + 1) st in
        let st := set_storage (saveSession e (lines st) (index st) (storage st)) st in
        (st, log ++ [FlashElement genBtn] ++ updateStatus st)
    | (log, Some err) => (st, log ++ handleCopyError err)
    end.

(** The part of [copyPrev] before its call of [copyNext]: [None] when
    there is no previous line. *)
Definition copyPrev_retreat (e : Env) (st : App) : option App :=
  if index st <=? 0 then None
  else
    let st := set_index (Z.max 0 (index st - 2)) st in
    Some (set_storage (saveSession e (lines st) (index st) (storage st)) st).

Definition copyPrev (e1 e2 : Env) (st : App) : App * list Event :=
  match copyPrev_retreat e1 st with
  | None => (st, [ShowInfo NO_PREVIOUS NO_PREVIOUS_LINE])
  | Some st => copyNext e2 st
  end.

Definition isValidLineNumber (st : App) (lineNum : option Z) : bool :=
  match lineNum with
  | None => false
  | Some n => (1 <=? n) && (n <=? len st)
  end.

Definition copyByNumber (prompt : PromptResult) (e1 e2 : Env) (st : App)
    : App * list Event :=
  if (length (lines st) =? 0)%nat then (st, [])
  else
    let asked := [PromptForLineNumber (length (lines st))] in
    match prompt with
    | Rejected => (st, asked ++ [ShowError LINE_COPY_ERROR])
    | Resolved isConfirmed value =>
        if negb isConfirmed || negb (from_option str_truthy false value)
        then (st, asked)
        else
          let lineNum := parseInt (default [] value) in
          if negb (isValidLineNumber st lineNum)
          then (st, asked ++ [ShowError INVALID_NUMBER])
          else
            let st := set_index (default 0 lineNum - 1) st in
            let st := set_storage (saveSession e1 (lines st) (index st) (storage st)) st in
            let '(st, log) := copyNext e2 st in
            (st, asked ++ log)
    end.

Definition copyAll (e : Env) (st : App) : App * list Event :=
  if (length (lines st) =? 0)%nat then (st, [])
  else
    let allText := join [LF] (lines st) in
    match ClipboardManager.copy (clip e) (Some allText) with
    | (log, None) =>
        (st, log ++ [FlashElement copyAllBtn; ShowSuccess SUCCESS COPY_ALL_SUCCESS])
    | (log, Some err) => (st, log ++ handleCopyError err)
    end.

Definition resetAll (e : Env) (st : App) : App * list Event :=
  let st := set_lines [] st in
  let st := set_index 0 st in
  let st := set_storage (clearSession e (storage st)) st in
  (st, [SetInputText []; ClearStatusText; SetProgress (Some 0); HideButtons]).

(** The handlers a user can trigger, with what the browser answers. *)
Inductive Action : Type :=
| ConfirmInput (input : option jsstring) (e : Env)
| CopyNext (e : Env)
| CopyPrev (e1 e2 : Env)
| CopyByNumber (prompt : PromptResult) (e1 e2 : Env)
| CopyAll (e : Env)
| ResetAll (e : Env)
| SkipEmptyLines.

Definition step (a : Action) (st : App) : App * list Event :=
  match a with
  | ConfirmInput input e => confirmInput input e st
  | CopyNext e => copyNext e st
  | CopyPrev e1 e2 => copyPrev e1 e2 st
  | CopyByNumber prompt e1 e2 => copyByNumber prompt e1 e2 st
  | CopyAll e => copyAll e st
  | ResetAll e => resetAll e st
  | SkipEmptyLines => (skipEmptyLines st, [])
  end.

(** The state after a sequence of handlers, each run to its end before
    the next is called. *)
Definition run (acts : list Action) (st : App) : App :=
  foldl (fun st a => fst (step a st)) st acts.

End LineManager.

(** ** A reference JSON codec

    An executable instance of the [JSON] interface for the JSON texts whose
    numbers are integers, used to evaluate the handlers on concrete stored
    payloads. *)

Module RefJSON.

Definition hex_digit (n : N) : N :=
  (if n <? 10 then 0x30 + n else 0x61 + (n - 10))%N.

(** [QuoteJSONString], one code unit. *)
Definition escape (c : N) : jsstring :=
  (if c =? 0x22 then [0x5C; 0x22]
   else if c =? 0x5C then [0x5C; 0x5C]
   else if c =? 0x08 then [0x5C; 0x62]
   else if c =? 0x0C then [0x5C; 0x66]
   else if c =? 0x0A then [0x5C; 0x6E]
   else if c =? 0x0D then [0x5C; 0x72]
   else if c =? 0x09 then [0x5C; 0x74]
   else if c <? 0x20 then [0x5C; 0x75; 0x30; 0x30; hex_digit (c / 16); hex_digit (c mod 16)]
   else [c])%N.

Definition quote (s : jsstring) : jsstring :=
  0x22%N :: flat_map escape s ++ [0x22%N].

Definition print_Z (z : Z) : jsstring :=
  js (NilZero.string_of_int (Z.to_int z)).

Definition is_undefined (v : value) : bool :=
  match v with VUndefined => true | _ => false end.

Fixpoint stringify (v : value) : jsstring :=
  match v with
  | VUndefined | VNull => js "null"
  | VBool true => js "true"
  | VBool false => js "false"
  | VNum n => print_Z n
  | VStr s => quote s
  | VArr elems => [0x5B%N] ++ join [0x2C%N] (map stringify elems) ++ [0x5D%N]
  | VObj props =>
      [0x7B%N]
      ++ join [0x2C%N]
           (flat_map (fun kv => if is_undefined (snd kv) then []
                                else [quote (fst kv) ++ [0x3A%N] ++ stringify (snd kv)])
                     props)
      ++ [0x7D%N]
  end.

Fixpoint skip_ws (s : jsstring) : jsstring :=
  match s with
  | c :: s' =>
      if ((c =? 0x20) || (c =? 0x09) || (c =? 0x0A) || (c =? 0x0D))%N
      then skip_ws s' else s
  | [] => []
  end.

Definition hex_value (c : N) : option N :=
  match digit_value c with
  | Some d => if d <? 16 then Some (Z.to_N d) else None
  | None => None
  end.

Definition unescape (c : N) : option N :=
  (if c =? 0x22 then Some 0x22
   else if c =? 0x5C then Some 0x5C
   else if c =? 0x2F then Some 0x2F
   else if c =? 0x62 then Some 0x08
   else if c =? 0x66 then Some 0x0C
   else if c =? 0x6E then Some 0x0A
   else if c =? 0x72 then Some 0x0D
   else if c =? 0x74 then Some 0x09
   else None)%N.

(** The characters of a string literal, after its opening quote. *)
Fixpoint parse_chars (s : jsstring) : option (jsstring * jsstring) :=
  match s with
  | [] => None
  | 0x22%N :: rest => Some ([], rest)
  | 0x5C%N :: 0x75%N :: h1 :: h2 :: h3 :: h4 :: r =>
      a ← hex_value h1; b ← hex_value h2; c ← hex_value h3; d ← hex_value h4;
      '(str, rest) ← parse_chars r;
      Some ((((a * 16 + b) * 16 + c) * 16 + d)%N :: str, rest)
  | 0x5C%N :: e :: r =>
      c ← unescape e;
      '(str, rest) ← parse_chars r;
      Some (c :: str, rest)
  | c :: r =>
      if (c <? 0x20)%N || (c =? 0x5C)%N then None
      else '(str, rest) ← parse_chars r; Some (c :: str, rest)
  end.

Definition is_digit (c : N) : bool := ((0x30 <=? c) && (c <=? 0x39))%N.

Fixpoint parse_digits (s : jsstring) (acc : Z) : Z * jsstring :=
  match s with
  | c :: s' =>
      if is_digit c then parse_digits s' (acc * 10 + (Z.of_N c - 0x30))
      else (acc, s)
  | [] => (acc, [])
  end.

(** An integer literal; a fraction or an exponent is refused. *)
Definition parse_number (s : jsstring) : option (value * jsstring) :=
  let '(sign, s) :=
    match s with
    | 0x2D%N :: s' => (-1, s')
    | _ => (1, s)
    end in
  match s with
  | c :: s' =>
      if is_digit c then
        let '(n, rest) :=
          if (c =? 0x30)%N then (0, s') else parse_digits s 0 in
        match rest with
        | 0x2E%N :: _ | 0x65%N :: _ | 0x45%N :: _ => None
        | _ => Some (VNum (sign * n), rest)
        end
      else None
  | [] => None
  end.

Fixpoint strip_prefix (p s : jsstring) : option jsstring :=
  match p, s with
  | [], _ => Some s
  | a :: p', b :: s' => if (a =? b)%N then strip_prefix p' s' else None
  | _ :: _, [] => None
  end.

Definition parse_literal (s : jsstring) : option (value * jsstring) :=
  match strip_prefix (js "true") s, strip_prefix (js "false") s,
        strip_prefix (js "null") s with
  | Some rest, _, _ => Some (VBool true, rest)
  | _, Some rest, _ => Some (VBool false, rest)
  | _, _, Some rest => Some (VNull, rest)
  | _, _, _ => parse_number s
  end.

(** A later member with the same key replaces an earlier one. *)
Definition add_member (k : jsstring) (v : value)
    (members : list (jsstring * value)) : list (jsstring * value) :=
  match assoc k members with
  | Some _ => members
  | None => (k, v) :: members
  end.

Fixpoint parse_value (fuel : nat) (s : jsstring) : option (value * jsstring) :=
  match fuel with
  | O => None
  | S fuel =>
      match skip_ws s with
      | 0x22%N :: r => '(str, rest) ← parse_chars r; Some (VStr str, rest)
      | 0x5B%N :: r =>
          match skip_ws r with
          | 0x5D%N :: rest => Some (VArr [], rest)
          | _ => '(elems, rest) ← parse_elements fuel r; Some (VArr elems, rest)
          end
      | 0x7B%N :: r =>
          match skip_ws r with
          | 0x7D%N :: rest => Some (VObj [], rest)
          | _ => '(members, rest) ← parse_members fuel r; Some (VObj members, rest)
          end
      | s' => parse_literal s'
      end
  end
with parse_elements (fuel : nat) (s : jsstring) : option (list value * jsstring) :=
  match fuel with
  | O => None
  | S fuel =>
      '(v, rest) ← parse_value fuel s;
      match skip_ws rest with
      | 0x2C%N :: r => '(vs, rest') ← parse_elements fuel r; Some (v :: vs, rest')
      | 0x5D%N :: r => Some ([v], r)
      | _ => None
      end
  end
with parse_members (fuel : nat) (s : jsstring)
    : option (list (jsstring * value) * jsstring) :=
  match fuel with
  | O => None
  | S fuel =>
      match skip_ws s with
      | 0x22%N :: r =>
          '(k, rest) ← parse_chars r;
          match skip_ws rest with
          | 0x3A%N :: r' =>
              '(v, rest') ← parse_value fuel r';
              match skip_ws rest' with
              | 0x2C%N :: r'' =>
                  '(ms, rest'') ← parse_members fuel r'';
                  Some (add_member k v ms, rest'')
              | 0x7D%N :: r'' => Some ([(k, v)], r'')
              | _ => None
              end
          | _ => None
          end
      | _ => None
      end
  end.

Definition parse (str : jsstring) : option value :=
  '(v, rest) ← parse_value (2 * length str + 2) str;
  match skip_ws rest with
  | [] => Some v
  | _ :: _ => None
  end.

#[export] Instance codec : JSON :=
  {| JSON_parse := parse; JSON_stringify := stringify |}.

End RefJSON.

(** ** Observations on handler runs *)

(** The texts that reached the clipboard, in order. *)
Definition copied (log : list Event) : list jsstring :=
  omap (fun ev => match ev with
                  | ClipboardTry _ text true => Some text
                  | _ => None
                  end) log.

(** The mechanisms that were invoked, in order. *)
Definition tried (log : list Event) : list Mechanism :=
  omap (fun ev => match ev with
                  | ClipboardTry m _ _ => Some m
                  | _ => None
                  end) log.

(** Successive calls of [copyNext]: the state and the effects of each. *)
Fixpoint copyNext_each `{JSON} (es : list Env) (st : App) : list (App * list Event) :=
  match es with
  | [] => []
  | e :: es' =>
      let r := copyNext e st in
      r :: copyNext_each es' (fst r)
  end.

(** The copy mechanisms in the words of the specification: an ordered list
    of strategies, the native write when it is supported, then the library
    fallback when the library is present and the copy command otherwise. *)
Definition execCommand_ok (c : ClipEnv) (text : jsstring) : bool :=
  match execCommand_copy c text with
  | ExecReturned ok => ok
  | ExecThrew _ => false
  end.

Definition strategies (c : ClipEnv) : list (Mechanism * (jsstring -> bool)) :=
  (if hasNativeSupport c then [(NativeClipboard, writeText c)] else [])
  ++ [if ClipboardJS_defined c then (ClipboardJS, ClipboardJS_success c)
      else (ExecCommand, execCommand_ok c)].

Fixpoint try_in_order (ms : list (Mechanism * (jsstring -> bool)))
    (text : jsstring) : list Event * bool :=
  match ms with
  | [] => ([], false)
  | (m, attempt) :: ms' =>
      if attempt text then ([ClipboardTry m text true], true)
      else
        let '(log, ok) := try_in_order ms' text in
        (ClipboardTry m text false :: log, ok)
  end.

(** A parsed payload with a [lines] field. *)
Definition has_lines (v : value) : bool :=
  match v with
  | VObj props => bool_decide (is_Some (assoc (js "lines") props))
  | _ => false
  end.

(** The invariant of the data model: the cursor is an index into the
    lines or their length. *)
Definition index_in_range (st : App) : Prop := 0 <= index st <= len st.

(** The same for a session as [loadSession] returns it. *)
Definition session_in_range (s : Session) : Prop :=
  match s_lines s, js_or (s_index s) (VNum 0) with
  | VArr elems, VNum i => 0 <= i <= Z.of_nat (length elems)
  | _, _ => True
  end.

(** ** Real values of the numbers

    Used to state how far the double-precision operations are from the
    exact ones. *)

(** The real number a shift record stands for lies at or above its
    mantissa, in the half given by the round bit, exactly on its boundary
    when the sticky bit is clear. *)
Definition located (mrs : shr_record) (x : R) : Prop :=
  let m := IZR (shr_m mrs) in
  match shr_r mrs, shr_s mrs with
  | false, false => x = m
  | false, true => (m < x < m + / 2)%R
  | true, false => x = (m + / 2)%R
  | true, true => (m + / 2 < x < m + 1)%R
  end.

Definition bpow (e : Z) : R := powerRZ 2 e.

(** ** Sample inputs

    A browser in which every clipboard write through the native API
    resolves and storage works, an application that has just been
    constructed on an empty storage, and the input of the specification's
    scenario: [a], an empty line, [b], [ c ] and a final newline. *)

Definition native_ok : ClipEnv :=
  {| hasNativeSupport := true;
     writeText := fun _ => true;
     ClipboardJS_defined := false;
     ClipboardJS_success := fun _ => false;
     execCommand_copy := fun _ => ExecReturned false |}.

Definition browser : Env :=
  {| clip := native_ok; now := 1700000000000;
     getItem_ok := true; setItem := Stored; removeItem_ok := true |}.

Definition fresh : App := {| lines := []; index := 0; storage := ∅ |}.

Definition scenario_input : jsstring :=
  js "a" ++ [LF; LF] ++ js "b" ++ [LF] ++ js " c " ++ [LF].

(** A session record that no run of the application writes: one line and
    the index 5. *)
Definition tampered_record : value :=
  VObj [ (js "lines", VArr [VStr (js "a")]); (js "index", VNum 5) ].

Definition tampered_storage : gmap string jsstring :=
  {[ CONFIG.LINES := RefJSON.stringify tampered_record ]}.

(** The rejections that come from a copy mechanism, as opposed to the
    refusal of an empty text. *)
Definition is_unavailable (err : option CopyError) : bool :=
  match err with
  | Some ClipboardJSFailed | Some ExecCommandFailed | Some (ExecCommandThrew _) => true
  | Some NoTextToCopy | None => false
  end.

(** ** Utils.formatMessage *)

(** The class [\w] of a regular expression without the unicode flag. *)
Definition isWordChar (c : N) : bool :=
  (((0x30 <=? c) && (c <=? 0x39)) || ((0x41 <=? c) && (c <=? 0x5A))
   || (c =? 0x5F) || ((0x61 <=? c) && (c <=? 0x7A)))%N.

(** The longest prefix of word characters, and what follows it. *)
Fixpoint span_word (s : jsstring) : jsstring * jsstring :=
  match s with
  | [] => ([], [])
  | c :: s' =>
      if isWordChar c
      then let '(w, r) := span_word s' in (c :: w, r)
      else ([], s)
  end.

(** The text of the placeholder of a key. *)
Definition placeholder (key : jsstring) : jsstring :=
  [0x7B%N; 0x7B%N] ++ key ++ [0x7D%N; 0x7D%N].

(** A match of [/\{\{(\w+)\}\}/] at the start of [s]: the captured key and
    what follows the match.  [\w+] is greedy and a closing brace is not a
    word character, so the only candidate for the key is the longest run
    of word characters. *)
Definition match_placeholder (s : jsstring) : option (jsstring * jsstring) :=
  match s with
  | 0x7B%N :: 0x7B%N :: s1 =>
      match span_word s1 with
      | ((_ :: _) as key, 0x7D%N :: 0x7D%N :: rest) => Some (key, rest)
      | _ => None
      end
  | _ => None
  end.

(** How a call of [formatMessage] ends: with its value, with the
    [TypeError] it throws, or in a conversion to a string that this model
    does not follow. *)
Inductive Failure : Type := ThrowsTypeError | NotModelled.

Inductive Result (A : Type) : Type :=
| Ok (a : A)
| Fails (f : Failure).

Arguments Ok {A} a.
Arguments Fails {A} f.

Definition and_then {A B : Type} (r : Result A) (k : A -> Result B) : Result B :=
  match r with
  | Ok a => k a
  | Fails f => Fails f
  end.

(** [String.prototype.replace] with the global placeholder pattern and a
    replacer function of the match and its captured key: the matches are
    found from left to right and do not overlap, and the replacer is
    called for each in that order, so that the first call that throws
    ends the replacement. *)
Equations? replace_placeholders
    (replacer : jsstring -> jsstring -> Result jsstring)
    (s : jsstring) : Result jsstring by wf (length s) lt :=
  replace_placeholders replacer [] := Ok [];
  replace_placeholders replacer (c :: s')
    with inspect (match_placeholder (c :: s')) := {
    | exist _ (Some (key, rest)) _ =>
        and_then (replacer (placeholder key) key) (fun replacement =>
        and_then (replace_placeholders replacer rest) (fun tail =>
        Ok (replacement ++ tail)))
    | exist _ None _ =>
        and_then (replace_placeholders replacer s') (fun tail => Ok (c :: tail)) }.
Proof.
  assert (Hspan : forall s w r, span_word s = (w, r) ->
                    (length r <= length s)%nat).
  { clear. induction s as [|a s IH]; intros w r Hs; simpl in Hs.
    - inversion Hs. simpl. lia.
    - destruct (isWordChar a).
      + destruct (span_word s) as [w' r'] eqn:E. inversion Hs; subst.
        specialize (IH _ _ eq_refl). simpl. lia.
      + inversion Hs. simpl. lia. }
  unfold match_placeholder in e.
  destruct c as [|p]; [discriminate|].
  repeat (destruct p as [ p | p | ]; try discriminate).
  destruct s' as [|c2 s1]; [discriminate|].
  destruct c2 as [|p]; [discriminate|].
  repeat (destruct p as [ p | p | ]; try discriminate).
  destruct (span_word s1) as [w r] eqn:E.
  apply Hspan in E.
  destruct w; [discriminate|].
  destruct r as [|d1 r]; [discriminate|].
  destruct d1 as [|p]; [discriminate|].
  repeat (destruct p as [ p | p | ]; try discriminate).
  destruct r as [|d2 r]; [discriminate|].
  destruct d2 as [|p]; [discriminate|].
  repeat (destruct p as [ p | p | ]; try discriminate).
  inversion e; subst. simpl in *. lia.
Qed.

(** [String(v)] for the primitive values.  A number is an integer here;
    JavaScript prints the integers below 2^53 in magnitude in decimal, as
    this does.  Larger numbers are printed from the digits of their
    double-precision value, in exponent notation from 10^21, and arrays
    and objects are converted by their own methods: these conversions are
    not modelled. *)
Definition ToString (v : value) : Result jsstring :=
  match v with
  | VUndefined => Ok (js "undefined")
  | VNull => Ok (js "null")
  | VBool true => Ok (js "true")
  | VBool false => Ok (js "false")
  | VNum n =>
      if Z.abs n <? 2 ^ 53 then Ok (RefJSON.print_Z n) else Fails NotModelled
  | VStr s => Ok s
  | VArr _ | VObj _ => Fails NotModelled
  end.

(** [params] is an object whose own properties are data: [params] lists
    them, each once.  The replacer calls [params.hasOwnProperty(key)]: when [params]
    has an own property of that name, the call is a call of that value,
    which is not a function, and throws a [TypeError]. *)
Definition formatMessage (template : jsstring)
    (params : list (jsstring * value)) : Result jsstring :=
  replace_placeholders
    (fun match_ key =>
       match assoc (js "hasOwnProperty") params with
       | Some _ => Fails ThrowsTypeError
       | None =>
           match assoc key params with
           | Some v => ToString v
           | None => Ok match_
           end
       end)
    template.

(** The two templates of [CONFIG.MESSAGES.AR] that have placeholders, as
    UTF-16 code units. *)
Module MESSAGES.

(** The text before [{{max}}] in [ENTER_LINE_NUMBER]. *)
Definition ENTER_LINE_NUMBER_prefix : jsstring :=
  [0x623; 0x62F; 0x62E; 0x644; 0x20; 0x631; 0x642; 0x645; 0x20; 0x627;
   0x644; 0x633; 0x637; 0x631; 0x20; 0x28; 0x645; 0x646; 0x20; 0x31;
   0x20; 0x625; 0x644; 0x649; 0x20]%N.

Definition ENTER_LINE_NUMBER : jsstring :=
  ENTER_LINE_NUMBER_prefix ++ js "{{max}})".

(** The text before [{{current}}] in [COPIED_STATUS], and the text
    between the two placeholders. *)
Definition COPIED_STATUS_prefix : jsstring :=
  [0xD83D; 0xDCCC; 0x20; 0x62A; 0x645; 0x20; 0x627; 0x644; 0x646; 0x633;
   0x62E; 0x3A; 0x20]%N.

Definition COPIED_STATUS_of : jsstring := [0x20; 0x645; 0x646; 0x20]%N.

Definition COPIED_STATUS : jsstring :=
  COPIED_STATUS_prefix ++ js "{{current}}" ++ COPIED_STATUS_of ++ js "{{total}}".

End MESSAGES.

(** The text [updateStatus] writes to the status element for the effect
    [SetStatus current total]. *)
Definition status_text (current total : Z) : Result jsstring :=
  formatMessage MESSAGES.COPIED_STATUS
    [(js "current", VNum current); (js "total", VNum total)].

(** The label [copyByNumber] passes to the dialog for the effect
    [PromptForLineNumber maxLines]. *)
Definition prompt_label (maxLines : nat) : Result jsstring :=
  formatMessage MESSAGES.ENTER_LINE_NUMBER [(js "max", VNum (Z.of_nat maxLines))].

(** ** Utils.debounce

    The closure variable [timeout] holds the pending timer, with the
    arguments of the call that armed it.  The browser decides when the
    timer fires, so a timeline is a sequence of calls of the debounced
    function and of firings; the result is the arguments [func] is called
    with, in order. *)

Section Debounce.
Context {A : Type}.

Inductive TimerEvent : Type :=
| Call (args : A)
| TimerFires.

Definition debounce_step (timeout : option A) (ev : TimerEvent)
    : option A * list A :=
  match ev with
  | Call args => (Some args, [])        (* clearTimeout; setTimeout(later) *)
  | TimerFires =>
      match timeout with
      | Some args => (None, [args])     (* later: func(...args) *)
      | None => (None, [])
      end
  end.

Fixpoint debounce (timeout : option A) (evs : list TimerEvent) : list A :=
  match evs with
  | [] => []
  | ev :: evs' =>
      let '(timeout', calls) := debounce_step timeout ev in
      calls ++ debounce timeout' evs'
  end.

End Debounce.

Arguments TimerEvent : clear implicits.

(** ** LineManager.handleKeydown *)

Record KeyboardEvent : Type := {
  ctrlKey : bool;
  altKey : bool;
  shiftKey : bool;
  key : jsstring
}.

Inductive Command : Type := DoCopyNext | DoCopyPrev | DoCopyAll | DoResetAll.

(** The handlers [handleKeydown] calls, in order. *)
Definition handleKeydown (e : KeyboardEvent) : list Command :=
  (if ctrlKey e && bool_decide (key e = js "Enter")
   then [if shiftKey e then DoCopyPrev else DoCopyNext] else [])
  ++ (if ctrlKey e && altKey e && bool_decide (key e = js "c")
      then [DoCopyAll] else [])
  ++ (if ctrlKey e && altKey e && bool_decide (key e = js "r")
      then [DoResetAll] else []).

(** The listener [setupEventListeners] installs for [keydown]: the
    debounced [handleKeydown], on a timeline of key presses and timer
    firings. *)
Definition debouncedKeyHandler (evs : list (TimerEvent KeyboardEvent))
    : list Command :=
  flat_map handleKeydown (debounce None evs).

(** ** LineManager.validateInput *)

Definition validateInput (input : option jsstring) : bool :=
  match input with
  | None | Some [] => false
  | Some text => (0 <? length (parseLines text))%nat
  end.

(** ** UIManager.promptForLineNumber: the [inputValidator] of the dialog

    The message it returns, [None] when the answer is accepted. *)
Definition inputValidator (maxLines : nat) (value : option jsstring)
    : option Message :=
  let num := value ≫= parseInt in
  if negb (from_option str_truthy false value)
     || negb (bool_decide (is_Some num))
     || (default 0 num <? 1)
     || (Z.of_nat maxLines <? default 0 num)
  then Some INVALID_NUMBER
  else None.

(** ** Theme: StorageManager.saveMode, getMode and
    LineManager.toggleMode, loadSavedMode

    The page state is whether [document.body] carries the class
    [light-mode]. *)

Definition saveMode (e : Env) (mode : jsstring) (ls : LocalStorage)
    : LocalStorage :=
  match setItem e with
  | Stored => <[CONFIG.MODE := mode]> ls
  | _ => ls
  end.

(** [None] is [null]. *)
Definition getMode (e : Env) (ls : LocalStorage) : option jsstring :=
  if getItem_ok e then ls !! CONFIG.MODE else None.

Definition toggleMode (e : Env) (light_mode : bool) (ls : LocalStorage)
    : bool * LocalStorage :=
  let light_mode := negb light_mode in
  let mode := if light_mode then js "light" else js "dark" in
  (light_mode, saveMode e mode ls).

Definition loadSavedMode (e : Env) (light_mode : bool) (ls : LocalStorage)
    : bool :=
  if bool_decide (getMode e ls = Some (js "light")) then true else light_mode.

(** ** ClipboardManager: the permission dialog

    [requestPermission] and [handlePermissionError] call each other for as
    long as the user asks to try again.  A round is what the user and the
    browser answer during one call of [requestPermission] and the call of
    [handlePermissionError] it may lead to.  The test copy and each of
    the four dialogs are awaited: a copy that has not settled, or a dialog
    that stays open, leaves the call waiting, with the storage as it is at
    that point.  The attempts of a copy that has not settled are not
    listed among the events. *)

Inductive PermissionError : Type :=
| CopyRejected (err : CopyError)
| StorageThrew.

Inductive PermissionEvent : Type :=
| AskAllowClipboard
| TestCopy (log : list Event)
| TellAccessGranted
| HideRequestButton
| TellAccessFailed (error : PermissionError)
| TellBrowserSettings.

(** How an [async] function ends: it returns, its promise rejects, or it
    is still waiting for a dialog that has not been closed. *)
Inductive Completion : Type := Returned | Threw | Awaiting.

Record Round : Type := {
  allow : option bool;                (* isConfirmed of the question; None: still open *)
  copy_settled : bool;                (* the test copy has resolved or rejected *)
  round_clip : ClipEnv;
  granted_closed : bool;              (* the access-granted notice has been closed *)
  store_granted : SetItemResult;      (* setItem(..., "granted") *)
  tryAgain : option bool;             (* isConfirmed of the error dialog; None: still open *)
  store_denied : SetItemResult;       (* setItem(..., "denied") *)
  note_closed : bool                  (* the browser-settings note has been closed *)
}.

(** [localStorage.setItem(CLIPBOARD_PERMISSION, v)]; [None] is a throw. *)
Definition setPermission (r : SetItemResult) (v : jsstring) (ls : LocalStorage)
    : option LocalStorage :=
  match r with
  | Stored => Some (<[CONFIG.CLIPBOARD_PERMISSION := v]> ls)
  | _ => None
  end.

(** [retry] is the call of [requestPermission] for the rounds to come. *)
Definition handlePermissionError (r : Round) (error : PermissionError)
    (retry : LocalStorage -> LocalStorage * list PermissionEvent * Completion)
    (ls : LocalStorage) : LocalStorage * list PermissionEvent * Completion :=
  match tryAgain r with
  | None => (ls, [TellAccessFailed error], Awaiting)
  | Some true =>
      let '(ls', evs, c) := retry ls in
      (ls', TellAccessFailed error :: evs, c)
  | Some false =>
      match setPermission (store_denied r) (js "denied") ls with
      | Some ls' =>
          (ls', [TellAccessFailed error; TellBrowserSettings],
           if note_closed r then Returned else Awaiting)
      | None => (ls, [TellAccessFailed error], Threw)
      end
  end.

Fixpoint requestPermission (rounds : list Round) (ls : LocalStorage)
    : LocalStorage * list PermissionEvent * Completion :=
  match rounds with
  | [] => (ls, [AskAllowClipboard], Awaiting)
  | r :: rounds' =>
      match allow r with
      | None => (ls, [AskAllowClipboard], Awaiting)
      | Some false =>
          match setPermission (store_denied r) (js "denied") ls with
          | Some ls' => (ls', [AskAllowClipboard], Returned)
          | None => (ls, [AskAllowClipboard], Threw)
          end
      | Some true =>
          if negb (copy_settled r) then (ls, [AskAllowClipboard], Awaiting) else
          match ClipboardManager.copy (round_clip r) (Some (js " ")) with
          | (log, None) =>
              if negb (granted_closed r) then
                (ls, [AskAllowClipboard; TestCopy log; TellAccessGranted], Awaiting)
              else
                match setPermission (store_granted r) (js "granted") ls with
                | Some ls' =>
                    (ls', [AskAllowClipboard; TestCopy log; TellAccessGranted;
                           HideRequestButton], Returned)
                | None =>
                    let '(ls', evs, c) :=
                      handlePermissionError r StorageThrew
                        (requestPermission rounds') ls in
                    (ls', [AskAllowClipboard; TestCopy log; TellAccessGranted] ++ evs, c)
                end
          | (log, Some err) =>
              let '(ls', evs, c) :=
                handlePermissionError r (CopyRejected err)
                  (requestPermission rounds') ls in
              (ls', [AskAllowClipboard; TestCopy log] ++ evs, c)
          end
      end
  end.

(** Whether the request button is made visible; [None] when
    [localStorage.getItem] throws. *)
Definition requestPermissionIfNeeded (e : Env) (ls : LocalStorage)
    : option bool :=
  if getItem_ok e
  then Some (negb (bool_decide
                     (ls !! CONFIG.CLIPBOARD_PERMISSION = Some (js "granted"))))
  else None.

(** The test copies of a permission dialog that reached the clipboard. *)
Definition test_copied (evs : list PermissionEvent) : list jsstring :=
  flat_map (fun ev => match ev with
                      | TestCopy log => copied log
                      | _ => []
                      end) evs.

(** What a run of the permission dialog from the storage [ls] leaves,
    by the way it ends. *)
Definition dialog_outcome (ls : LocalStorage)
    (h : LocalStorage * list PermissionEvent * Completion) : Prop :=
  let ls' := fst (fst h) in
  let evs := snd (fst h) in
  (forall k, k <> CONFIG.CLIPBOARD_PERMISSION -> ls' !! k = ls !! k)
  /\ match snd h with
     | Returned =>
         (ls' !! CONFIG.CLIPBOARD_PERMISSION = Some (js "granted")
          /\ js " " ∈ test_copied evs
          /\ last evs = Some HideRequestButton)
         \/ (ls' !! CONFIG.CLIPBOARD_PERMISSION = Some (js "denied")
             /\ HideRequestButton ∉ evs)
     | Threw => ls' = ls /\ HideRequestButton ∉ evs
     | Awaiting =>
         (ls' = ls
          \/ (ls' = <[CONFIG.CLIPBOARD_PERMISSION := js "denied"]> ls
              /\ last evs = Some TellBrowserSettings))
         /\ HideRequestButton ∉ evs
     end.

(** ** The text area

    The value a text area returns, the API value of HTML: a carriage
    return followed by a line feed, and every other carriage return, is
    read as one line feed. *)



(** ** Handlers that overlap

    An [async] handler runs to its first [await] when it is called, and
    on from there when the awaited promise settles; in between other
    handlers may be called and other promises may settle.  [copyNext] and
    [copyAll] await the clipboard, [copyByNumber] awaits its dialog and
    then the [copyNext] it calls.  A move is the call of a handler or the
    settling of a pending promise, and what [step] does in one go is here
    done in the moves of [sequential]. *)

Inductive Task : Type :=
| AwaitCopyNext (currentLine : option jsstring)
| AwaitCopyAll (allText : jsstring)
| AwaitPrompt.

Inductive HandlerCall : Type :=
| CallConfirmInput (input : option jsstring) (e : Env)
| CallCopyNext
| CallCopyPrev (e : Env)
| CallCopyByNumber
| CallCopyAll
| CallResetAll (e : Env)
| CallSkipEmptyLines.

Inductive Move : Type :=
| Begin (c : HandlerCall)
| SettleCopy (k : nat) (e : Env)
| SettlePrompt (k : nat) (prompt : PromptResult) (e : Env).

(** The application and the promises its handlers are waiting for, the
    oldest first. *)
Record Running : Type := {
  app_state : App;
  pending : list Task
}.

Section Overlap.
Context `{JSON}.

(** [copyNext] up to its [await]. *)
Definition begin_copyNext (st : App) : App * list Task * list Event :=
  let st := skipEmptyLines st in
  if len st <=? index st then (st, [], [ShowInfo LIST_ENDED NO_MORE_LINES])
  else (st, [AwaitCopyNext (line_at (lines st) (index st))], []).

(** [copyNext] from its [await]: the fields are read again, as they are
    by then. *)
Definition settle_copyNext (currentLine : option jsstring) (e : Env) (st : App)
    : App * list Event :=
  match ClipboardManager.copy (clip e) currentLine with
  | (log, None) =>
      let st := set_index (index st + 1) st in
      let st := set_storage (saveSession e (lines st) (index st) (storage st)) st in
      (st, log ++ [FlashElement genBtn] ++ updateStatus st)
  | (log, Some err) => (st, log ++ handleCopyError err)
  end.

Definition settle_copyAll (allText : jsstring) (e : Env) (st : App)
    : App * list Event :=
  match ClipboardManager.copy (clip e) (Some allText) with
  | (log, None) =>
      (st, log ++ [FlashElement copyAllBtn; ShowSuccess SUCCESS COPY_ALL_SUCCESS])
  | (log, Some err) => (st, log ++ handleCopyError err)
  end.

(** [copyByNumber] from its dialog to the [await] of its [copyNext]. *)
Definition settle_prompt (prompt : PromptResult) (e : Env) (st : App)
    : App * list Task * list Event :=
  match prompt with
  | Rejected => (st, [], [ShowError LINE_COPY_ERROR])
  | Resolved isConfirmed value =>
      if negb isConfirmed || negb (from_option str_truthy false value)
      then (st, [], [])
      else
        let lineNum := parseInt (default [] value) in
        if negb (isValidLineNumber st lineNum)
        then (st, [], [ShowError INVALID_NUMBER])
        else
          let st := set_index (default 0 lineNum - 1) st in
          let st := set_storage (saveSession e (lines st) (index st) (storage st)) st in
          begin_copyNext st
  end.

(** A handler from its call to its first [await], or to its end. *)
Definition begin_call (c : HandlerCall) (st : App) : App * list Task * list Event :=
  match c with
  | CallConfirmInput input e =>
      let '(st, evs) := confirmInput input e st in (st, [], evs)
  | CallCopyNext => begin_copyNext st
  | CallCopyPrev e =>
      match copyPrev_retreat e st with
      | None => (st, [], [ShowInfo NO_PREVIOUS NO_PREVIOUS_LINE])
      | Some st => begin_copyNext st
      end
  | CallCopyByNumber =>
      if (length (lines st) =? 0)%nat then (st, [], [])
      else (st, [AwaitPrompt], [PromptForLineNumber (length (lines st))])
  | CallCopyAll =>
      if (length (lines st) =? 0)%nat then (st, [], [])
      else (st, [AwaitCopyAll (join [LF] (lines st))], [])
  | CallResetAll e =>
      let '(st, evs) := resetAll e st in (st, [], evs)
  | CallSkipEmptyLines => (skipEmptyLines st, [], [])
  end.

(** One move.  A settling that names no pending promise of its kind does
    nothing. *)
Definition play_step (m : Move) (r : Running) : Running * list Event :=
  match m with
  | Begin c =>
      let '(st, tasks, evs) := begin_call c (app_state r) in
      ({| app_state := st; pending := pending r ++ tasks |}, evs)
  | SettleCopy k e =>
      match pending r !! k with
      | Some (AwaitCopyNext currentLine) =>
          let '(st, evs) := settle_copyNext currentLine e (app_state r) in
          ({| app_state := st; pending := delete k (pending r) |}, evs)
      | Some (AwaitCopyAll allText) =>
          let '(st, evs) := settle_copyAll allText e (app_state r) in
          ({| app_state := st; pending := delete k (pending r) |}, evs)
      | _ => (r, [])
      end
  | SettlePrompt k prompt e =>
      match pending r !! k with
      | Some AwaitPrompt =>
          let '(st, tasks, evs) := settle_prompt prompt e (app_state r) in
          ({| app_state := st; pending := delete k (pending r) ++ tasks |}, evs)
      | _ => (r, [])
      end
  end.

Fixpoint play (moves : list Move) (r : Running) : Running * list Event :=
  match moves with
  | [] => (r, [])
  | m :: moves' =>
      let '(r1, evs1) := play_step m r in
      let '(r2, evs2) := play moves' r1 in
      (r2, evs1 ++ evs2)
  end.

(** The moves of a handler that is called when nothing is pending and
    runs to its end before anything else happens. *)
Definition sequential (a : Action) : list Move :=
  match a with
  | ConfirmInput input e => [Begin (CallConfirmInput input e)]
  | CopyNext e => [Begin CallCopyNext; SettleCopy 0 e]
  | CopyPrev e1 e2 => [Begin (CallCopyPrev e1); SettleCopy 0 e2]
  | CopyByNumber prompt e1 e2 =>
      [Begin CallCopyByNumber; SettlePrompt 0 prompt e1; SettleCopy 0 e2]
  | CopyAll e => [Begin CallCopyAll; SettleCopy 0 e]
  | ResetAll e => [Begin (CallResetAll e)]
  | SkipEmptyLines => [Begin CallSkipEmptyLines]
  end.

End Overlap.

(** An application that has just been constructed on an empty storage,
    nothing pending. *)
Definition started : Running := {| app_state := fresh; pending := [] |}.

(** ** Conditions on runs *)

(** No line is blank: what [parseLines] produces. *)
Definition no_blank_lines (st : App) : Prop :=
  Forall (fun line => blank line = false) (lines st).

(** Storage that works: writes are stored and removals succeed. *)
Definition reliable (e : Env) : Prop :=
  setItem e = Stored /\ removeItem_ok e = true.

Definition move_reliable (m : Move) : Prop :=
  match m with
  | Begin (CallConfirmInput _ e) | Begin (CallCopyPrev e)
  | Begin (CallResetAll e) | SettleCopy _ e | SettlePrompt _ _ e => reliable e
  | Begin _ => True
  end.

(** The reading of the clock a move may save with a record. *)
Definition move_clock (m : Move) : list Z :=
  match m with
  | Begin (CallConfirmInput _ e) | Begin (CallCopyPrev e)
  | Begin (CallResetAll e) | SettleCopy _ e | SettlePrompt _ _ e => [now e]
  | Begin _ => []
  end.

(** The stored record is the encoding of the lines and the cursor in
    memory with one of the timestamps [ts]; or nothing is stored, there
    are no lines and the cursor is 0. *)
Definition mirrors `{JSON} (ts : list Z) (st : App) : Prop :=
  match storage st !! CONFIG.LINES with
  | None => lines st = [] /\ index st = 0
  | Some str =>
      exists t, t ∈ ts /\ str = JSON_stringify (sessionData (lines st) (index st) t)
  end.

(** The invariant of a session whose storage works, whatever overlaps. *)
Definition consistent `{JSON} (ts : list Z) (st : App) : Prop :=
  mirrors ts st /\ no_blank_lines st /\ 0 <= index st.

(** * Properties *)

(** ** Strings *)

Lemma trimStart_split (s : jsstring) :
  exists ws, s = ws ++ trimStart s /\ blank ws = true.
Proof.
  induction s as [|c s [ws [Hs Hws]]]; [by exists []|].
  simpl. destruct (isStrWhiteSpaceChar c) eqn:Hc.
  - exists (c :: ws). simpl. rewrite Hc, Hws. split; [by f_equal|done].
  - by exists [].
Qed.

Lemma trimStart_head (s : jsstring) c r :
  trimStart s = c :: r -> isStrWhiteSpaceChar c = false.
Proof.
  induction s as [|a s IH]; simpl; [done|].
  destruct (isStrWhiteSpaceChar a) eqn:Ha; [done|].
  intros [= -> _]. done.
Qed.

Lemma trimStart_fixed (c : N) (s : jsstring) :
  isStrWhiteSpaceChar c = false -> trimStart (c :: s) = c :: s.
Proof. intros Hc. simpl. by rewrite Hc. Qed.

Lemma trimStart_blank (s : jsstring) : blank s = true -> trimStart s = [].
Proof.
  induction s as [|c s IH]; simpl; [done|].
  intros [Hc Hs]%andb_true_iff. rewrite Hc. auto.
Qed.

Lemma blank_app (s t : jsstring) : blank (s ++ t) = blank s && blank t.
Proof. apply forallb_app. Qed.

Lemma blank_reverse (s : jsstring) : blank (reverse s) = blank s.
Proof.
  induction s as [|c s IH]; [done|].
  rewrite reverse_cons, blank_app, IH. simpl. rewrite andb_true_r. apply andb_comm.
Qed.

Lemma trimStart_nil_blank (s : jsstring) : trimStart s = [] -> blank s = true.
Proof.
  intros Hs. destruct (trimStart_split s) as [ws [Heq Hws]].
  rewrite Hs, app_nil_r in Heq. by subst.
Qed.

(** [trim s] is a prefix of [trimStart s], up to trailing white space. *)
Lemma trim_prefix (s : jsstring) :
  exists ws, trimStart s = trim s ++ ws /\ blank ws = true.
Proof.
  unfold trim, trimEnd.
  destruct (trimStart_split (reverse (trimStart s))) as [ws [Heq Hws]].
  exists (reverse ws). split; [|by rewrite blank_reverse].
  rewrite <- reverse_app, <- Heq. by rewrite reverse_involutive.
Qed.

Lemma trim_nil_iff (s : jsstring) : trim s = [] <-> blank s = true.
Proof.
  split.
  - intros Ht. destruct (trim_prefix s) as [ws [Heq Hws]].
    rewrite Ht in Heq. simpl in Heq.
    destruct (trimStart_split s) as [ws' [Hs Hws']].
    rewrite Hs, blank_app, Hws', Heq, Hws. done.
  - intros Hb. unfold trim, trimEnd. by rewrite (trimStart_blank s Hb).
Qed.

Lemma trim_head (s : jsstring) c r :
  trim s = c :: r -> isStrWhiteSpaceChar c = false.
Proof.
  intros Ht. destruct (trim_prefix s) as [ws [Heq _]].
  rewrite Ht in Heq. simpl in Heq. by apply trimStart_head in Heq.
Qed.

Lemma trim_last (s : jsstring) c r :
  reverse (trim s) = c :: r -> isStrWhiteSpaceChar c = false.
Proof.
  unfold trim, trimEnd. rewrite reverse_involutive. apply trimStart_head.
Qed.

Lemma trim_idem (s : jsstring) : trim (trim s) = trim s.
Proof.
  destruct (trim s) as [|c r] eqn:Ht; [done|].
  pose proof (trim_head s c r Ht) as Hc.
  unfold trim at 1. unfold trimEnd. rewrite (trimStart_fixed c r Hc).
  destruct (reverse (c :: r)) as [|d q] eqn:Hr.
  - apply (f_equal reverse) in Hr. rewrite reverse_involutive in Hr. done.
  - assert (isStrWhiteSpaceChar d = false) as Hd.
    { apply (trim_last s d q). by rewrite Ht. }
    rewrite (trimStart_fixed d q Hd), <- Hr. apply reverse_involutive.
Qed.

Lemma trim_not_blank (s : jsstring) : trim s <> [] -> blank (trim s) = false.
Proof.
  intros Hne. destruct (blank (trim s)) eqn:Hb; [|done].
  apply trim_nil_iff in Hb. by rewrite trim_idem in Hb.
Qed.

Lemma isEmpty_blank (s : jsstring) : Utils.isEmpty (Some s) = blank s.
Proof.
  unfold Utils.isEmpty. destruct s as [|c s]; [done|].
  simpl negb at 1. rewrite orb_false_l.
  destruct (blank (c :: s)) eqn:Hb.
  - apply trim_nil_iff in Hb. by rewrite Hb.
  - destruct (trim (c :: s)) eqn:Ht; [|done].
    apply trim_nil_iff in Ht. congruence.
Qed.

Lemma split_not_nil sep (s : jsstring) : split sep s <> [].
Proof.
  induction s as [|c s IH]; simpl; [done|].
  destruct (c =? sep)%N; [done|]. by destruct (split sep s).
Qed.

Lemma join_split sep (s : jsstring) : join [sep] (split sep s) = s.
Proof.
  induction s as [|c s IH]; simpl; [done|].
  destruct (c =? sep)%N eqn:Hc.
  - apply N.eqb_eq in Hc. subst c.
    destruct (split sep s) eqn:Hs; [by apply split_not_nil in Hs|].
    simpl in *. by rewrite IH.
  - destruct (split sep s) as [|seg segs] eqn:Hs; [by apply split_not_nil in Hs|].
    destruct segs; simpl in *; by rewrite <- IH.
Qed.

Lemma split_Forall (P : N -> Prop) sep (s : jsstring) :
  Forall P s -> Forall (Forall P) (split sep s).
Proof.
  induction 1 as [|c s Hc Hs IH]; simpl; [by repeat constructor|].
  destruct (c =? sep)%N; [by constructor|].
  destruct (split sep s) as [|seg segs]; [by repeat constructor|].
  inversion IH; subst. constructor; [by constructor|done].
Qed.

Lemma blank_Forall (s : jsstring) :
  blank s = true <-> Forall (fun c => isStrWhiteSpaceChar c = true) s.
Proof.
  unfold blank. rewrite forallb_forall, Forall_forall.
  split; intros Hs c Hc; apply Hs; by apply list_elem_of_In.
Qed.

Lemma blank_join (sep : jsstring) (l : list jsstring) :
  blank sep = true -> Forall (fun s => blank s = true) l -> blank (join sep l) = true.
Proof.
  intros Hsep. induction 1 as [|s l Hs Hl IH]; [done|].
  destruct l as [|s' l]; [done|].
  change (join sep (s :: s' :: l)) with (s ++ sep ++ join sep (s' :: l)).
  rewrite !blank_app, Hs, Hsep, IH. done.
Qed.

Lemma omap_trim_filter (segs : list jsstring) :
  omap (fun seg => if blank seg then None else Some (trim seg)) segs
  = List.filter (fun line => (0 <? length line)%nat) (map (fun line => trim line) segs).
Proof.
  induction segs as [|seg segs IH]; [done|].
  simpl. destruct (blank seg) eqn:Hb.
  - apply trim_nil_iff in Hb. rewrite Hb. simpl. apply IH.
  - destruct (trim seg) as [|c r] eqn:Ht.
    + apply trim_nil_iff in Ht. congruence.
    + simpl. f_equal. apply IH.
Qed.

(** The guard of [parseLines] is redundant: it returns what the pipeline
    returns. *)
Lemma parseLines_pipeline (text : jsstring) :
  parseLines text
  = List.filter (fun line => (0 <? length line)%nat)
                (map (fun line => trim line) (split LF text)).
Proof.
  unfold parseLines. rewrite isEmpty_blank.
  destruct (blank text) eqn:Hb; [|done].
  rewrite <- omap_trim_filter.
  apply blank_Forall in Hb. apply (split_Forall _ LF) in Hb.
  induction Hb as [|seg segs Hseg _ IH]; [done|].
  simpl. apply blank_Forall in Hseg. by rewrite Hseg.
Qed.

Lemma parseLines_entries (text : jsstring) :
  Forall (fun line => line <> [] /\ blank line = false /\ trim line = line)
         (parseLines text).
Proof.
  rewrite parseLines_pipeline. apply Forall_forall. intros line Hin.
  apply list_elem_of_In, filter_In in Hin as [Hin Hlen].
  apply in_map_iff in Hin as [seg [<- _]].
  assert (trim seg <> []) as Hne by (by destruct (trim seg)).
  split; [done|]. split; [by apply trim_not_blank|apply trim_idem].
Qed.

Lemma parseLines_not_nil (text : jsstring) :
  Utils.isEmpty (Some text) = false -> parseLines text <> [].
Proof.
  rewrite isEmpty_blank, parseLines_pipeline, <- omap_trim_filter.
  intros Hb Hnil. enough (blank text = true) by congruence.
  rewrite <- (join_split LF text).
  apply blank_join; [done|].
  induction (split LF text) as [|seg segs IH]; [done|].
  simpl in Hnil. destruct (blank seg) eqn:Hseg; [|done].
  constructor; auto.
Qed.

(** C5. For every input string the Text Splitter ([parseLines]) returns the
    trimmed non-blank segments of the input in input order: it is the
    specification's pipeline, no entry is empty or white-space only, every
    entry is trimmed, the entries are a subsequence of the trimmed
    segments, and an empty or white-space-only input yields the empty list. *)
Theorem parseLines_text_splitter (text : jsstring) :
  parseLines text = text_splitter_spec text
  /\ Forall (fun line => line <> [] /\ blank line = false /\ trim line = line)
            (parseLines text)
  /\ sublist (parseLines text) (map trim (split LF text))
  /\ (forall seg, seg ∈ split LF text -> blank seg = false -> trim seg ∈ parseLines text)
  /\ parseLines [] = []
  /\ (blank text = true -> parseLines text = []).
Proof.
  split; [|split; [|split; [|split; [|split]]]].
  - rewrite parseLines_pipeline. apply filter_ext. by intros [|c seg].
  - apply parseLines_entries.
  - rewrite parseLines_pipeline.
    induction (map _ (split LF text)) as [|l ls IH]; simpl; [constructor|].
    destruct (0 <? length l)%nat; by constructor.
  - intros seg Hin Hb. rewrite parseLines_pipeline, <- omap_trim_filter.
    apply list_elem_of_omap. exists seg. by rewrite Hb.
  - done.
  - intros Hb. unfold parseLines. by rewrite isEmpty_blank, Hb.
Qed.

(** ** The loop of [skipEmptyLines] *)

Lemma skip_from_step (ls : list jsstring) (i : Z) :
  skip_from ls i
  = if (i <? Z.of_nat (length ls)) && Utils.isEmpty (line_at ls i)
    then skip_from ls (i + 1) else i.
Proof. funelim (skip_from ls i); by rewrite e. Qed.

Lemma skip_from_bounds (ls : list jsstring) (i : Z) :
  i <= skip_from ls i <= Z.max i (Z.of_nat (length ls)).
Proof.
  funelim (skip_from ls i); [|lia].
  pose proof (proj1 (andb_true_iff _ _) e) as [Hlt%Z.ltb_lt _]. lia.
Qed.

Lemma skip_from_end (ls : list jsstring) (i : Z) :
  Z.of_nat (length ls) <= i -> skip_from ls i = i.
Proof.
  intros Hi. rewrite skip_from_step.
  destruct (Z.ltb_spec i (Z.of_nat (length ls))); [lia|done].
Qed.

Lemma skip_from_line (ls : list jsstring) (i : Z) line :
  line_at ls i = Some line -> blank line = false -> skip_from ls i = i.
Proof.
  intros Hl Hb. rewrite skip_from_step, Hl, isEmpty_blank, Hb.
  by rewrite andb_false_r.
Qed.

Lemma line_at_nat (ls : list jsstring) (k : nat) :
  line_at ls (Z.of_nat k) = ls !! k.
Proof.
  unfold line_at. destruct (Z.ltb_spec (Z.of_nat k) 0); [lia|].
  by rewrite Nat2Z.id.
Qed.

Lemma line_at_Some (ls : list jsstring) (i : Z) line :
  line_at ls i = Some line -> 0 <= i < Z.of_nat (length ls).
Proof.
  unfold line_at. destruct (Z.ltb_spec i 0); [done|].
  intros Hl%lookup_lt_Some. lia.
Qed.

(** ** ClipboardManager.copy *)

Lemma copied_app (l1 l2 : list Event) : copied (l1 ++ l2) = copied l1 ++ copied l2.
Proof. apply omap_app. Qed.

Lemma copy_resolved (c : ClipEnv) text log :
  ClipboardManager.copy c text = (log, None) ->
  exists t, text = Some t /\ t <> [] /\ copied log = [t].
Proof.
  unfold ClipboardManager.copy.
  destruct text as [[|a t]|]; [done| |done].
  intros Hc. exists (a :: t). split; [done|]. split; [done|]. revert Hc.
  unfold ClipboardManager.copyWithClipboardJS, ClipboardManager.copyWithExecCommand.
  destruct (hasNativeSupport c), (writeText c (a :: t)); simpl;
    try (by intros [= <-]);
    destruct (ClipboardJS_defined c);
    try destruct (ClipboardJS_success c (a :: t));
    try destruct (execCommand_copy c (a :: t)) as [[]|];
    by intros [= <-].
Qed.

Lemma copy_rejected (c : ClipEnv) text log err :
  ClipboardManager.copy c text = (log, Some err) -> copied log = [].
Proof.
  unfold ClipboardManager.copy.
  destruct text as [[|a t]|]; [by intros [= <- _]| |by intros [= <- _]].
  unfold ClipboardManager.copyWithClipboardJS, ClipboardManager.copyWithExecCommand.
  destruct (hasNativeSupport c), (writeText c (a :: t)); simpl;
    try done;
    destruct (ClipboardJS_defined c);
    try destruct (ClipboardJS_success c (a :: t));
    try destruct (execCommand_copy c (a :: t)) as [[]|];
    by intros [= <- _].
Qed.

(** ** LineManager: one call of each handler *)

Section Handlers.
Context `{JSON}.

Lemma copied_updateStatus (st : App) : copied (updateStatus st) = [].
Proof. unfold updateStatus. by destruct (length (lines st) =? 0)%nat. Qed.

Lemma copied_handleCopyError err : copied (handleCopyError err) = [].
Proof. by destruct err as [| | |[]]. Qed.

Lemma skipEmptyLines_id (st : App) :
  skip_from (lines st) (index st) = index st -> skipEmptyLines st = st.
Proof. unfold skipEmptyLines. intros ->. by destruct st. Qed.

(** At the end of the list [copyNext] only shows the notice. *)
Lemma copyNext_exhausted (e : Env) (st : App) :
  len st <= index st ->
  copyNext e st = (st, [ShowInfo LIST_ENDED NO_MORE_LINES]).
Proof.
  intros Hi. unfold copyNext.
  rewrite skipEmptyLines_id by (by apply skip_from_end).
  destruct (Z.leb_spec (len st) (index st)); [done|lia].
Qed.

(** On a non-blank current line whose copy resolves, [copyNext] copies
    that line, advances the index by one and saves the session. *)
Lemma copyNext_advance (e : Env) (st : App) line log :
  line_at (lines st) (index st) = Some line ->
  blank line = false ->
  ClipboardManager.copy (clip e) (Some line) = (log, None) ->
  let st1 := set_index (index st + 1) st in
  let st2 := set_storage (saveSession e (lines st1) (index st1) (storage st1)) st1 in
  copyNext e st = (st2, log ++ [FlashElement genBtn] ++ updateStatus st2).
Proof.
  intros Hl Hb Hc. unfold copyNext.
  rewrite skipEmptyLines_id by (by eapply skip_from_line).
  apply line_at_Some in Hl as Hi. unfold len.
  destruct (Z.leb_spec (Z.of_nat (length (lines st))) (index st)); [lia|].
  by rewrite Hl, Hc.
Qed.

Lemma copyNext_advance_obs (e : Env) (st : App) line :
  line_at (lines st) (index st) = Some line ->
  blank line = false ->
  snd (ClipboardManager.copy (clip e) (Some line)) = None ->
  lines (fst (copyNext e st)) = lines st
  /\ index (fst (copyNext e st)) = index st + 1
  /\ copied (snd (copyNext e st)) = [line].
Proof.
  intros Hl Hb Hc.
  destruct (ClipboardManager.copy (clip e) (Some line)) as [log r] eqn:Hcopy.
  simpl in Hc. subst r.
  rewrite (copyNext_advance e st line log Hl Hb Hcopy). cbn [fst snd].
  split; [done|]. split; [done|].
  rewrite !copied_app, copied_updateStatus. simpl. rewrite app_nil_r.
  apply copy_resolved in Hcopy as [t [[= <-] [_ ->]]]. done.
Qed.

Lemma confirmInput_reset (input : jsstring) (e : Env) (st : App) :
  parseLines (trim input) <> [] ->
  lines (fst (confirmInput (Some input) e st)) = parseLines (trim input)
  /\ index (fst (confirmInput (Some input) e st)) = 0.
Proof.
  intros Hne. unfold confirmInput. simpl.
  destruct (negb (str_truthy (trim input)) || negb (str_truthy (trim (trim input)))) eqn:He.
  - exfalso. apply Hne. unfold parseLines. unfold Utils.isEmpty. by rewrite He.
  - simpl. destruct (length (parseLines (trim input)) =? 0)%nat eqn:Hlen; [|done].
    apply Nat.eqb_eq, nil_length_inv in Hlen. done.
Qed.

(** Successive calls on a list without blank entries, from position [k]. *)
Lemma copyNext_each_visits (es : list Env) :
  forall (st : App) (k : nat),
    index st = Z.of_nat k ->
    (k <= length (lines st))%nat ->
    Forall (fun line => blank line = false) (lines st) ->
    Forall2 (fun e line => snd (ClipboardManager.copy (clip e) (Some line)) = None)
            es (drop k (lines st)) ->
    map (fun r => copied (snd r)) (copyNext_each es st)
      = map (fun line => [line]) (drop k (lines st))
    /\ map (fun r => index (fst r)) (copyNext_each es st)
      = map Z.of_nat (seq (S k) (length (lines st) - k))
    /\ lines (run (CopyNext <$> es) st) = lines st
    /\ index (run (CopyNext <$> es) st) = len st.
Proof.
  induction es as [|e es IH]; intros st k Hk Hle Hnb Hall.
  - apply Forall2_length in Hall. rewrite length_drop in Hall. simpl in Hall.
    replace (length (lines st) - k)%nat with 0%nat by lia.
    rewrite drop_ge by lia. simpl.
    repeat split; try done. unfold len. lia.
  - destruct (drop k (lines st)) as [|line rest] eqn:Hd; [by inversion Hall|].
    apply Forall2_cons in Hall as [Hcopy Hall].
    assert (lines st !! k = Some line) as Hlk.
    { rewrite <- (Nat.add_0_r k), <- lookup_drop, Hd. done. }
    assert (drop (S k) (lines st) = rest) as Hrest.
    { rewrite (drop_S _ _ _ Hlk) in Hd. by injection Hd. }
    assert (blank line = false) as Hb.
    { rewrite Forall_forall in Hnb. apply Hnb. by eapply list_elem_of_lookup_2. }
    assert (line_at (lines st) (index st) = Some line) as Hl.
    { by rewrite Hk, line_at_nat. }
    destruct (copyNext_advance_obs e st line Hl Hb Hcopy) as [Hlines [Hidx Hcp]].
    apply lookup_lt_Some in Hlk as Hlt.
    destruct (IH (fst (copyNext e st)) (S k)) as [IH1 [IH2 [IH3 IH4]]].
    { rewrite Hidx, Hk. lia. }
    { rewrite Hlines. lia. }
    { by rewrite Hlines. }
    { by rewrite Hlines, Hrest. }
    rewrite Hlines, ?Hrest in *.
    replace (length (lines st) - k)%nat with (S (length (lines st) - S k)) by lia.
    cbn [copyNext_each map seq fmap list_fmap run foldl step].
    rewrite Hcp, Hidx, Hk.
    change (foldl _ (fst (copyNext e st)) (CopyNext <$> es))
      with (run (CopyNext <$> es) (fst (copyNext e st))).
    rewrite IH1, IH2, IH3, IH4. unfold len. rewrite Hlines.
    repeat split; try done. f_equal. lia.
Qed.

End Handlers.

(** C2. After [confirmInput] has reset the manager to the non-empty list
    [L] parsed from the input (index 0), [length L] calls of [copyNext]
    whose clipboard writes resolve copy the lines of [L] one per call in
    the original order, the index being 1, 2, ... after each call; the next
    call shows the list-ended notice and leaves the state unchanged. *)
Theorem reset_then_advance `{JSON} (input : jsstring) (e0 e_end : Env)
    (es : list Env) (st0 : App) :
  let L := parseLines (trim input) in
  let st := fst (confirmInput (Some input) e0 st0) in
  let calls := copyNext_each es st in
  let st_end := run (CopyNext <$> es) st in
  L <> [] ->
  Forall2 (fun e line => snd (ClipboardManager.copy (clip e) (Some line)) = None) es L ->
  lines st = L /\ index st = 0
  /\ length calls = length L
  /\ map (fun r => copied (snd r)) calls = map (fun line => [line]) L
  /\ map (fun r => index (fst r)) calls = map Z.of_nat (seq 1 (length L))
  /\ lines st_end = L /\ index st_end = Z.of_nat (length L)
  /\ copyNext e_end st_end = (st_end, [ShowInfo LIST_ENDED NO_MORE_LINES]).
Proof.
  intros L st calls st_end Hne Hall.
  destruct (confirmInput_reset input e0 st0 Hne) as [Hlines Hidx].
  fold st in Hlines, Hidx. fold L in Hlines.
  destruct (copyNext_each_visits es st 0) as [Hc [Hi [Hl He]]].
  - done.
  - lia.
  - rewrite Hlines. eapply Forall_impl; [apply parseLines_entries|].
    by intros line [_ [Hb _]].
  - by rewrite Hlines.
  - fold calls in Hc, Hi. fold st_end in Hl, He.
    rewrite Hlines in *. rewrite drop_0 in Hc. rewrite Nat.sub_0_r in Hi.
    unfold len in He. rewrite Hlines in He.
    split; [done|]. split; [done|]. split.
    { apply (f_equal length) in Hc. by rewrite !length_map in Hc. }
    split; [done|]. split; [done|]. split; [done|]. split; [done|].
    apply copyNext_exhausted. unfold len. rewrite Hl, He. lia.
Qed.

Section Scenario_reset_then_advance.
Import RefJSON.

(** The scenario of the specification: the input parses to [a], [b], [c];
  three calls copy them in order and the fourth shows the notice. *)
Lemma reset_then_advance_witness :
let st := fst (confirmInput (Some scenario_input) browser fresh) in
let st_end := run (CopyNext <$> [browser; browser; browser]) st in
lines st = [js "a"; js "b"; js "c"] /\ index st = 0
/\ length (copyNext_each [browser; browser; browser] st) = 3%nat
/\ map (fun r => copied (snd r)) (copyNext_each [browser; browser; browser] st)
   = [[js "a"]; [js "b"]; [js "c"]]
/\ map (fun r => index (fst r)) (copyNext_each [browser; browser; browser] st)
   = [1; 2; 3]
/\ lines st_end = [js "a"; js "b"; js "c"] /\ index st_end = 3
/\ copyNext browser st_end = (st_end, [ShowInfo LIST_ENDED NO_MORE_LINES]).
Proof.
apply (reset_then_advance (H := RefJSON.codec) scenario_input browser browser
         [browser; browser; browser] fresh).
- vm_compute. discriminate.
- vm_compute. repeat constructor.
Defined.

End Scenario_reset_then_advance.

(** ** The clipboard strategies *)

Lemma tried_app (l1 l2 : list Event) : tried (l1 ++ l2) = tried l1 ++ tried l2.
Proof. apply omap_app. Qed.

(** Trying a list of mechanisms in order stops at the first one that
    succeeds, and fails only when all of them fail. *)
Lemma try_in_order_outcome (ms : list (Mechanism * (jsstring -> bool))) (text : jsstring) :
  match try_in_order ms text with
  | (log, true) =>
      exists pre m post,
        ms = pre ++ m :: post
        /\ Forall (fun m' => snd m' text = false) pre
        /\ snd m text = true
        /\ tried log = map fst pre ++ [fst m]
        /\ copied log = [text]
  | (log, false) =>
      Forall (fun m => snd m text = false) ms
      /\ tried log = map fst ms
      /\ copied log = []
  end.
Proof.
  induction ms as [|[m attempt] ms IH]; simpl; [done|].
  destruct (attempt text) eqn:Ha.
  - by exists [], (m, attempt), ms.
  - destruct (try_in_order ms text) as [log [|]].
    + destruct IH as (pre & m' & post & -> & Hpre & Hm & Ht & Hc).
      exists ((m, attempt) :: pre), m', post. simpl.
      repeat split; try done; [by constructor|by f_equal].
    + destruct IH as (Hall & Ht & Hc). simpl.
      repeat split; try done; [by constructor|by f_equal].
Qed.

(** C9. [copy] rejects an empty (or missing) text with the no-text error
    without trying anything; on a non-empty text it performs exactly the
    attempts of trying the strategies in order (the native write when it is
    supported, then the library fallback or, when the library is absent,
    the copy command), resolves exactly when one of them succeeds, the
    later ones being left untried, and otherwise rejects with the failure
    of the fallback, all of them having failed. *)
Theorem copy_tries_strategies_in_order (c : ClipEnv) (a : N) (t : jsstring) :
  let text := a :: t in
  let r := ClipboardManager.copy c (Some text) in
  ClipboardManager.copy c None = ([], Some NoTextToCopy)
  /\ ClipboardManager.copy c (Some []) = ([], Some NoTextToCopy)
  /\ fst r = fst (try_in_order (strategies c) text)
  /\ (snd r = None <-> snd (try_in_order (strategies c) text) = true)
  /\ (snd r = None <-> Exists (fun m => snd m text = true) (strategies c))
  /\ (snd r = None ->
      exists pre m post,
        strategies c = pre ++ m :: post
        /\ Forall (fun m' => snd m' text = false) pre
        /\ tried (fst r) = map fst pre ++ [fst m]
        /\ copied (fst r) = [text])
  /\ (snd r <> None ->
      is_unavailable (snd r) = true
      /\ Forall (fun m => snd m text = false) (strategies c)
      /\ tried (fst r) = map fst (strategies c)
      /\ copied (fst r) = []).
Proof.
  intros text r.
  assert (fst r = fst (try_in_order (strategies c) text)
          /\ (snd r = None <-> snd (try_in_order (strategies c) text) = true)
          /\ (snd r <> None -> is_unavailable (snd r) = true)) as (Hlog & Hok & Herr).
  { subst r. unfold ClipboardManager.copy, strategies, text,
      ClipboardManager.copyWithClipboardJS, ClipboardManager.copyWithExecCommand,
      execCommand_ok.
    destruct (hasNativeSupport c), (writeText c (a :: t)) eqn:Hw,
      (ClipboardJS_defined c); simpl; rewrite ?Hw;
      try destruct (ClipboardJS_success c (a :: t));
      try destruct (execCommand_copy c (a :: t)) as [[]|];
      simpl; repeat split; try done. }
  pose proof (try_in_order_outcome (strategies c) text) as Hout.
  destruct (try_in_order (strategies c) text) as [log ok]. simpl in Hlog, Hok.
  split; [done|]. split; [done|]. split; [done|]. split; [done|].
  destruct ok.
  - destruct Hout as (pre & m & post & Hs & Hpre & Hm & Ht & Hc).
    split; [|split].
    + split; [|by intros; apply Hok].
      intros _. rewrite Hs. apply Exists_app. right. by constructor.
    + intros _. exists pre, m, post. by rewrite Hlog.
    + intros Hne. exfalso. apply Hne. by apply Hok.
  - destruct Hout as (Hall & Ht & Hc).
    assert (snd r <> None) as Hne.
    { intros Hn. apply Hok in Hn. done. }
    split; [|split].
    + split; [done|]. intros Hex. exfalso.
      apply Exists_exists in Hex as (m & Hin & Hm).
      rewrite Forall_forall in Hall. specialize (Hall m Hin). congruence.
    + done.
    + intros _. rewrite Hlog. auto.
Qed.

(** The attempts of [copy] all carry the text it was given. *)
Lemma copy_log_text (c : ClipEnv) (text : jsstring) ev :
  ev ∈ fst (ClipboardManager.copy c (Some text)) ->
  exists m ok, ev = ClipboardTry m text ok.
Proof.
  unfold ClipboardManager.copy, ClipboardManager.copyWithClipboardJS,
    ClipboardManager.copyWithExecCommand.
  destruct text as [|a t]; [by intros ?%elem_of_nil|].
  destruct (hasNativeSupport c), (writeText c (a :: t)),
    (ClipboardJS_defined c); simpl;
    try destruct (ClipboardJS_success c (a :: t));
    try destruct (execCommand_copy c (a :: t)) as [[]|];
    simpl; intros Hin%list_elem_of_In; simpl in Hin;
    repeat (destruct Hin as [<-|Hin]; [by eauto|]); done.
Qed.

(** ** copyAll *)

(** C10. On a non-empty line list [copyAll] hands the newline-join of all
    lines to the clipboard and changes nothing else: the state after the
    call (lines, index and the whole storage, hence the persisted session
    record) is the state before it, whether the copy resolves (the join is
    what reaches the clipboard, and success is shown) or rejects (nothing
    reaches the clipboard and only an error is shown). *)
Theorem copyAll_leaves_session `{JSON} (e : Env) (st : App) :
  let allText := join [LF] (lines st) in
  let outcome := snd (ClipboardManager.copy (clip e) (Some allText)) in
  lines st <> [] ->
  fst (copyAll e st) = st
  /\ (forall m text ok, ClipboardTry m text ok ∈ snd (copyAll e st) -> text = allText)
  /\ (outcome = None ->
      copied (snd (copyAll e st)) = [allText]
      /\ ShowSuccess SUCCESS COPY_ALL_SUCCESS ∈ snd (copyAll e st))
  /\ (outcome <> None ->
      copied (snd (copyAll e st)) = []
      /\ exists msg, last (snd (copyAll e st)) = Some (ShowError msg)).
Proof.
  intros allText outcome Hne. unfold copyAll.
  destruct (length (lines st) =? 0)%nat eqn:Hlen.
  { apply Nat.eqb_eq, nil_length_inv in Hlen. done. }
  fold allText. subst outcome.
  pose proof (copy_log_text (clip e) allText) as Htext.
  destruct (ClipboardManager.copy (clip e) (Some allText)) as [log [err|]] eqn:Hc;
    cbn [fst snd] in *.
  - split; [done|]. split; [|split; [done|]].
    + intros m text ok [Hin|Hin]%elem_of_app.
      * apply Htext in Hin as (m' & ok' & [= _ -> _]). done.
      * apply list_elem_of_In in Hin.
        by destruct err as [| | |[]]; simpl in Hin; destruct Hin as [?|[]].
    + intros _. rewrite copied_app, (copy_rejected _ _ _ _ Hc), copied_handleCopyError.
      split; [done|].
      destruct err as [| | |[]]; simpl; rewrite last_snoc; eauto.
  - split; [done|]. split; [|split; [|done]].
    + intros m text ok [Hin|Hin]%elem_of_app.
      * apply Htext in Hin as (m' & ok' & [= _ -> _]). done.
      * apply list_elem_of_In in Hin. simpl in Hin.
        by destruct Hin as [?|[?|[]]].
    + intros _. rewrite copied_app. simpl. rewrite app_nil_r.
      apply copy_resolved in Hc as (t & [= <-] & _ & ->).
      split; [done|]. apply elem_of_app. right. apply list_elem_of_In. simpl. auto.
Qed.

Section Scenario_copyAll.
Import RefJSON.

(** Copying all three lines of the scenario after two of them were copied:
    the state, with its saved record, is unchanged. *)
Lemma copyAll_leaves_session_witness :
  let st := run [ConfirmInput (Some scenario_input) browser; CopyNext browser; CopyNext browser] fresh in
  fst (copyAll browser st) = st
  /\ copied (snd (copyAll browser st)) = [js "a" ++ [LF] ++ js "b" ++ [LF] ++ js "c"].
Proof.
  intros st.
  destruct (copyAll_leaves_session (H := RefJSON.codec) browser st) as (Hst & _ & Hok & _).
  - vm_compute. discriminate.
  - split; [exact Hst|]. apply Hok. vm_compute. reflexivity.
Defined.

End Scenario_copyAll.

(** ** copyPrev *)

(** C4. [copyPrev] shows the no-previous notice and leaves the state
    unchanged when the index is at most 0; otherwise it sets the index to
    max(0, index - 2), saves, and goes on with [copyNext] from there, so
    that the line at that position is copied again and the index ends one
    above it: from index 2 it retreats to 0 and copies the first line. *)
Theorem copyPrev_retreats `{JSON} (e1 e2 : Env) (st : App) :
  (index st <= 0 ->
   copyPrev_retreat e1 st = None
   /\ copyPrev e1 e2 st = (st, [ShowInfo NO_PREVIOUS NO_PREVIOUS_LINE]))
  /\ (0 < index st ->
      exists st1,
        copyPrev_retreat e1 st = Some st1
        /\ lines st1 = lines st
        /\ index st1 = Z.max 0 (index st - 2)
        /\ storage st1 = saveSession e1 (lines st) (Z.max 0 (index st - 2)) (storage st)
        /\ copyPrev e1 e2 st = copyNext e2 st1
        /\ (forall line,
              line_at (lines st) (Z.max 0 (index st - 2)) = Some line ->
              blank line = false ->
              snd (ClipboardManager.copy (clip e2) (Some line)) = None ->
              copied (snd (copyPrev e1 e2 st)) = [line]
              /\ lines (fst (copyPrev e1 e2 st)) = lines st
              /\ index (fst (copyPrev e1 e2 st)) = Z.max 0 (index st - 2) + 1))
  /\ (index st = 2 ->
      forall st1, copyPrev_retreat e1 st = Some st1 -> index st1 = 0).
Proof.
  unfold copyPrev, copyPrev_retreat.
  destruct (Z.leb_spec (index st) 0) as [Hle|Hlt].
  - split; [done|]. split; [lia|]. intros; lia.
  - split; [lia|]. split.
    + intros _. eexists. split; [done|]. cbn [lines index storage set_index set_storage].
      do 4 (split; [done|]).
      intros line Hl Hb Hc.
      match goal with |- context [copyNext e2 ?s] => set (st1 := s) end.
      destruct (copyNext_advance_obs e2 st1 line) as (Hlines & Hidx & Hcp); done.
    + intros Hi st1 [= <-]. simpl. lia.
Qed.

Section Scenario_copyPrev.
Import RefJSON.

(** After the first two lines of the scenario were copied (index 2),
    [copyPrev] copies the first line again and leaves the index at 1. *)
Lemma copyPrev_retreats_witness :
  let st := run [ConfirmInput (Some scenario_input) browser; CopyNext browser; CopyNext browser] fresh in
  index st = 2
  /\ (index <$> copyPrev_retreat browser st) = Some 0
  /\ copied (snd (copyPrev browser browser st)) = [js "a"]
  /\ index (fst (copyPrev browser browser st)) = 1.
Proof.
  intros st.
  destruct (copyPrev_retreats (H := RefJSON.codec) browser browser st) as (_ & Hpos & _).
  destruct Hpos as (st1 & Hr & _ & Hi & _ & _ & Hcopy).
  - vm_compute. reflexivity.
  - destruct (Hcopy (js "a")) as (Hc & _ & Hidx).
    + vm_compute. reflexivity.
    + vm_compute. reflexivity.
    + vm_compute. reflexivity.
    + split; [vm_compute; reflexivity|]. split; [by rewrite Hr; simpl; rewrite Hi|].
      split; [exact Hc|exact Hidx].
Defined.

End Scenario_copyPrev.

(** ** copyByNumber *)

Lemma isValidLineNumber_spec `{JSON} (st : App) (lineNum : option Z) :
  isValidLineNumber st lineNum = true <-> exists n, lineNum = Some n /\ 1 <= n <= len st.
Proof.
  unfold isValidLineNumber. destruct lineNum as [n|].
  - rewrite andb_true_iff, Z.leb_le, Z.leb_le. split.
    + intros Hn. by exists n.
    + by intros (n' & [= <-] & Hn).
  - split; [done|]. by intros (n & Hn & _).
Qed.


Section Scenario_copyByNumber.
Import RefJSON.



End Scenario_copyByNumber.

(** ** StorageManager *)

Lemma get_sessionData_lines (L : list jsstring) (i t : Z) :
  get (sessionData L i t) (js "lines") = Some (VArr (map VStr L)).
Proof.
  unfold get, sessionData, assoc. by destruct (decide (js "lines" = js "lines")).
Qed.

Lemma get_sessionData_index (L : list jsstring) (i t : Z) :
  get (sessionData L i t) (js "index") = Some (VNum i).
Proof.
  unfold get, sessionData, assoc.
  destruct (decide (js "index" = js "lines")) as [Heq|_]; [discriminate Heq|].
  by destruct (decide (js "index" = js "index")).
Qed.

Lemma js_or_index (i : Z) : js_or (VNum i) (VNum 0) = VNum i.
Proof.
  unfold js_or, truthy. destruct (Z.eqb_spec i 0) as [->|]; done.
Qed.

(** The body of [loadSession] throws only when [getItem] does. *)
Lemma loadSession_try_throws `{JSON} (e : Env) (ls : gmap string jsstring) :
  loadSession_try e ls = None <-> getItem_ok e = false.
Proof.
  unfold loadSession_try. destruct (getItem_ok e); simpl; [|done].
  split; [|done]. intros Hthrow. exfalso. revert Hthrow.
  destruct (ls !! CONFIG.LINES) as [[|c str]|]; try discriminate.
  destruct (safeJSONParse (c :: str) VNull) as [| |b|n|s| |props]; simpl;
    try discriminate.
  - by destruct b.
  - by destruct (negb (n =? 0)).
  - by destruct (str_truthy s).
  - by destruct (truthy (default VUndefined (assoc (js "lines") props))).
Qed.

(** C7. When the write succeeds, the payload is read back as it was
    written and is decoded to the record that was encoded (the empty text
    not being JSON), [loadSession] after [saveSession L i] returns the
    lines [L] and the index [i]. *)
Theorem saveSession_loadSession `{JSON} (L : list jsstring) (i : Z) (e e' : Env)
    (ls : gmap string jsstring) :
  setItem e = Stored ->
  getItem_ok e' = true ->
  JSON_parse [] = None ->
  JSON_parse (JSON_stringify (sessionData L i (now e))) = Some (sessionData L i (now e)) ->
  loadSession e' (saveSession e L i ls)
  = {| s_lines := VArr (map VStr L); s_index := VNum i |}.
Proof.
  intros Hset Hget Hempty Hround.
  unfold loadSession, loadSession_try, saveSession. rewrite Hset, Hget. simpl.
  rewrite lookup_insert_eq.
  destruct (JSON_stringify (sessionData L i (now e))) as [|c payload] eqn:Hs;
    [congruence|].
  unfold safeJSONParse. rewrite Hround.
  change (truthy (sessionData L i (now e))) with true. cbn match.
  rewrite get_sessionData_lines. cbn [mbind option_bind truthy].
  rewrite get_sessionData_index. cbn [mbind option_bind]. by rewrite js_or_index.
Qed.

Section Scenario_saveSession.
Import RefJSON.

(** The three lines of the scenario saved at index 0 over an older record
    and loaded again. *)
Lemma saveSession_loadSession_witness :
  loadSession browser
    (saveSession browser [js "a"; js "b"; js "c"] 0 {[ CONFIG.LINES := js "stale" ]})
  = {| s_lines := VArr [VStr (js "a"); VStr (js "b"); VStr (js "c")]; s_index := VNum 0 |}.
Proof.
  apply (saveSession_loadSession (H := RefJSON.codec)
           [js "a"; js "b"; js "c"] 0 browser browser).
  - reflexivity.
  - reflexivity.
  - reflexivity.
  - vm_compute. reflexivity.
Defined.

End Scenario_saveSession.

(** C8. Whatever the session key holds, [loadSession] returns a session
    and does not throw (its body throws only if [getItem] does, and that is
    caught): the result is the empty one (lines [null], index 0) when the
    key is absent, when its content is not JSON, and when it is JSON
    without a [lines] field; in every case it is the empty one or has a
    truthy [lines]. *)
Theorem loadSession_tolerant `{JSON} (e : Env) (ls : gmap string jsstring) :
  (loadSession_try e ls = None <-> getItem_ok e = false)
  /\ (getItem_ok e = false -> loadSession e ls = empty_session)
  /\ (ls !! CONFIG.LINES = None -> loadSession e ls = empty_session)
  /\ (forall str, ls !! CONFIG.LINES = Some str -> JSON_parse str = None ->
       loadSession e ls = empty_session)
  /\ (forall str v, ls !! CONFIG.LINES = Some str -> JSON_parse str = Some v ->
       has_lines v = false -> loadSession e ls = empty_session)
  /\ (loadSession e ls = empty_session
      \/ truthy (s_lines (loadSession e ls)) = true).
Proof.
  split; [apply loadSession_try_throws|].
  unfold loadSession, loadSession_try.
  destruct (getItem_ok e); simpl; [|by repeat split; auto].
  split; [done|]. split; [by intros ->|].
  split; [|split].
  - intros str -> Hp. destruct str; [done|]. unfold safeJSONParse. by rewrite Hp.
  - intros str v -> Hp Hl. destruct str; [done|]. unfold safeJSONParse. rewrite Hp.
    destruct v as [| |b|z|s| |props]; simpl; try done.
    + by destruct b.
    + by destruct (negb (z =? 0)).
    + by destruct (str_truthy s).
    + simpl in Hl. destruct (assoc (js "lines") props) as [x|] eqn:Ha; [|done].
      exfalso. apply bool_decide_eq_false in Hl. apply Hl. by exists x.
  - destruct (ls !! CONFIG.LINES) as [[|c str]|]; [by left| |by left].
    destruct (safeJSONParse (c :: str) VNull) as [| |b|n|s| |props]; simpl;
      try (by left).
    + by destruct b; left.
    + by destruct (negb (n =? 0)); left.
    + by destruct (str_truthy s); left.
    + destruct (truthy (default VUndefined (assoc (js "lines") props))) eqn:Ht;
        [by right|by left].
Qed.

(** ** The cursor stays in range *)

Section Invariant.
Context `{JSON}.

Lemma index_in_range_storage (ls : gmap string jsstring) (st : App) :
  index_in_range st -> index_in_range (set_storage ls st).
Proof. done. Qed.

Lemma skipEmptyLines_in_range (st : App) :
  index_in_range st -> index_in_range (skipEmptyLines st).
Proof.
  unfold index_in_range, skipEmptyLines, len. simpl. intros Hi.
  pose proof (skip_from_bounds (lines st) (index st)). lia.
Qed.

Lemma copyNext_in_range (e : Env) (st : App) :
  index_in_range st -> index_in_range (fst (copyNext e st)).
Proof.
  intros Hi%skipEmptyLines_in_range. unfold copyNext.
  destruct (Z.leb_spec (len (skipEmptyLines st)) (index (skipEmptyLines st)));
    [done|].
  destruct (ClipboardManager.copy _ _) as [log [err|]]; [done|].
  unfold index_in_range, len in *. simpl in *. lia.
Qed.

Lemma confirmInput_in_range (input : option jsstring) (e : Env) (st : App) :
  index_in_range st -> index_in_range (fst (confirmInput input e st)).
Proof.
  intros Hi. unfold confirmInput.
  destruct (Utils.isEmpty (trim <$> input)) eqn:He; [done|].
  destruct input as [input|]; [|done]. simpl in He |- *.
  destruct (length (parseLines (trim input)) =? 0)%nat eqn:Hlen.
  - apply Nat.eqb_eq, nil_length_inv in Hlen.
    by apply parseLines_not_nil in He.
  - unfold index_in_range, len. simpl. lia.
Qed.

Lemma copyPrev_in_range (e1 e2 : Env) (st : App) :
  index_in_range st -> index_in_range (fst (copyPrev e1 e2 st)).
Proof.
  intros Hi. unfold copyPrev, copyPrev_retreat.
  destruct (Z.leb_spec (index st) 0); [done|].
  apply copyNext_in_range. unfold index_in_range, len in *. simpl. lia.
Qed.

Lemma copyByNumber_in_range (prompt : PromptResult) (e1 e2 : Env) (st : App) :
  index_in_range st -> index_in_range (fst (copyByNumber prompt e1 e2 st)).
Proof.
  intros Hi. unfold copyByNumber.
  destruct (length (lines st) =? 0)%nat; [done|].
  destruct prompt as [isConfirmed value|]; [|done].
  destruct (negb isConfirmed || negb (from_option str_truthy false value)); [done|].
  destruct (isValidLineNumber st (parseInt (default [] value))) eqn:Hv; [|done].
  apply isValidLineNumber_spec in Hv as (n & -> & Hn).
  cbn [negb default from_option Datatypes.id].
  match goal with |- context [copyNext e2 ?s] =>
    pose proof (copyNext_in_range e2 s) as Hnext; destruct (copyNext e2 s) end.
  apply Hnext. unfold index_in_range, len in *. simpl. lia.
Qed.

Lemma copyAll_in_range (e : Env) (st : App) :
  index_in_range st -> index_in_range (fst (copyAll e st)).
Proof.
  intros Hi. unfold copyAll.
  destruct (length (lines st) =? 0)%nat; [done|].
  by destruct (ClipboardManager.copy _ _) as [log [err|]].
Qed.

Lemma step_in_range (a : Action) (st : App) :
  index_in_range st -> index_in_range (fst (step a st)).
Proof.
  destruct a; simpl.
  - apply confirmInput_in_range.
  - apply copyNext_in_range.
  - apply copyPrev_in_range.
  - apply copyByNumber_in_range.
  - apply copyAll_in_range.
  - done.
  - apply skipEmptyLines_in_range.
Qed.

(** Every handler keeps the cursor in range, so a run that starts in range
    stays in range. *)
Lemma run_in_range (acts : list Action) (st : App) :
  index_in_range st -> index_in_range (run acts st).
Proof.
  revert st. induction acts as [|a acts IH]; intros st Hi; [done|].
  apply IH, step_in_range, Hi.
Qed.

Lemma as_strings_length (elems : list value) (ls : list jsstring) :
  as_strings elems = Some ls -> length ls = length elems.
Proof.
  unfold as_strings. intros Hm. symmetry.
  apply length_mapM in Hm. done.
Qed.

(** [loadSessionDirect] adopts the stored index as it is: the restored
    state is in range exactly when the stored session is. *)
Lemma loadSessionDirect_in_range (e : Env) (st st' : App) (log : list Event) :
  loadSessionDirect e st = Some (st', log) ->
  index_in_range st ->
  session_in_range (loadSession e (storage st)) ->
  index_in_range st'.
Proof.
  unfold loadSessionDirect, session_in_range. intros Hload Hi Hs.
  destruct (s_lines (loadSession e (storage st))) as [| |b|n|[|c s]|elems|props];
    try (by injection Hload as <- _); try done.
  2: { by destruct (assoc (js "length") props); [|injection Hload as <- _]. }
  destruct (0 <? length elems)%nat; [|by injection Hload as <- _].
  destruct (as_strings elems) as [ls|] eqn:Hls; [|done]. simpl in Hload.
  destruct (js_or _ _) as [| | |i| | |]; try done.
  injection Hload as <- _. apply as_strings_length in Hls.
  unfold index_in_range, len. simpl. lia.
Qed.

(** From a storage whose session record is in range (or absent, or not a
    session record), every state the handlers reach has its cursor in
    range. *)
Lemma reachable_in_range (e : Env) (ls : gmap string jsstring) (st0 : App)
    (log : list Event) (acts : list Action) :
  init e ls = Some (st0, log) ->
  session_in_range (loadSession e ls) ->
  index_in_range (run acts st0).
Proof.
  intros Hinit Hs. apply run_in_range.
  eapply loadSessionDirect_in_range; [exact Hinit| |exact Hs].
  unfold index_in_range, len. simpl. lia.
Qed.

End Invariant.

Section Scenario_tampered.
Import RefJSON.

(** C1. Restoring a session does not keep the cursor in range: started on
    a storage that holds one line and the index 5, [init] leaves the
    application with one line and index 5, outside 0 <= index <= length,
    although every handler keeps a cursor in range ([run_in_range]); from
    there [copyNext] only shows the list-ended notice. *)
Theorem restore_out_of_range :
  init browser tampered_storage
  = Some ({| lines := [js "a"]; index := 5; storage := tampered_storage |},
          [SetInputText (js "a"); ShowButtons; SetProgress (Some 500); SetStatus 5 1])
  /\ ~ index_in_range {| lines := [js "a"]; index := 5; storage := tampered_storage |}
  /\ copyNext browser {| lines := [js "a"]; index := 5; storage := tampered_storage |}
     = ({| lines := [js "a"]; index := 5; storage := tampered_storage |},
        [ShowInfo LIST_ENDED NO_MORE_LINES]).
Proof.
  split; [vm_compute; reflexivity|]. split.
  - unfold index_in_range, len. simpl. lia.
  - apply copyNext_exhausted. unfold len. simpl. lia.
Qed.

End Scenario_tampered.

(** ** The arithmetic of the status line

    [updateStatus] divides and multiplies in double precision and rounds
    with [Math.round].  The lemmas below follow the executable
    specification of the operations: a shift record locates the exact
    value, rounding to nearest moves it by at most half a unit in the last
    place, so division and multiplication of normal numbers are correct to
    a relative error of 2^-53. *)

Section Rounding.
Import Number.

Lemma digits2_pos_bounds (m : positive) :
  2 ^ (Z.pos (digits2_pos m) - 1) <= Z.pos m < 2 ^ Z.pos (digits2_pos m).
Proof.
  induction m as [m IH|m IH|]; simpl; [| |lia].
  all: rewrite Pos2Z.inj_succ, Z.pow_succ_r by lia.
  all: replace (Z.succ (Z.pos (digits2_pos m)) - 1) with (Z.succ (Z.pos (digits2_pos m) - 1)) by lia.
  all: rewrite Z.pow_succ_r by lia; lia.
Qed.

Lemma Zdigits2_unique (m d : Z) :
  0 < m -> 2 ^ (d - 1) <= m < 2 ^ d -> Zdigits2 m = d.
Proof.
  intros Hm [Hlo Hhi]. destruct m as [|p|p]; try lia. simpl.
  pose proof (digits2_pos_bounds p) as [Hl Hh].
  destruct (Z.lt_trichotomy (Z.pos (digits2_pos p)) d) as [Hlt|[Heq|Hgt]]; [|done|].
  - assert (2 ^ Z.pos (digits2_pos p) <= 2 ^ (d - 1)) by (apply Z.pow_le_mono_r; lia). lia.
  - assert (0 <= d).
    { destruct (Z.lt_ge_cases d 0) as [Hneg|]; [|done].
      rewrite (Z.pow_neg_r 2 d) in Hhi by done. lia. }
    assert (2 ^ d <= 2 ^ (Z.pos (digits2_pos p) - 1)) by (apply Z.pow_le_mono_r; lia). lia.
Qed.

Lemma iter_pos_invariant {A : Type} (f : A -> A) (P : Z -> A -> Prop) :
  (forall k x, P k x -> P (k + 1) (f x)) ->
  forall p k x, P k x -> P (k + Z.pos p) (SpecFloat.iter_pos f p x).
Proof.
  intros Hstep. induction p as [p IH|p IH|]; intros k x Hx; simpl.
  - replace (k + Z.pos p~1) with (k + 1 + Z.pos p + Z.pos p) by lia. auto.
  - replace (k + Z.pos p~0) with (k + Z.pos p + Z.pos p) by lia. auto.
  - auto.
Qed.

Lemma bpow_pos (e : Z) : (0 < bpow e)%R.
Proof. apply powerRZ_lt. lra. Qed.

Lemma bpow_add (a b : Z) : bpow (a + b) = (bpow a * bpow b)%R.
Proof. apply powerRZ_add. lra. Qed.

Lemma bpow_succ (a : Z) : bpow (a + 1) = (2 * bpow a)%R.
Proof. rewrite bpow_add. unfold bpow at 2. simpl. lra. Qed.

Lemma bpow_IZR (k : Z) : 0 <= k -> bpow k = IZR (2 ^ k).
Proof.
  intros Hk. unfold bpow. rewrite <- (Z2Nat.id k Hk) at 1 2.
  rewrite <- pow_powerRZ, pow_IZR. done.
Qed.

Lemma shr_1_located (mrs : shr_record) (x : R) :
  0 <= shr_m mrs -> located mrs x ->
  0 <= shr_m (shr_1 mrs) /\ located (shr_1 mrs) (x / 2).
Proof.
  destruct mrs as [m r s]. unfold located. cbn [shr_m shr_r shr_s]. intros Hm.
  destruct m as [|[p|p|]|p]; [| | | |exfalso; lia].
  all: destruct r, s; cbn [shr_1 shr_m shr_r shr_s orb].
  all: try rewrite (IZR_POS_xI p); try rewrite (IZR_POS_xO p).
  all: intros Hx; split; [lia|lra].
Qed.

Lemma shr_located (mrs : shr_record) (x : R) (p : positive) :
  0 <= shr_m mrs -> located mrs x ->
  0 <= shr_m (SpecFloat.iter_pos shr_1 p mrs)
  /\ located (SpecFloat.iter_pos shr_1 p mrs) (x / bpow (Z.pos p)).
Proof.
  intros Hm Hx.
  apply (iter_pos_invariant shr_1
           (fun k mrs => 0 <= shr_m mrs /\ located mrs (x / bpow k)) ) with (k := 0) (p := p).
  - intros k y [Hy Hl]. destruct (shr_1_located y _ Hy Hl) as [H1 H2].
    split; [done|]. rewrite bpow_succ.
    replace (x / (2 * bpow k))%R with (x / bpow k / 2)%R; [done|].
    pose proof (bpow_pos k). field. lra.
  - split; [done|]. unfold bpow. simpl. by rewrite Rdiv_1_r.
Qed.

Lemma located_floor (mrs : shr_record) (x : R) :
  located mrs x -> (IZR (shr_m mrs) <= x < IZR (shr_m mrs) + 1)%R.
Proof. destruct mrs as [m [] []]; unfold located; simpl; lra. Qed.

Lemma round_nearest_even_located (mrs : shr_record) (x : R) :
  located mrs x ->
  let m1 := round_nearest_even (shr_m mrs) (loc_of_shr_record mrs) in
  (Rabs (IZR m1 - x) <= / 2)%R /\ shr_m mrs <= m1 <= shr_m mrs + 1.
Proof.
  destruct mrs as [m [] []]; unfold located; simpl; intros Hx.
  - rewrite plus_IZR. split; [|lia]. apply Rabs_le. lra.
  - destruct (Z.even m); rewrite ?plus_IZR; (split; [|lia]); apply Rabs_le; lra.
  - split; [|lia]. apply Rabs_le. lra.
  - split; [|lia]. apply Rabs_le. lra.
Qed.


Lemma fexp_normal (e : Z) : -1021 <= e -> fexp prec emax e = e - 53.
Proof. unfold fexp, emin, prec, emax. lia. Qed.

Lemma located_of_loc_m (m : Z) (l : location) : shr_m (shr_record_of_loc m l) = m.
Proof. by destruct l as [|[]]. Qed.

(** A mantissa of 53 or 54 bits that came out of a rounding is brought
    back to 53 bits without loss. *)
Lemma shr_fexp_canonical (m1 e1 : Z) :
  2 ^ 52 <= m1 <= 2 ^ 53 -> -1074 <= e1 ->
  exists m2 e2,
    shr_fexp prec emax m1 e1 loc_Exact
    = ({| shr_m := m2; shr_r := false; shr_s := false |}, e2)
    /\ 2 ^ 52 <= m2 < 2 ^ 53 /\ e1 <= e2 <= e1 + 1
    /\ (IZR m2 * bpow e2 = IZR m1 * bpow e1)%R.
Proof.
  intros Hm He. unfold shr_fexp.
  destruct (Z.eq_dec m1 (2 ^ 53)) as [->|Hne].
  - change (Zdigits2 (2 ^ 53)) with 54.
    rewrite fexp_normal by lia. replace (54 + e1 - 53 - e1) with 1 by lia.
    exists (2 ^ 52), (e1 + 1). split; [reflexivity|]. split; [lia|]. split; [lia|].
    rewrite bpow_succ. change (2 ^ 53) with (2 * 2 ^ 52). rewrite mult_IZR. lra.
  - rewrite (Zdigits2_unique m1 53) by lia.
    rewrite fexp_normal by lia. replace (53 + e1 - 53 - e1) with 0 by lia.
    exists m1, e1. split; [reflexivity|]. split; [lia|]. split; [lia|done].
Qed.

(** Rounding a located value whose mantissa has at least 53 bits, away
    from underflow and overflow: the result is a normal number within half
    a unit in the last place, hence within a relative error of 2^-53. *)
Lemma binary_round_aux_correct (s : bool) (m e : Z) (l : location) (x : R) :
  0 < m ->
  located (shr_record_of_loc m l) x ->
  53 <= Zdigits2 m ->
  -1074 <= e ->
  e + Zdigits2 m <= 1000 ->
  exists m' e',
    binary_round_aux prec emax s m e l = S754_finite s m' e'
    /\ 2 ^ 52 <= Z.pos m' < 2 ^ 53
    /\ e + Zdigits2 m - 53 <= e' <= e + Zdigits2 m - 52
    /\ (Rabs (IZR (Z.pos m') * bpow e' - x * bpow e) <= x * bpow e / IZR (2 ^ 53))%R.
Proof.
  intros Hm Hx Hd He Hmax.
  set (d := Zdigits2 m) in *. set (k := d - 53).
  assert (2 ^ (d - 1) <= m < 2 ^ d) as Hbits.
  { destruct m as [|p|p]; try lia. apply digits2_pos_bounds. }
  assert (IZR m <= x < IZR m + 1)%R as Hfloor.
  { apply located_floor in Hx. by rewrite located_of_loc_m in Hx. }
  assert (bpow (d - 1) <= x < bpow d)%R as Hxd.
  { rewrite !bpow_IZR by lia. destruct Hbits as [Hlo Hhi].
    apply IZR_le in Hlo. assert (m + 1 <= 2 ^ d) as Hhi' by lia.
    apply IZR_le in Hhi'. rewrite plus_IZR in Hhi'. lra. }
  assert (exists mrs',
    shr_fexp prec emax m e l = (mrs', e + k)
    /\ 0 <= shr_m mrs' /\ located mrs' (x / bpow k)) as (mrs' & Hshr & Hm' & Hx').
  { unfold shr_fexp. fold d. rewrite fexp_normal by lia.
    replace (d + e - 53 - e) with k by lia.
    destruct k as [|p|p] eqn:Hk; try lia.
    - exists (shr_record_of_loc m l). rewrite Z.add_0_r. split; [reflexivity|].
      rewrite located_of_loc_m. split; [lia|].
      unfold bpow. simpl. by rewrite Rdiv_1_r.
    - exists (SpecFloat.iter_pos shr_1 p (shr_record_of_loc m l)).
      split; [reflexivity|]. apply shr_located; [|exact Hx].
      rewrite located_of_loc_m. lia. }
  pose proof (bpow_pos k) as Hkpos. pose proof (bpow_pos e) as Hepos.
  assert (bpow 52 <= x / bpow k < bpow 53)%R as Hxk.
  { destruct Hxd as [Hlo Hhi].
    replace (d - 1) with (52 + k) in Hlo by lia.
    replace d with (53 + k) in Hhi by lia.
    rewrite bpow_add in Hlo, Hhi. split.
    - apply Rmult_le_reg_r with (bpow k); [done|].
      replace (x / bpow k * bpow k)%R with x by (field; lra). done.
    - apply Rmult_lt_reg_r with (bpow k); [done|].
      replace (x / bpow k * bpow k)%R with x by (field; lra). done. }
  pose proof (located_floor _ _ Hx') as Hfloor'.
  pose proof (round_nearest_even_located _ _ Hx') as [Hnear Hm1].
  set (m1 := round_nearest_even (shr_m mrs') (loc_of_shr_record mrs')) in *.
  assert (2 ^ 52 <= shr_m mrs' < 2 ^ 53) as Hmk.
  { rewrite (bpow_IZR 52), (bpow_IZR 53) in Hxk by lia. split.
    - assert (IZR (2 ^ 52 - 1) < IZR (shr_m mrs'))%R as Hlt.
      { rewrite minus_IZR. lra. }
      apply lt_IZR in Hlt. lia.
    - apply lt_IZR. lra. }
  destruct (shr_fexp_canonical m1 (e + k)) as (m2 & e2 & Hcan & Hm2 & He2 & Hval);
    [lia|lia|].
  destruct m2 as [|m'|m']; try lia.
  exists m', e2. unfold binary_round_aux. rewrite Hshr. fold m1. rewrite Hcan.
  cbn [shr_m]. destruct (Z.leb_spec e2 (emax - prec)) as [_|Hover];
    [|unfold emax, prec in Hover; lia].
  split; [done|]. split; [lia|]. split; [lia|].
  rewrite Hval.
  replace (IZR m1 * bpow (e + k) - x * bpow e)%R
    with ((IZR m1 - x / bpow k) * bpow (e + k))%R
    by (rewrite bpow_add; field; lra).
  rewrite Rabs_mult, (Rabs_pos_eq (bpow (e + k))) by (left; apply bpow_pos).
  pose proof (bpow_pos (e + k)) as Hekpos.
  assert (bpow 52 * bpow (e + k) <= x * bpow e)%R as Hrel.
  { replace (x * bpow e)%R with (x / bpow k * bpow (e + k))%R
      by (rewrite bpow_add; field; lra).
    apply Rmult_le_compat_r; [lra|]. apply Hxk. }
  change (2 ^ 53) with (2 * 2 ^ 52). rewrite mult_IZR, <- bpow_IZR by lia.
  pose proof (bpow_pos 52) as H52.
  apply Rle_trans with (/ 2 * bpow (e + k))%R.
  - apply Rmult_le_compat_r; [lra|done].
  - apply Rmult_le_reg_r with (2 * bpow 52)%R; [lra|].
    replace (x * bpow e / (2 * bpow 52) * (2 * bpow 52))%R with (x * bpow e)%R
      by (field; lra).
    lra.
Qed.

Lemma binary_round_aux_canonical (s : bool) (m : positive) (e : Z) :
  2 ^ 52 <= Z.pos m < 2 ^ 53 -> -1074 <= e <= 971 ->
  binary_round_aux prec emax s (Z.pos m) e loc_Exact = S754_finite s m e.
Proof.
  intros Hm He. unfold binary_round_aux, shr_fexp.
  rewrite (Zdigits2_unique (Z.pos m) 53) by lia.
  rewrite fexp_normal by lia. replace (53 + e - 53 - e) with 0 by lia.
  cbn [shr shr_record_of_loc shr_m loc_of_shr_record round_nearest_even].
  rewrite (Zdigits2_unique (Z.pos m) 53) by lia.
  rewrite fexp_normal by lia. replace (53 + e - 53 - e) with 0 by lia.
  cbn [shr shr_record_of_loc shr_m].
  destruct (Z.leb_spec e (emax - prec)) as [_|Hover];
    [done|unfold emax, prec in Hover; lia].
Qed.

Lemma iter_xO (m q : positive) : Z.pos (Pos.iter xO m q) = Z.pos m * 2 ^ Z.pos q.
Proof.
  induction q as [|q IH] using Pos.peano_ind.
  - simpl. lia.
  - rewrite Pos.iter_succ, Pos2Z.inj_xO, IH, Pos2Z.inj_succ, Z.pow_succ_r by lia. lia.
Qed.

(** The [Number] of a positive integer below 2^53 is that integer, with a
    mantissa of 53 bits. *)
Lemma of_Z_exact (z : Z) :
  0 < z < 2 ^ 53 ->
  exists m e,
    of_Z z = S754_finite false m e
    /\ 2 ^ 52 <= Z.pos m < 2 ^ 53 /\ -52 <= e <= 0
    /\ (IZR (Z.pos m) * bpow e = IZR z)%R.
Proof.
  intros Hz. destruct z as [|p|p]; try lia.
  unfold of_Z, binary_normalize, binary_round.
  pose proof (digits2_pos_bounds p) as Hbits.
  set (d := Z.pos (digits2_pos p)) in *.
  assert (1 <= d <= 53) as Hd.
  { split; [unfold d; lia|].
    destruct (Z.le_gt_cases d 53) as [|Hgt]; [done|].
    assert (2 ^ 53 <= 2 ^ (d - 1)) by (apply Z.pow_le_mono_r; lia). lia. }
  rewrite Z.add_0_r, fexp_normal by lia. unfold shl_align.
  destruct (d - 53 - 0) as [|q|q] eqn:Hq; try lia.
  - assert (d = 53) as Hd53 by lia. rewrite Hd53 in Hbits.
    rewrite binary_round_aux_canonical by lia.
    exists p, 0. split; [done|]. split; [lia|]. split; [lia|].
    unfold bpow. simpl. lra.
  - assert (Z.pos (Pos.iter xO p q) = Z.pos p * 2 ^ (53 - d)) as Hmz.
    { rewrite iter_xO. f_equal. f_equal. lia. }
    assert (2 ^ 52 <= Z.pos (Pos.iter xO p q) < 2 ^ 53) as Hmzb.
    { rewrite Hmz.
      assert (2 ^ 52 = 2 ^ (d - 1) * 2 ^ (53 - d)) as ->.
      { rewrite <- Z.pow_add_r by lia. f_equal. lia. }
      assert (2 ^ 53 = 2 ^ d * 2 ^ (53 - d)) as ->.
      { rewrite <- Z.pow_add_r by lia. f_equal. lia. }
      assert (0 < 2 ^ (53 - d)) by (apply Z.pow_pos_nonneg; lia). nia. }
    rewrite binary_round_aux_canonical by lia.
    exists (Pos.iter xO p q), (d - 53). split; [done|]. split; [done|]. split; [lia|].
    rewrite Hmz, mult_IZR, <- bpow_IZR by lia. rewrite Rmult_assoc, <- bpow_add.
    replace (53 - d + (d - 53)) with 0 by lia. unfold bpow. simpl. lra.
Qed.

Lemma new_location_located (q r m2 : Z) :
  0 < m2 -> 0 <= r < m2 ->
  located (shr_record_of_loc q (new_location m2 r)) (IZR q + IZR r / IZR m2).
Proof.
  intros Hm2 Hr.
  assert (0 < IZR m2)%R as Hpos by (by apply IZR_lt).
  destruct (Z.eq_dec r 0) as [Hr0|Hr0].
  { subst r. unfold Rdiv. rewrite Rmult_0_l.
    assert (new_location m2 0 = loc_Exact) as ->.
    { unfold new_location, new_location_even, new_location_odd.
      by destruct (Z.even m2). }
    unfold located. cbn [shr_record_of_loc shr_m shr_r shr_s]. lra. }
  remember (IZR r / IZR m2)%R as t eqn:Hteq.
  assert (t * IZR m2 = IZR r)%R as Ht by (subst t; field; lra).
  assert (forall a b : R, a * IZR m2 < b * IZR m2 -> a < b)%R as Hreg.
  { intros a b Hab. by apply Rmult_lt_reg_r with (IZR m2). }
  assert (IZR r < IZR m2)%R as Hr1 by (apply IZR_lt; lia).
  assert (t < 1)%R as Ht1 by (apply Hreg; lra).
  assert (0 < IZR r)%R as Hrpos by (apply IZR_lt; lia).
  assert (0 < t)%R as Ht0 by (apply Hreg; lra).
  assert (2 * r < m2 -> (t < / 2)%R) as Hlow.
  { intros Hc. apply IZR_lt in Hc. rewrite mult_IZR in Hc. apply Hreg. lra. }
  assert (m2 < 2 * r -> (/ 2 < t)%R) as Hhigh.
  { intros Hc. apply IZR_lt in Hc. rewrite mult_IZR in Hc. apply Hreg. lra. }
  assert (2 * r = m2 -> (t = / 2)%R) as Hmid.
  { intros Hc. apply (f_equal IZR) in Hc. rewrite mult_IZR in Hc.
    apply Rmult_eq_reg_r with (IZR m2); lra. }
  unfold new_location.
  destruct (Z.even m2) eqn:Heven; unfold new_location_even, new_location_odd;
    (destruct (Z.eqb_spec r 0) as [|_]; [done|]).
  - destruct (Z.compare_spec (2 * r) m2) as [Heq|Hlt2|Hgt2];
      unfold located; cbn [shr_record_of_loc shr_m shr_r shr_s].
    + specialize (Hmid Heq). lra.
    + specialize (Hlow Hlt2). lra.
    + specialize (Hhigh Hgt2). lra.
  - assert (2 * r <> m2) as Hodd.
    { intros <-. rewrite Z.even_mul in Heven. done. }
    destruct (Z.compare_spec (2 * r + 1) m2) as [Heq|Hlt2|Hgt2];
      unfold located; cbn [shr_record_of_loc shr_m shr_r shr_s].
    + assert (t < / 2)%R by (apply Hlow; lia). lra.
    + assert (t < / 2)%R by (apply Hlow; lia). lra.
    + assert (/ 2 < t)%R by (apply Hhigh; lia). lra.
Qed.

Lemma Zdigits2_gt (m k : Z) : 0 <= k -> 2 ^ k <= m -> k < Zdigits2 m.
Proof.
  intros Hk Hm. assert (0 < m) as Hpos.
  { assert (0 < 2 ^ k) by (apply Z.pow_pos_nonneg; lia). lia. }
  destruct m as [|p|p]; try lia. simpl.
  pose proof (digits2_pos_bounds p) as [_ Hhi].
  destruct (Z.lt_ge_cases k (Z.pos (digits2_pos p))) as [|Hge]; [done|].
  assert (2 ^ Z.pos (digits2_pos p) <= 2 ^ k) by (apply Z.pow_le_mono_r; lia). lia.
Qed.

Lemma Zdigits2_le (m k : Z) : 0 < m -> 0 <= k -> m < 2 ^ k -> Zdigits2 m <= k.
Proof.
  intros Hm Hk Hlt. destruct m as [|p|p]; try lia. simpl.
  pose proof (digits2_pos_bounds p) as [Hlo _].
  destruct (Z.le_gt_cases (Z.pos (digits2_pos p)) k) as [|Hgt]; [done|].
  assert (2 ^ k <= 2 ^ (Z.pos (digits2_pos p) - 1)) by (apply Z.pow_le_mono_r; lia). lia.
Qed.

Lemma SFdiv_core_binary_normal (m1 m2 : positive) (e1 e2 : Z) :
  2 ^ 52 <= Z.pos m1 < 2 ^ 53 -> 2 ^ 52 <= Z.pos m2 < 2 ^ 53 ->
  -200 <= e1 <= 200 -> -200 <= e2 <= 200 ->
  SFdiv_core_binary prec emax (Z.pos m1) e1 (Z.pos m2) e2
  = (Z.pos m1 * 2 ^ 53 / Z.pos m2, e1 - e2 - 53,
     new_location (Z.pos m2) ((Z.pos m1 * 2 ^ 53) mod Z.pos m2)).
Proof.
  intros H1 H2 He1 He2. unfold SFdiv_core_binary.
  rewrite (Zdigits2_unique (Z.pos m1) 53), (Zdigits2_unique (Z.pos m2) 53) by lia.
  rewrite fexp_normal by lia.
  replace (Z.min (53 + e1 - (53 + e2) - 53) (e1 - e2)) with (e1 - e2 - 53) by lia.
  replace (e1 - e2 - (e1 - e2 - 53)) with 53 by lia.
  cbv zeta. cbv iota. rewrite Z.shiftl_mul_pow2 by lia.
  unfold Z.div, Z.modulo.
  by destruct (Z.div_eucl (Z.pos m1 * 2 ^ 53) (Z.pos m2)).
Qed.

Lemma quotient_scaled (a b A B C : R) :
  (0 < b -> 0 < A -> 0 < B -> 0 < C ->
   a * C / b * (A * (/ B * / C)) = a * A / (b * B))%R.
Proof. intros. field. lra. Qed.

(** Division of two normal numbers of moderate exponent is correct to a
    relative error of 2^-53. *)
Lemma div_correct (m1 m2 : positive) (e1 e2 : Z) :
  2 ^ 52 <= Z.pos m1 < 2 ^ 53 -> 2 ^ 52 <= Z.pos m2 < 2 ^ 53 ->
  -200 <= e1 <= 200 -> -200 <= e2 <= 200 ->
  let X := (IZR (Z.pos m1) * bpow e1 / (IZR (Z.pos m2) * bpow e2))%R in
  exists m e,
    div (S754_finite false m1 e1) (S754_finite false m2 e2) = S754_finite false m e
    /\ 2 ^ 52 <= Z.pos m < 2 ^ 53
    /\ e1 - e2 - 53 <= e <= e1 - e2 - 51
    /\ (Rabs (IZR (Z.pos m) * bpow e - X) <= X / IZR (2 ^ 53))%R.
Proof.
  intros H1 H2 He1 He2 X. unfold div, SFdiv.
  rewrite SFdiv_core_binary_normal by done. cbn [xorb].
  set (a := Z.pos m1 * 2 ^ 53). set (b := Z.pos m2).
  assert (0 < b) as Hb by (unfold b; lia).
  pose proof (Z.div_mod a b ltac:(lia)) as Hdm.
  pose proof (Z.mod_pos_bound a b Hb) as Hr.
  set (q := a / b) in *. set (r := a mod b) in *. clearbody q r.
  assert (2 ^ 52 <= q < 2 ^ 54) as Hq.
  { unfold a, b in *. split; [|nia].
    destruct (Z.lt_ge_cases q (2 ^ 52)) as [Hlt|]; [|done]. nia. }
  assert (53 <= Zdigits2 q <= 54) as Hdq.
  { split; [pose proof (Zdigits2_gt q 52); lia|apply Zdigits2_le; lia]. }
  destruct (binary_round_aux_correct false q (e1 - e2 - 53) (new_location b r)
              (IZR q + IZR r / IZR b)) as (m & e & Hres & Hm & He & Herr);
    [lia|by apply new_location_located|lia|lia|lia|].
  exists m, e. split; [done|]. split; [done|]. split; [lia|].
  assert (0 < IZR b)%R as Hbpos by (by apply IZR_lt).
  pose proof (bpow_pos e1). pose proof (bpow_pos e2).
  assert ((IZR q + IZR r / IZR b) * bpow (e1 - e2 - 53) = X)%R as HX.
  { assert (IZR q + IZR r / IZR b = IZR a / IZR b)%R as ->.
    { rewrite Hdm, plus_IZR, mult_IZR. field. lra. }
    unfold X, a. fold b. rewrite mult_IZR, <- bpow_IZR by lia.
    replace (e1 - e2 - 53) with (e1 + (- e2 + - 53)) by lia.
    rewrite !bpow_add. unfold bpow at 3 4. rewrite !powerRZ_neg'.
    fold (bpow e2). fold (bpow 53).
    apply quotient_scaled; auto using bpow_pos. }
  by rewrite HX in Herr.
Qed.

(** Multiplication of two normal numbers of moderate exponent is correct
    to a relative error of 2^-53. *)
Lemma mul_correct (m1 m2 : positive) (e1 e2 : Z) :
  2 ^ 52 <= Z.pos m1 < 2 ^ 53 -> 2 ^ 52 <= Z.pos m2 < 2 ^ 53 ->
  -200 <= e1 <= 200 -> -200 <= e2 <= 200 ->
  let X := (IZR (Z.pos m1) * bpow e1 * (IZR (Z.pos m2) * bpow e2))%R in
  exists m e,
    mul (S754_finite false m1 e1) (S754_finite false m2 e2) = S754_finite false m e
    /\ 2 ^ 52 <= Z.pos m < 2 ^ 53
    /\ (Rabs (IZR (Z.pos m) * bpow e - X) <= X / IZR (2 ^ 53))%R.
Proof.
  intros H1 H2 He1 He2 X. unfold mul, SFmul. cbn [xorb].
  assert (2 ^ 104 <= Z.pos (m1 * m2) < 2 ^ 106) as Hp.
  { rewrite Pos2Z.inj_mul. change (2 ^ 104) with (2 ^ 52 * 2 ^ 52).
    change (2 ^ 106) with (2 ^ 53 * 2 ^ 53). nia. }
  assert (53 <= Zdigits2 (Z.pos (m1 * m2)) <= 106) as Hd.
  { split; [pose proof (Zdigits2_gt (Z.pos (m1 * m2)) 104); lia|apply Zdigits2_le; lia]. }
  destruct (binary_round_aux_correct false (Z.pos (m1 * m2)) (e1 + e2) loc_Exact
              (IZR (Z.pos (m1 * m2)))) as (m & e & Hres & Hm & He & Herr);
    [lia|reflexivity|lia|lia|lia|].
  exists m, e. split; [done|]. split; [done|].
  replace X with (IZR (Z.pos (m1 * m2)) * bpow (e1 + e2))%R; [done|].
  unfold X. rewrite Pos2Z.inj_mul, mult_IZR, bpow_add. ring.
Qed.

Lemma bpow_neg (e : Z) : bpow (- e) = (/ bpow e)%R.
Proof. apply powerRZ_neg'. Qed.

(** [Math.round] of a positive number with a negative exponent is the
    floor of the number plus one half. *)
Lemma Math_round_floor (m : positive) (e : Z) :
  e < 0 ->
  exists z,
    Math_round (S754_finite false m e) = Some z
    /\ (IZR z <= IZR (Z.pos m) * bpow e + / 2 < IZR z + 1)%R.
Proof.
  intros He. unfold Math_round.
  destruct (Z.leb_spec 0 e) as [|_]; [lia|].
  set (N := 2 * Z.pos m + 2 ^ (- e)). set (D := 2 ^ (1 - e)).
  assert (0 < D) as HD by (apply Z.pow_pos_nonneg; lia).
  exists (N / D). split; [done|].
  pose proof (Z.div_mod N D ltac:(lia)) as Hdm.
  pose proof (Z.mod_pos_bound N D HD) as Hr.
  assert (D * (N / D) <= N < D * (N / D) + D) as [Hlo Hhi] by lia.
  apply IZR_le in Hlo. apply IZR_lt in Hhi.
  rewrite plus_IZR in Hhi. rewrite mult_IZR in Hlo, Hhi.
  remember (IZR (N / D)) as z eqn:Hzeq. clear Hzeq.
  unfold N, D in Hlo, Hhi.
  rewrite plus_IZR, mult_IZR, <- !bpow_IZR in Hlo, Hhi by lia.
  replace (1 - e) with (- e + 1) in Hlo, Hhi by lia.
  rewrite bpow_succ, bpow_neg in Hlo, Hhi.
  pose proof (bpow_pos e) as Hpos.
  set (v := IZR (Z.pos m)) in *.
  assert (2 * / bpow e * (v * bpow e + / 2) = 2 * v + / bpow e)%R as Heq
    by (field; lra).
  assert (0 < 2 * / bpow e)%R as Hc.
  { apply Rmult_lt_0_compat; [lra|]. by apply Rinv_0_lt_compat. }
  split.
  - apply Rmult_le_reg_l with (2 * / bpow e)%R; [done|]. rewrite Heq. lra.
  - apply Rmult_lt_reg_l with (2 * / bpow e)%R; [done|]. rewrite Heq. lra.
Qed.

Lemma Rabs_le_bounds (a b : R) : (Rabs a <= b -> - b <= a <= b)%R.
Proof. unfold Rabs. destruct (Rcase_abs a); lra. Qed.

(** From the error of the computed quotient to the nearest integer. *)
Lemma nearest_from_error (i n z : Z) (P : R) :
  0 < n < 2 ^ 32 ->
  (Rabs (P * IZR n - 100 * IZR i) <= 201 / IZR (2 ^ 53) * IZR n)%R ->
  (IZR z <= P + / 2 < IZR z + 1)%R ->
  2 * Z.abs (z * n - 100 * i) <= n.
Proof.
  intros Hn Herr Hz.
  assert (0 < IZR n < IZR (2 ^ 32))%R as Hrn.
  { split; apply IZR_lt; lia. }
  apply Rabs_le_bounds in Herr.
  assert (IZR z * IZR n <= (P + / 2) * IZR n)%R as H1.
  { apply Rmult_le_compat_r; lra. }
  assert ((P + / 2) * IZR n < (IZR z + 1) * IZR n)%R as H2.
  { apply Rmult_lt_compat_r; lra. }
  assert (201 / IZR (2 ^ 53) * IZR n < / 2)%R as Hsmall.
  { change (2 ^ 53) with 9007199254740992. change (2 ^ 32) with 4294967296 in Hrn. lra. }
  assert (2 * (IZR z * IZR n - 100 * IZR i) < IZR n + 1)%R as Hup by lra.
  assert (- (IZR n + 1) < 2 * (IZR z * IZR n - 100 * IZR i))%R as Hdown by lra.
  assert (2 * (z * n - 100 * i) < n + 1) as Hup'.
  { apply lt_IZR. rewrite !mult_IZR, minus_IZR, !mult_IZR, plus_IZR. lra. }
  assert (- (n + 1) < 2 * (z * n - 100 * i)) as Hdown'.
  { apply lt_IZR. rewrite opp_IZR, !mult_IZR, minus_IZR, !mult_IZR, plus_IZR. lra. }
  lia.
Qed.

(** The percentage [updateStatus] displays is an integer nearest to
    100 i / n. *)
Lemma percent_nearest (i n : Z) :
  0 <= i <= n -> 0 < n < 2 ^ 32 ->
  exists p,
    Math_round (mul (div (of_Z i) (of_Z n)) (of_Z 100)) = Some p
    /\ 2 * Z.abs (p * n - 100 * i) <= n.
Proof.
  intros Hi Hn.
  destruct (of_Z_exact n) as (mn & en & Hofn & Hmn & Hen & Hvn); [lia|].
  destruct (of_Z_exact 100) as (mc & ec & Hofc & Hmc & Hec & Hvc); [lia|].
  rewrite Hofn, Hofc.
  destruct (Z.eq_dec i 0) as [->|Hi0].
  { exists 0. split; [reflexivity|lia]. }
  destruct (of_Z_exact i) as (mi & ei & Hofi & Hmi & Hei & Hvi); [lia|].
  rewrite Hofi.
  destruct (div_correct mi mn ei en) as (mq & eq & Hdiv & Hmq & Heq & Herrq);
    [done|done|lia|lia|].
  rewrite Hdiv.
  destruct (mul_correct mq mc eq ec) as (mp & ep & Hmul & Hmp & Herrp);
    [done|done|lia|lia|].
  rewrite Hmul. rewrite Hvi, Hvn in Herrq. rewrite Hvc in Herrp.
  set (Q := (IZR (Z.pos mq) * bpow eq)%R) in *.
  set (P := (IZR (Z.pos mp) * bpow ep)%R) in *.
  assert (0 < IZR i <= IZR n)%R as Hri.
  { split; [apply IZR_lt|apply IZR_le]; lia. }
  assert (0 < IZR i / IZR n <= 1)%R as HX.
  { split.
    - apply Rdiv_lt_0_compat; lra.
    - apply Rmult_le_reg_r with (IZR n); [lra|].
      replace (IZR i / IZR n * IZR n)%R with (IZR i) by (field; lra). lra. }
  set (X := (IZR i / IZR n)%R) in *.
  change (2 ^ 53) with 9007199254740992 in Herrq, Herrp.
  apply Rabs_le_bounds in Herrq. apply Rabs_le_bounds in Herrp.
  assert (Rabs (P - 100 * X) <= 201 / 9007199254740992)%R as Herr.
  { apply Rabs_le. lra. }
  assert (P < 101)%R as HP by lra.
  assert (ep < 0) as Hep.
  { destruct (Z.lt_ge_cases ep 0) as [|Hge]; [done|]. exfalso.
    assert (1 <= bpow ep)%R as Hb.
    { rewrite bpow_IZR by done. apply IZR_le.
      assert (0 < 2 ^ ep) by (apply Z.pow_pos_nonneg; lia). lia. }
    assert (IZR (2 ^ 52) <= IZR (Z.pos mp))%R as Hm by (apply IZR_le; lia).
    change (2 ^ 52) with 4503599627370496 in Hm.
    assert (IZR (Z.pos mp) * 1 <= P)%R.
    { unfold P. apply Rmult_le_compat_l; lra. }
    lra. }
  destruct (Math_round_floor mp ep Hep) as (z & Hround & Hz).
  exists z. split; [done|].
  apply (nearest_from_error i n z P Hn); [|done].
  replace (P * IZR n - 100 * IZR i)%R with ((P - 100 * X) * IZR n)%R
    by (unfold X; field; lra).
  rewrite Rabs_mult, (Rabs_pos_eq (IZR n)) by lra.
  apply Rmult_le_compat_r; [lra|]. done.
Qed.

End Rounding.

(** ** updateStatus *)

(** C6. In a state whose cursor is in range, with at least one line and
    fewer than 2^32 (as in every array), [updateStatus]
    displays [Math.round(index / length * 100)]: an integer nearest to
    100 index / length, at most one half away from it, and so the floor of
    that quotient or the floor plus one. *)
Theorem updateStatus_percent_nearest (st : App) :
  index_in_range st ->
  0 < len st < 2 ^ 32 ->
  exists p,
    updateStatus st = [SetProgress (Some p); SetStatus (index st) (len st)]
    /\ 2 * Z.abs (p * len st - 100 * index st) <= len st
    /\ 100 * index st / len st <= p <= 100 * index st / len st + 1.
Proof.
  intros Hi Hn. unfold updateStatus.
  destruct (Nat.eqb_spec (length (lines st)) 0) as [Hz|_].
  { unfold len in Hn. rewrite Hz in Hn. simpl in Hn. lia. }
  destruct (percent_nearest (index st) (len st) Hi Hn) as (p & Hp & Hnear).
  exists p. rewrite Hp. split; [done|]. split; [done|].
  pose proof (Z.div_mod (100 * index st) (len st) ltac:(lia)) as Hdm.
  pose proof (Z.mod_pos_bound (100 * index st) (len st) ltac:(lia)) as Hr.
  set (f := 100 * index st / len st) in *.
  set (r := (100 * index st) mod len st) in *.
  split.
  - destruct (Z.le_gt_cases f p) as [|Hlt]; [done|]. exfalso. nia.
  - destruct (Z.le_gt_cases p (f + 1)) as [|Hgt]; [done|]. exfalso. nia.
Qed.

(** Two of three lines copied: 67 is displayed, an integer nearest to
    66.67. *)
Lemma updateStatus_percent_nearest_witness :
  exists p,
    updateStatus {| lines := [js "a"; js "b"; js "c"]; index := 2; storage := ∅ |}
    = [SetProgress (Some p); SetStatus 2 3]
    /\ 2 * Z.abs (p * 3 - 100 * 2) <= 3
    /\ 100 * 2 / 3 <= p <= 100 * 2 / 3 + 1.
Proof.
  apply (updateStatus_percent_nearest
           {| lines := [js "a"; js "b"; js "c"]; index := 2; storage := ∅ |}).
  - unfold index_in_range, len. simpl. lia.
  - unfold len. simpl. lia.
Defined.

(** C6. The displayed percentage is not the floor of index / length * 100:
    with two of three lines copied the floor is 66 and 67 is displayed;
    with 23 of 40, 57 is displayed, the exact quotient being 57.5. *)
Lemma updateStatus_not_floor :
  updateStatus {| lines := [js "a"; js "b"; js "c"]; index := 2; storage := ∅ |}
  = [SetProgress (Some 67); SetStatus 2 3]
  /\ 100 * 2 / 3 = 66
  /\ Number.Math_round
       (Number.mul (Number.div (Number.of_Z 23) (Number.of_Z 40)) (Number.of_Z 100))
     = Some 57.
Proof. vm_compute. auto. Qed.
(** * Further properties *)

(** ** Parsing the text area again *)

Lemma parseLines_omap (text : jsstring) :
  parseLines text
  = omap (fun seg => if blank seg then None else Some (trim seg)) (split LF text).
Proof. by rewrite parseLines_pipeline, omap_trim_filter. Qed.

Lemma trim_cons_ws (c : N) (s : jsstring) :
  isStrWhiteSpaceChar c = true -> trim (c :: s) = trim s.
Proof. intros Hc. unfold trim. simpl. by rewrite Hc. Qed.

Lemma trimStart_app (s t : jsstring) :
  blank s = false -> trimStart (s ++ t) = trimStart s ++ t.
Proof.
  induction s as [|c s IH]; simpl; [done|].
  destruct (isStrWhiteSpaceChar c); [apply IH|done].
Qed.

Lemma trim_snoc_ws (c : N) (s : jsstring) :
  isStrWhiteSpaceChar c = true -> trim (s ++ [c]) = trim s.
Proof.
  intros Hc. destruct (blank s) eqn:Hb.
  - transitivity (@nil N); [|symmetry]; apply trim_nil_iff; [|done].
    rewrite blank_app, Hb. simpl. by rewrite Hc.
  - unfold trim, trimEnd. rewrite (trimStart_app _ _ Hb), reverse_app.
    simpl. by rewrite Hc.
Qed.

Lemma parseLines_cons_ws (c : N) (s : jsstring) :
  isStrWhiteSpaceChar c = true -> parseLines (c :: s) = parseLines s.
Proof.
  intros Hc. rewrite !parseLines_omap. simpl.
  destruct (c =? LF)%N; [done|].
  destruct (split LF s) as [|seg segs] eqn:Hs; [by apply split_not_nil in Hs|].
  simpl. rewrite Hc, (trim_cons_ws c seg Hc). done.
Qed.

Lemma split_snoc (sep c : N) (s : jsstring) :
  if (c =? sep)%N then split sep (s ++ [c]) = split sep s ++ [[]]
  else exists init seg,
         split sep s = init ++ [seg]
         /\ split sep (s ++ [c]) = init ++ [seg ++ [c]].
Proof.
  destruct (c =? sep)%N eqn:Hc.
  - induction s as [|a s IH]; simpl; [by rewrite Hc|].
    destruct (a =? sep)%N; [by rewrite IH|].
    rewrite IH. destruct (split sep s) as [|seg segs] eqn:Hs; [|done].
    by apply split_not_nil in Hs.
  - induction s as [|a s (init & seg & Hs & Hsc)]; simpl.
    + rewrite Hc. by exists [], [].
    + rewrite Hs, Hsc. destruct (a =? sep)%N.
      * by exists ([] :: init), seg.
      * destruct init as [|seg0 init]; simpl.
        -- by exists [], (a :: seg).
        -- by exists ((a :: seg0) :: init), seg.
Qed.

Lemma parseLines_snoc_ws (c : N) (s : jsstring) :
  isStrWhiteSpaceChar c = true -> parseLines (s ++ [c]) = parseLines s.
Proof.
  intros Hc. rewrite !parseLines_omap.
  pose proof (split_snoc LF c s) as Hsplit.
  destruct (c =? LF)%N.
  - rewrite Hsplit, omap_app. simpl. by rewrite app_nil_r.
  - destruct Hsplit as (init & seg & -> & ->).
    rewrite !omap_app. f_equal. simpl.
    rewrite blank_app, (trim_snoc_ws c seg Hc). simpl. by rewrite Hc, andb_true_r.
Qed.

Lemma parseLines_app_blank (s ws : jsstring) :
  blank ws = true -> parseLines (s ++ ws) = parseLines s.
Proof.
  induction ws as [|c ws IH] using rev_ind; intros Hb; [by rewrite app_nil_r|].
  rewrite blank_app in Hb. apply andb_true_iff in Hb as [Hws Hc].
  simpl in Hc. rewrite andb_true_r in Hc.
  rewrite app_assoc, (parseLines_snoc_ws c _ Hc). by apply IH.
Qed.

(** The trimming of the whole text in [confirmInput] does not change
    what [parseLines] returns. *)
Lemma parseLines_trim (text : jsstring) : parseLines (trim text) = parseLines text.
Proof.
  transitivity (parseLines (trimStart text)).
  - destruct (trim_prefix text) as [ws [Heq Hws]].
    rewrite Heq. symmetry. by apply parseLines_app_blank.
  - induction text as [|c s IH]; simpl; [done|].
    destruct (isStrWhiteSpaceChar c) eqn:Hc; [|done].
    by rewrite IH, (parseLines_cons_ws c s Hc).
Qed.

Lemma blank_trim (s : jsstring) : blank (trim s) = blank s.
Proof.
  destruct (blank s) eqn:Hb.
  - apply trim_nil_iff in Hb. by rewrite Hb.
  - apply trim_not_blank. intros Ht. apply trim_nil_iff in Ht. congruence.
Qed.

Lemma parseLines_nil_iff (text : jsstring) : parseLines text = [] <-> blank text = true.
Proof.
  split.
  - intros Hnil. destruct (blank text) eqn:Hb; [done|].
    exfalso. apply (parseLines_not_nil text); [by rewrite isEmpty_blank|done].
  - intros Hb. unfold parseLines. by rewrite isEmpty_blank, Hb.
Qed.












(** ** validateInput and confirmInput *)

Lemma validateInput_isEmpty (input : option jsstring) :
  validateInput input = negb (Utils.isEmpty input).
Proof.
  destruct input as [[|c s]|]; [done| |done].
  unfold validateInput. rewrite isEmpty_blank.
  destruct (parseLines (c :: s)) as [|l0 L] eqn:Hp.
  - apply parseLines_nil_iff in Hp. by rewrite Hp.
  - destruct (blank (c :: s)) eqn:Hb; [|done].
    apply parseLines_nil_iff in Hb. congruence.
Qed.

(** X2. [validateInput] accepts exactly the texts [confirmInput] accepts,
    those with a character that is not white space.  A refused text leaves
    the session as it was and shows the request to enter text; an accepted
    one becomes the lines of the session, which are the lines of the text
    as typed (the trimming of the whole text changes nothing), with the
    cursor on the first. *)
Theorem validateInput_confirmInput `{JSON} (input : option jsstring) (e : Env)
    (st : App) :
  (validateInput input = true <-> exists text, input = Some text /\ blank text = false)
  /\ (validateInput input = false ->
      confirmInput input e st = (st, [ShowError ENTER_TEXT]))
  /\ (forall text, input = Some text -> validateInput input = true ->
      lines (fst (confirmInput input e st)) = parseLines text
      /\ lines (fst (confirmInput input e st)) <> []
      /\ index (fst (confirmInput input e st)) = 0
      /\ storage (fst (confirmInput input e st))
         = saveSession e (parseLines text) 0 (storage st)).
Proof.
  rewrite validateInput_isEmpty.
  split; [|split].
  - destruct input as [text|].
    + rewrite isEmpty_blank. split.
      * intros Hb. exists text. by destruct (blank text).
      * intros (t & [= <-] & ->). done.
    + split; [done|]. by intros (t & ? & _).
  - intros Hv. apply negb_false_iff in Hv. unfold confirmInput.
    destruct input as [text|]; [|done].
    rewrite isEmpty_blank in Hv.
    cbn [fmap option_fmap option_map].
    by rewrite isEmpty_blank, blank_trim, Hv.
  - intros text -> Hv. apply negb_true_iff in Hv. rewrite isEmpty_blank in Hv.
    unfold confirmInput. cbn [fmap option_fmap option_map default].
    rewrite isEmpty_blank, blank_trim, Hv.
    unfold Datatypes.id. rewrite parseLines_trim.
    destruct (parseLines text) as [|l0 L] eqn:Hp.
    { apply parseLines_nil_iff in Hp. congruence. }
    simpl. done.
Qed.

(** ** skipEmptyLines *)

Lemma skip_from_spec (ls : list jsstring) (i : Z) :
  (forall k, i <= k < skip_from ls i -> Utils.isEmpty (line_at ls k) = true)
  /\ (skip_from ls i <? Z.of_nat (length ls))
     && Utils.isEmpty (line_at ls (skip_from ls i)) = false.
Proof.
  funelim (skip_from ls i).
  - destruct H as [Hbefore Hat]. split; [|done].
    intros k Hk. destruct (Z.eq_dec k i) as [->|Hne].
    + by pose proof (proj2 (proj1 (andb_true_iff _ _) e)).
    + apply Hbefore. lia.
  - split; [|done]. intros k Hk. lia.
Qed.

(** X3. [skipEmptyLines] moves the cursor forward to the first line at or
    after it that is not blank, or to the end of the list when there is
    none: every line it passes is blank, the line it stops on is not, and
    lines and storage are untouched.  A second call does nothing. *)
Theorem skipEmptyLines_first_nonblank (st : App) :
  let st' := skipEmptyLines st in
  lines st' = lines st /\ storage st' = storage st
  /\ index st <= index st'
  /\ (index st <= len st -> index st' <= len st)
  /\ (forall k, index st <= k < index st' ->
        Utils.isEmpty (line_at (lines st) k) = true)
  /\ (index st' < len st ->
        exists line, line_at (lines st) (index st') = Some line /\ blank line = false)
  /\ skipEmptyLines st' = st'.
Proof.
  cbn zeta. unfold skipEmptyLines, len. cbn [lines index storage set_index].
  pose proof (skip_from_bounds (lines st) (index st)) as Hb.
  destruct (skip_from_spec (lines st) (index st)) as [Hbefore Hat].
  split; [done|]. split; [done|]. split; [lia|]. split; [lia|].
  split; [done|]. split.
  - intros Hlt. apply Z.ltb_lt in Hlt. rewrite Hlt in Hat. simpl in Hat.
    destruct (line_at (lines st) (skip_from (lines st) (index st))) as [line|] eqn:Hl;
      [|done].
    exists line. split; [done|]. by rewrite isEmpty_blank in Hat.
  - unfold set_index. cbn [lines index storage].
    rewrite (skip_from_step (lines st) (skip_from _ _)), Hat. done.
Qed.

(** ** copyNext *)

(** X4. [copyNext] keeps the lines, and moves the cursor past a line only
    when that line has reached the clipboard: if nothing was copied (the
    list is exhausted or every mechanism failed) the state is the one
    [skipEmptyLines] leaves and nothing is saved; otherwise exactly the
    line under the cursor was copied, the cursor is one further and the
    session is saved with that cursor. *)
Theorem copyNext_moves_after_copy `{JSON} (e : Env) (st : App) :
  let st1 := skipEmptyLines st in
  let r := copyNext e st in
  lines (fst r) = lines st
  /\ (copied (snd r) = [] -> fst r = st1)
  /\ (copied (snd r) <> [] ->
      exists line,
        line_at (lines st) (index st1) = Some line
        /\ copied (snd r) = [line]
        /\ index (fst r) = index st1 + 1
        /\ storage (fst r)
           = saveSession e (lines st) (index st1 + 1) (storage st)).
Proof.
  cbn zeta. unfold copyNext.
  set (st1 := skipEmptyLines st).
  assert (lines st1 = lines st) as Hl by done.
  assert (storage st1 = storage st) as Hs by done.
  destruct (len st1 <=? index st1); [by split; [|split]|].
  destruct (ClipboardManager.copy (clip e) (line_at (lines st1) (index st1)))
    as [log [err|]] eqn:Hcopy; cbn [fst snd].
  - rewrite copied_app, copied_handleCopyError, app_nil_r,
      (copy_rejected _ _ _ _ Hcopy).
    by split; [|split].
  - apply copy_resolved in Hcopy as (t & Ht & Hne & Hlog).
    rewrite !copied_app, copied_updateStatus, Hlog. cbn [copied omap app].
    split; [done|]. split; [done|]. intros _.
    exists t. rewrite <- Hl. split; [done|]. split; [done|]. split; [done|].
    cbn [storage set_storage set_index lines index]. by rewrite Hl, Hs.
Qed.

(** ** The other keys of the storage *)

Section OtherKeys.
Context `{JSON}.
Variable k : string.
Hypothesis Hk : k <> CONFIG.LINES.

Lemma clearSession_other_keys (e : Env) (ls : LocalStorage) :
  clearSession e ls !! k = ls !! k.
Proof.
  unfold clearSession. destruct (removeItem_ok e); [|done].
  by rewrite lookup_delete_ne.
Qed.

Lemma saveSession_other_keys (e : Env) (L : list jsstring) (i : Z)
    (ls : LocalStorage) :
  saveSession e L i ls !! k = ls !! k.
Proof.
  unfold saveSession, handleStorageError.
  destruct (setItem e); [by rewrite lookup_insert_ne| |done].
  apply clearSession_other_keys.
Qed.

Lemma copyNext_other_keys (e : Env) (st : App) :
  storage (fst (copyNext e st)) !! k = storage st !! k.
Proof.
  unfold copyNext.
  destruct (len (skipEmptyLines st) <=? index (skipEmptyLines st)); [done|].
  destruct (ClipboardManager.copy _ _) as [log [err|]]; [done|].
  cbn [fst storage set_storage]. apply saveSession_other_keys.
Qed.

Lemma step_other_keys (a : Action) (st : App) :
  storage (fst (step a st)) !! k = storage st !! k.
Proof.
  destruct a as [input e|e|e1 e2|prompt e1 e2|e|e|]; cbn [step fst].
  - unfold confirmInput. destruct (Utils.isEmpty _); [done|].
    cbn zeta. destruct (length _ =? 0)%nat; [done|].
    cbn [fst storage set_storage]. apply saveSession_other_keys.
  - apply copyNext_other_keys.
  - unfold copyPrev, copyPrev_retreat. destruct (index st <=? 0); [done|].
    rewrite copyNext_other_keys. cbn [storage set_storage].
    apply saveSession_other_keys.
  - unfold copyByNumber. destruct (length (lines st) =? 0)%nat; [done|].
    destruct prompt as [isConfirmed value|]; [|done].
    destruct (negb isConfirmed || _); [done|].
    destruct (negb (isValidLineNumber st _)); [done|].
    cbn zeta.
    match goal with |- context [copyNext e2 ?s] =>
      pose proof (copyNext_other_keys e2 s) as Hn;
      destruct (copyNext e2 s) as [st' log] end.
    cbn [fst] in *. rewrite Hn. cbn [storage set_storage].
    apply saveSession_other_keys.
  - unfold copyAll. destruct (length (lines st) =? 0)%nat; [done|].
    by destruct (ClipboardManager.copy _ _) as [log [err|]].
  - cbn [resetAll fst storage set_storage]. apply clearSession_other_keys.
  - done.
Qed.

Lemma run_other_keys_aux (acts : list Action) (st : App) :
  storage (run acts st) !! k = storage st !! k.
Proof.
  revert st. induction acts as [|a acts IH]; intros st; [done|].
  change (run (a :: acts) st) with (run acts (fst (step a st))).
  by rewrite IH, step_other_keys.
Qed.

End OtherKeys.

(** X5. The handlers of the line manager write and delete only the
    session key of the storage: whatever sequence of handlers runs,
    [resetAll] and storage failures included, every other key (the theme,
    the clipboard permission) holds what it held before. *)
Theorem run_other_keys `{JSON} (acts : list Action) (st : App) (k : string) :
  k <> CONFIG.LINES ->
  storage (run acts st) !! k = storage st !! k.
Proof. intros Hk. by apply run_other_keys_aux. Qed.

Section Scenario_other_keys.
Import RefJSON.

(** A saved theme survives a session that is entered, advanced and
    reset. *)
Lemma run_other_keys_witness :
  storage (run [ConfirmInput (Some scenario_input) browser; CopyNext browser;
                ResetAll browser]
               {| lines := []; index := 0;
                  storage := {[ CONFIG.MODE := js "light" ]} |}) !! CONFIG.MODE
  = storage {| lines := []; index := 0;
               storage := {[ CONFIG.MODE := js "light" ]} |} !! CONFIG.MODE.
Proof.
  apply (run_other_keys (H := RefJSON.codec)
           [ConfirmInput (Some scenario_input) browser; CopyNext browser;
            ResetAll browser]
           {| lines := []; index := 0;
              storage := {[ CONFIG.MODE := js "light" ]} |} CONFIG.MODE).
  discriminate.
Defined.

End Scenario_other_keys.

(** ** Restoring at the next page load *)

Lemma as_strings_map_VStr (L : list jsstring) : as_strings (map VStr L) = Some L.
Proof.
  unfold as_strings. induction L as [|l L IH]; [done|].
  simpl. rewrite IH. done.
Qed.

(** A stored record that decodes to the record of [L] and [i] is loaded
    as [L] and [i]. *)
Lemma loadSession_stored `{JSON} (e : Env) (ls : LocalStorage) (str : jsstring)
    (L : list jsstring) (i t : Z) :
  getItem_ok e = true ->
  ls !! CONFIG.LINES = Some str ->
  str <> [] ->
  JSON_parse str = Some (sessionData L i t) ->
  loadSession e ls = {| s_lines := VArr (map VStr L); s_index := VNum i |}.
Proof.
  intros Hget Hls Hne Hparse.
  unfold loadSession, loadSession_try. rewrite Hget, Hls. cbn [mbind option_bind].
  destruct str as [|c str']; [done|].
  unfold safeJSONParse. rewrite Hparse.
  change (truthy (sessionData L i t)) with true. cbn match.
  rewrite get_sessionData_lines. cbn [mbind option_bind truthy].
  rewrite get_sessionData_index. cbn [mbind option_bind]. by rewrite js_or_index.
Qed.

Lemma loadSessionDirect_session `{JSON} (e : Env) (st : App) (L : list jsstring)
    (i : Z) :
  loadSession e (storage st) = {| s_lines := VArr (map VStr L); s_index := VNum i |} ->
  loadSessionDirect e st
  = if (0 <? length L)%nat
    then let st' := set_index i (set_lines L st) in
         Some (st', [SetInputText (join [LF] L); ShowButtons] ++ updateStatus st')
    else Some (st, []).
Proof.
  intros Hload. unfold loadSessionDirect. rewrite Hload. cbn [s_lines s_index].
  rewrite length_map. destruct (0 <? length L)%nat; [|done].
  rewrite as_strings_map_VStr. cbn [mbind option_bind].
  by rewrite js_or_index.
Qed.

(** X6. What [saveSession] has written, the next page load restores: when
    the write is stored, is read back and decodes to the record that was
    encoded, [init] on the resulting storage adopts the saved lines and
    the saved cursor, shows the lines in the text area joined by newlines,
    shows the buttons and updates the status.  A record saved with no
    lines restores nothing. *)
Theorem saved_session_restored `{JSON} (L : list jsstring) (i : Z) (e e' : Env)
    (ls : LocalStorage) :
  setItem e = Stored ->
  getItem_ok e' = true ->
  JSON_parse [] = None ->
  JSON_parse (JSON_stringify (sessionData L i (now e))) = Some (sessionData L i (now e)) ->
  let saved := saveSession e L i ls in
  let st := {| lines := L; index := i; storage := saved |} in
  (L <> [] ->
   init e' saved
   = Some (st, [SetInputText (join [LF] L); ShowButtons] ++ updateStatus st))
  /\ (L = [] ->
      init e' saved = Some ({| lines := []; index := 0; storage := saved |}, [])).
Proof.
  intros Hset Hget Hempty Hround saved st.
  assert (loadSession e' saved
          = {| s_lines := VArr (map VStr L); s_index := VNum i |}) as Hload.
  { apply (loadSession_stored e' saved (JSON_stringify (sessionData L i (now e)))
             L i (now e)); [done| | |done].
    - unfold saved, saveSession. rewrite Hset. apply lookup_insert_eq.
    - intros Hnil. rewrite Hnil in Hround. congruence. }
  unfold init.
  rewrite (loadSessionDirect_session e' _ L i) by exact Hload.
  split.
  - intros Hne. destruct L as [|l0 L0]; [done|]. done.
  - intros ->. done.
Qed.

Section Scenario_restore.
Import RefJSON.

(** The three lines of the scenario saved with the cursor on the second
    line and restored by the next page load. *)
Lemma saved_session_restored_witness :
  let saved := saveSession browser [js "a"; js "b"; js "c"] 1 ∅ in
  let st := {| lines := [js "a"; js "b"; js "c"]; index := 1; storage := saved |} in
  ([js "a"; js "b"; js "c"] <> [] ->
   init browser saved
   = Some (st, [SetInputText (join [LF] [js "a"; js "b"; js "c"]); ShowButtons]
               ++ updateStatus st))
  /\ ([js "a"; js "b"; js "c"] = [] ->
      init browser saved = Some ({| lines := []; index := 0; storage := saved |}, [])).
Proof.
  apply (saved_session_restored (H := RefJSON.codec)
           [js "a"; js "b"; js "c"] 1 browser browser ∅).
  - reflexivity.
  - reflexivity.
  - reflexivity.
  - vm_compute. reflexivity.
Defined.

End Scenario_restore.

(** X7. [resetAll] forgets the session for good when the removal
    succeeds: the lines are empty, the cursor is 0, the session key is
    gone from the storage, and a page load on that storage restores
    nothing, whether or not the storage can be read.  When the removal
    throws, the stored record stays as it was. *)
Theorem resetAll_forgets `{JSON} (e e' : Env) (st : App) :
  let st' := fst (resetAll e st) in
  lines st' = [] /\ index st' = 0
  /\ (removeItem_ok e = true ->
      storage st' !! CONFIG.LINES = None
      /\ init e' (storage st') = Some (st', []))
  /\ (removeItem_ok e = false -> storage st' = storage st).
Proof.
  cbn zeta. unfold resetAll, clearSession.
  cbn [fst lines index storage set_lines set_index set_storage].
  split; [done|]. split; [done|]. split; intros ->; [|done].
  split; [apply lookup_delete_eq|].
  unfold init, loadSessionDirect, loadSession, loadSession_try.
  cbn [storage]. destruct (getItem_ok e'); cbn [mbind option_bind]; [|done].
  by rewrite lookup_delete_eq.
Qed.

(** ** Sessions made by the handlers, overlapping or not *)

Lemma skip_from_no_blank (ls : list jsstring) (i : Z) :
  Forall (fun line => blank line = false) ls -> 0 <= i -> skip_from ls i = i.
Proof.
  intros Hall Hi. rewrite skip_from_step.
  destruct (Z.ltb_spec i (Z.of_nat (length ls))) as [Hlt|]; [|done].
  unfold line_at. destruct (Z.ltb_spec i 0); [lia|].
  destruct (lookup_lt_is_Some_2 ls (Z.to_nat i)) as [line Hline]; [lia|].
  rewrite Hline, isEmpty_blank.
  rewrite Forall_lookup in Hall. by rewrite (Hall _ _ Hline).
Qed.

Section Overlapping.
Context `{JSON}.

(** *** The moves of a handler that runs alone are the handler *)

Lemma play_app (ms1 ms2 : list Move) (r : Running) :
  play (ms1 ++ ms2) r
  = let '(r1, evs1) := play ms1 r in
    let '(r2, evs2) := play ms2 r1 in
    (r2, evs1 ++ evs2).
Proof.
  revert r. induction ms1 as [|m ms1 IH]; intros r.
  - rewrite app_nil_l. cbn [play]. by destruct (play ms2 r).
  - rewrite <- app_comm_cons. cbn [play].
    destruct (play_step m r) as [r1 evs1]. rewrite IH.
    destruct (play ms1 r1) as [r2 evs2]. destruct (play ms2 r2) as [r3 evs3].
    by rewrite app_assoc.
Qed.

Lemma play_one (m : Move) (r : Running) : play [m] r = play_step m r.
Proof.
  cbn [play]. destruct (play_step m r) as [r1 evs1]. by rewrite app_nil_r.
Qed.

Lemma play_cons (m : Move) (ms : list Move) (r : Running) :
  play (m :: ms) r
  = (fst (play ms (fst (play_step m r))),
     snd (play_step m r) ++ snd (play ms (fst (play_step m r)))).
Proof.
  cbn [play]. destruct (play_step m r) as [r1 evs1]. cbn [fst snd].
  by destruct (play ms r1).
Qed.

(** [copyNext] is its part before the [await] and its part after it. *)
Lemma copyNext_moves (e : Env) (st : App) :
  let b := begin_copyNext st in
  let p := play_step (SettleCopy 0 e)
             {| app_state := fst (fst b); pending := snd (fst b) |} in
  fst p = {| app_state := fst (copyNext e st); pending := [] |}
  /\ snd b ++ snd p = snd (copyNext e st).
Proof.
  cbn zeta. unfold begin_copyNext, copyNext.
  destruct (len (skipEmptyLines st) <=? index (skipEmptyLines st)).
  - cbn [fst snd play_step pending lookup list_lookup]. by rewrite app_nil_r.
  - cbn [fst snd play_step pending app_state lookup list_lookup].
    unfold settle_copyNext.
    by destruct (ClipboardManager.copy _ _) as [log [err|]].
Qed.

Lemma play_step_begin (c : HandlerCall) (r : Running) :
  play_step (Begin c) r
  = ({| app_state := fst (fst (begin_call c (app_state r)));
        pending := pending r ++ snd (fst (begin_call c (app_state r))) |},
     snd (begin_call c (app_state r))).
Proof. cbn [play_step]. by destruct (begin_call c (app_state r)) as [[st tasks] evs]. Qed.

Lemma play_sequential (a : Action) (st : App) :
  play (sequential a) {| app_state := st; pending := [] |}
  = ({| app_state := fst (step a st); pending := [] |}, snd (step a st)).
Proof.
  destruct a as [input e|e|e1 e2|prompt e1 e2|e|e|]; cbn [sequential step].
  - rewrite play_one, play_step_begin. cbn [begin_call app_state pending].
    by destruct (confirmInput input e st) as [st' evs].
  - rewrite play_cons, play_one, play_step_begin.
    cbn [begin_call app_state pending fst snd]. rewrite app_nil_l.
    destruct (copyNext_moves e st) as [Hst Hevs]. cbn zeta in Hst, Hevs.
    rewrite Hst, Hevs. by destruct (copyNext e st).
  - rewrite play_cons, play_one, play_step_begin.
    cbn [begin_call app_state pending fst snd]. rewrite app_nil_l.
    unfold copyPrev. destruct (copyPrev_retreat e1 st) as [st0|].
    + destruct (copyNext_moves e2 st0) as [Hst Hevs]. cbn zeta in Hst, Hevs.
      rewrite Hst, Hevs. by destruct (copyNext e2 st0).
    + cbn [fst snd play_step pending lookup list_lookup]. by rewrite app_nil_r.
  - rewrite play_cons, play_cons, play_one, play_step_begin.
    cbn [begin_call app_state pending fst snd]. rewrite app_nil_l.
    unfold copyByNumber.
    destruct (length (lines st) =? 0)%nat.
    { cbn [fst snd play_step pending lookup list_lookup app_state]. done. }
    cbn [fst snd play_step pending lookup list_lookup app_state].
    unfold settle_prompt.
    destruct prompt as [isConfirmed value|].
    2:{ cbn [fst snd play_step pending lookup list_lookup app_state app
              delete list_delete]. done. }
    destruct (negb isConfirmed || _).
    { cbn [fst snd play_step pending lookup list_lookup app_state app
            delete list_delete]. done. }
    destruct (negb (isValidLineNumber st _)).
    { cbn [fst snd play_step pending lookup list_lookup app_state app
            delete list_delete]. done. }
    cbn zeta.
    match goal with |- context [begin_copyNext ?s] =>
      destruct (copyNext_moves e2 s) as [Hst Hevs];
      destruct (begin_copyNext s) as [[st1 tasks] evs] end.
    cbn zeta in Hst, Hevs.
    cbn [fst snd delete list_delete app app_state pending play_step] in *.
    destruct (copyNext e2 _) as [st' log]. cbn [fst snd] in *.
    by rewrite Hst, <- Hevs.
  - rewrite play_cons, play_one, play_step_begin.
    cbn [begin_call app_state pending fst snd]. rewrite app_nil_l.
    unfold copyAll. destruct (length (lines st) =? 0)%nat.
    { cbn [fst snd play_step pending lookup list_lookup app_state]. done. }
    cbn [fst snd play_step pending lookup list_lookup app_state].
    unfold settle_copyAll.
    by destruct (ClipboardManager.copy _ _) as [log [err|]].
  - rewrite play_one, play_step_begin. by cbn [begin_call app_state pending resetAll].
  - rewrite play_one, play_step_begin. by cbn [begin_call app_state pending].
Qed.

Lemma play_run (acts : list Action) (st : App) :
  fst (play (flat_map sequential acts) {| app_state := st; pending := [] |})
  = {| app_state := run acts st; pending := [] |}.
Proof.
  revert st. induction acts as [|a acts IH]; intros st; [done|].
  cbn [flat_map]. rewrite play_app, play_sequential.
  specialize (IH (fst (step a st))).
  destruct (play (flat_map sequential acts) _) as [r2 evs2].
  cbn [fst] in *. exact IH.
Qed.

(** *** What every move keeps *)

Lemma tidy_skip (st : App) :
  no_blank_lines st -> 0 <= index st -> skipEmptyLines st = st.
Proof. intros Hb Hi. by apply skipEmptyLines_id, skip_from_no_blank. Qed.

Lemma begin_copyNext_state (st : App) :
  no_blank_lines st -> 0 <= index st -> fst (fst (begin_copyNext st)) = st.
Proof.
  intros Hb Hi. unfold begin_copyNext. rewrite (tidy_skip st Hb Hi).
  by destruct (len st <=? index st).
Qed.

Lemma play_step_tidy (m : Move) (r : Running) :
  no_blank_lines (app_state r) -> 0 <= index (app_state r) ->
  no_blank_lines (app_state (fst (play_step m r)))
  /\ 0 <= index (app_state (fst (play_step m r))).
Proof.
  intros Hb Hi. destruct m as [c|k e|k prompt e]; cbn [play_step].
  - destruct c as [input e| |e| | |e|]; cbn [begin_call].
    + unfold confirmInput. destruct (Utils.isEmpty _); [done|].
      cbn zeta. destruct (length _ =? 0)%nat; cbn [fst app_state]; (split; [|done]).
      * unfold no_blank_lines. cbn [lines set_lines].
        eapply Forall_impl; [apply parseLines_entries|]. by intros line (_ & ? & _).
      * unfold no_blank_lines. cbn [lines set_lines set_index set_storage].
        eapply Forall_impl; [apply parseLines_entries|]. by intros line (_ & ? & _).
    + pose proof (begin_copyNext_state (app_state r) Hb Hi) as Hst.
      destruct (begin_copyNext (app_state r)) as [[st1 tasks] evs].
      cbn [fst app_state] in *. by subst.
    + unfold copyPrev_retreat. destruct (index (app_state r) <=? 0); [done|].
      match goal with |- context [begin_copyNext ?s] =>
        assert (fst (fst (begin_copyNext s)) = s) as Hst
          by (apply begin_copyNext_state; [done|cbn; lia]);
        destruct (begin_copyNext s) as [[st1 tasks] evs] end.
      cbn [fst app_state] in *. subst st1. split; [done|]. cbn. lia.
    + by destruct (length (lines (app_state r)) =? 0)%nat.
    + by destruct (length (lines (app_state r)) =? 0)%nat.
    + cbn [resetAll fst app_state]. split; [constructor|done].
    + cbn [fst app_state]. by rewrite (tidy_skip (app_state r) Hb Hi).
  - destruct (pending r !! k) as [[line|text|]|]; [| |done|done].
    + unfold settle_copyNext.
      destruct (ClipboardManager.copy _ _) as [log [err|]]; [done|].
      cbn [fst app_state]. split; [done|]. cbn. lia.
    + unfold settle_copyAll.
      by destruct (ClipboardManager.copy _ _) as [log [err|]].
  - destruct (pending r !! k) as [[line|text|]|]; [done|done| |done].
    unfold settle_prompt.
    destruct prompt as [isConfirmed value|]; [|done].
    destruct (negb isConfirmed || _); [done|].
    destruct (isValidLineNumber (app_state r) (parseInt (default [] value))) eqn:Hvalid;
      [|done].
    apply isValidLineNumber_spec in Hvalid as (n & Hn & Hrange).
    cbn [negb]. cbn zeta. rewrite Hn. cbn [default].
    match goal with |- context [begin_copyNext ?s] =>
      assert (fst (fst (begin_copyNext s)) = s) as Hst
        by (apply begin_copyNext_state; [done|cbn; lia]);
      destruct (begin_copyNext s) as [[st1 tasks] evs] end.
    cbn [fst app_state] in *. subst st1. split; [done|]. cbn. lia.
Qed.

Lemma play_tidy (moves : list Move) (r : Running) :
  no_blank_lines (app_state r) -> 0 <= index (app_state r) ->
  no_blank_lines (app_state (fst (play moves r)))
  /\ 0 <= index (app_state (fst (play moves r))).
Proof.
  revert r. induction moves as [|m moves IH]; intros r Hb Hi; [done|].
  cbn [play]. destruct (play_step_tidy m r Hb Hi) as [Hb1 Hi1].
  destruct (play_step m r) as [r1 evs1]. cbn [fst] in *.
  specialize (IH r1 Hb1 Hi1). by destruct (play moves r1) as [r2 evs2].
Qed.

(** *** The stored record under storage that works *)

Lemma mirrors_mono (ts ts' : list Z) (st : App) :
  ts ⊆ ts' -> mirrors ts st -> mirrors ts' st.
Proof.
  unfold mirrors. intros Hsub. destruct (storage st !! CONFIG.LINES); [|done].
  intros (t & Ht & Hstr). exists t. auto.
Qed.

Lemma mirrors_later (ts ts' : list Z) (st : App) :
  mirrors ts st -> mirrors (ts ++ ts') st.
Proof. apply mirrors_mono. intros t Ht. apply elem_of_app. by left. Qed.

(** A state that has just been saved. *)
Lemma mirrors_saved (e : Env) (ts : list Z) (st : App) (i : Z) :
  reliable e ->
  mirrors (ts ++ [now e])
    (set_storage (saveSession e (lines st) i (storage st)) (set_index i st)).
Proof.
  intros [Hset _]. unfold mirrors, saveSession. rewrite Hset.
  cbn [storage set_storage set_index lines index]. rewrite lookup_insert_eq.
  exists (now e). split; [|done].
  apply elem_of_app. right. apply list_elem_of_singleton. done.
Qed.

Lemma play_step_mirrors (m : Move) (ts : list Z) (r : Running) :
  move_reliable m ->
  no_blank_lines (app_state r) -> 0 <= index (app_state r) ->
  mirrors ts (app_state r) ->
  mirrors (ts ++ move_clock m) (app_state (fst (play_step m r))).
Proof.
  intros Hm Hb Hi Hst.
  pose proof (mirrors_later ts (move_clock m) (app_state r) Hst) as Hst'.
  destruct m as [c|k e|k prompt e]; cbn [play_step move_clock move_reliable] in *.
  - destruct c as [input e| |e| | |e|]; cbn [begin_call].
    + unfold confirmInput. destruct (Utils.isEmpty _) eqn:Hempty; [done|].
      cbn zeta. cbn [lines set_lines].
      destruct (Nat.eqb_spec (length (parseLines (default [] (trim <$> input)))) 0)
        as [Hlen|Hlen].
      { apply nil_length_inv in Hlen. exfalso.
        destruct input as [text|]; [|done].
        by apply (parseLines_not_nil (trim text)). }
      cbn [fst app_state].
      apply (mirrors_saved e ts (set_lines _ (app_state r)) 0 Hm).
    + pose proof (begin_copyNext_state (app_state r) Hb Hi) as Heq.
      destruct (begin_copyNext (app_state r)) as [[st1 tasks] evs].
      cbn [fst app_state] in *. by subst.
    + unfold copyPrev_retreat. destruct (index (app_state r) <=? 0); [done|].
      match goal with |- context [begin_copyNext ?s] =>
        assert (fst (fst (begin_copyNext s)) = s) as Heq
          by (apply begin_copyNext_state; [done|cbn; lia]);
        destruct (begin_copyNext s) as [[st1 tasks] evs] end.
      cbn [fst app_state] in *. subst st1.
      apply (mirrors_saved e ts (app_state r) _ Hm).
    + by destruct (length (lines (app_state r)) =? 0)%nat.
    + by destruct (length (lines (app_state r)) =? 0)%nat.
    + destruct Hm as [_ Hrem]. unfold resetAll, clearSession. rewrite Hrem.
      cbn [fst app_state]. unfold mirrors.
      cbn [storage set_storage lines index set_lines set_index].
      by rewrite lookup_delete_eq.
    + cbn [fst app_state]. by rewrite (tidy_skip (app_state r) Hb Hi).
  - destruct (pending r !! k) as [[line|text|]|]; [| |done|done].
    + unfold settle_copyNext.
      destruct (ClipboardManager.copy _ _) as [log [err|]]; [done|].
      cbn [fst app_state]. apply (mirrors_saved e ts (app_state r) _ Hm).
    + unfold settle_copyAll.
      by destruct (ClipboardManager.copy _ _) as [log [err|]].
  - destruct (pending r !! k) as [[line|text|]|]; [done|done| |done].
    unfold settle_prompt.
    destruct prompt as [isConfirmed value|]; [|done].
    destruct (negb isConfirmed || _); [done|].
    destruct (isValidLineNumber (app_state r) (parseInt (default [] value))) eqn:Hvalid;
      [|done].
    apply isValidLineNumber_spec in Hvalid as (n & Hn & Hrange).
    cbn [negb]. cbn zeta. rewrite Hn. cbn [default].
    match goal with |- context [begin_copyNext ?s] =>
      assert (fst (fst (begin_copyNext s)) = s) as Heq
        by (apply begin_copyNext_state; [done|cbn; lia]);
      destruct (begin_copyNext s) as [[st1 tasks] evs] end.
    cbn [fst app_state] in *. subst st1.
    apply (mirrors_saved e ts (app_state r) _ Hm).
Qed.

Lemma play_mirrors_from (moves : list Move) :
  forall (ts : list Z) (r : Running),
    Forall move_reliable moves ->
    no_blank_lines (app_state r) -> 0 <= index (app_state r) ->
    mirrors ts (app_state r) ->
    mirrors (ts ++ flat_map move_clock moves) (app_state (fst (play moves r))).
Proof.
  induction moves as [|m moves IH]; intros ts r Hmoves Hb Hi Hst.
  - cbn. by rewrite app_nil_r.
  - inversion Hmoves as [|? ? Hm Hrest]; subst.
    cbn [play flat_map].
    pose proof (play_step_mirrors m ts r Hm Hb Hi Hst) as Hst1.
    destruct (play_step_tidy m r Hb Hi) as [Hb1 Hi1].
    destruct (play_step m r) as [r1 evs1]. cbn [fst] in *.
    specialize (IH _ r1 Hrest Hb1 Hi1 Hst1). rewrite app_assoc.
    by destruct (play moves r1) as [r2 evs2].
Qed.

Lemma started_tidy : no_blank_lines (app_state started) /\ 0 <= index (app_state started).
Proof. split; [constructor|done]. Qed.

Lemma started_mirrors : mirrors [] (app_state started).
Proof. unfold mirrors. cbn. by rewrite lookup_empty. Qed.

End Overlapping.

(** X8. No handler puts a blank line into the session or makes the
    cursor negative, however the handlers overlap: from a state without
    blank lines and with a cursor that is not negative, after any moves
    (calls of handlers and settlings of their pending clipboard writes
    and dialogs, in any order, whatever the browser answers) no line is
    blank, the cursor is not negative, and [skipEmptyLines] does nothing.
    When every handler runs to its end before the next is called, the
    cursor moreover stays within the lines. *)
Theorem play_no_blank `{JSON} (moves : list Move) (acts : list Action)
    (r : Running) :
  no_blank_lines (app_state r) ->
  0 <= index (app_state r) ->
  let st' := app_state (fst (play moves r)) in
  no_blank_lines st'
  /\ 0 <= index st'
  /\ skipEmptyLines st' = st'
  /\ (pending r = [] -> index_in_range (app_state r) ->
      index_in_range (app_state (fst (play (flat_map sequential acts) r)))).
Proof.
  intros Hb Hi st'. destruct (play_tidy moves r Hb Hi) as [Hb' Hi'].
  split; [done|]. split; [done|]. split; [by apply tidy_skip|].
  intros Hp Hrange. destruct r as [st p]. cbn in Hp. subst p.
  rewrite play_run. cbn [app_state]. by apply run_in_range.
Qed.

Section Scenario_no_blank.
Import RefJSON.

(** The scenario's text entered, two copies begun before the first
    settles. *)
Lemma play_no_blank_witness :
  let moves := [Begin (CallConfirmInput (Some scenario_input) browser);
                Begin CallCopyNext; Begin CallCopyNext;
                SettleCopy 0 browser; SettleCopy 0 browser] in
  let acts := [ConfirmInput (Some scenario_input) browser; CopyNext browser] in
  let st' := app_state (fst (play moves started)) in
  no_blank_lines st'
  /\ 0 <= index st'
  /\ skipEmptyLines st' = st'
  /\ (pending started = [] -> index_in_range (app_state started) ->
      index_in_range (app_state (fst (play (flat_map sequential acts) started)))).
Proof.
  apply (play_no_blank (H := RefJSON.codec)
           [Begin (CallConfirmInput (Some scenario_input) browser);
            Begin CallCopyNext; Begin CallCopyNext;
            SettleCopy 0 browser; SettleCopy 0 browser]
           [ConfirmInput (Some scenario_input) browser; CopyNext browser]
           started).
  - constructor.
  - done.
Defined.

End Scenario_no_blank.

(** X9. With a storage that works (writes are stored, removals succeed)
    the stored record always is the session in memory, however the
    handlers overlap: after any moves of an application constructed on an
    empty storage, either nothing is stored, there are no lines and the
    cursor is 0, or the stored record is the encoding of the current
    lines and the current cursor with a timestamp read in one of the
    moves. *)
Theorem play_mirrors `{JSON} (moves : list Move) :
  Forall move_reliable moves ->
  mirrors (flat_map move_clock moves) (app_state (fst (play moves started))).
Proof.
  intros Hmoves. destruct started_tidy as [Hb Hi].
  exact (play_mirrors_from moves [] started Hmoves Hb Hi started_mirrors).
Qed.

Section Scenario_mirrors.
Import RefJSON.

Lemma play_mirrors_witness :
  mirrors (flat_map move_clock
             [Begin (CallConfirmInput (Some scenario_input) browser);
              Begin CallCopyNext; SettleCopy 0 browser])
          (app_state (fst (play [Begin (CallConfirmInput (Some scenario_input) browser);
                                 Begin CallCopyNext; SettleCopy 0 browser]
                                started))).
Proof.
  apply (play_mirrors (H := RefJSON.codec)
           [Begin (CallConfirmInput (Some scenario_input) browser);
            Begin CallCopyNext; SettleCopy 0 browser]).
  repeat constructor.
Defined.

End Scenario_mirrors.

(** X10. With a storage that works, reloading the page restores the
    session of an application that was constructed on an empty storage:
    after any moves, overlapping or not, when the stored payload is read
    back and decodes to the record that was encoded, [init] on the
    storage restores the lines and the cursor the moves left; only a
    session without lines is restored with the cursor 0, which is the
    cursor it has when every handler ran to its end before the next was
    called. *)
Theorem reload_restores `{JSON} (moves : list Move) (acts : list Action)
    (e' : Env) :
  let st := app_state (fst (play moves started)) in
  Forall move_reliable moves ->
  getItem_ok e' = true ->
  JSON_parse [] = None ->
  (forall t, t ∈ flat_map move_clock moves ->
     JSON_parse (JSON_stringify (sessionData (lines st) (index st) t))
     = Some (sessionData (lines st) (index st) t)) ->
  init e' (storage st)
  = Some (if decide (lines st = []) then (set_index 0 st, [])
          else (st, [SetInputText (join [LF] (lines st)); ShowButtons]
                    ++ updateStatus st))
  /\ (moves = flat_map sequential acts -> lines st = [] -> index st = 0).
Proof.
  intros st Hmoves Hget Hempty Hround.
  destruct started_tidy as [Hb Hi].
  pose proof (play_mirrors_from moves [] started Hmoves Hb Hi started_mirrors) as Hm.
  fold st in Hm. rewrite app_nil_l in Hm. split.
  - unfold mirrors in Hm. unfold init.
    destruct (storage st !! CONFIG.LINES) as [str|] eqn:Hls.
    + destruct Hm as (t & Ht & ->). specialize (Hround t Ht).
      rewrite (loadSessionDirect_session e' _ (lines st) (index st)).
      * destruct (decide (lines st = [])) as [HL|HL].
        -- rewrite HL. cbn [length Nat.ltb Nat.leb]. f_equal. f_equal.
           destruct st as [l i s]. cbn in HL. subst l. done.
        -- cbn zeta.
           replace (set_index (index st)
                      (set_lines (lines st)
                         {| lines := []; index := 0; storage := storage st |}))
             with st by (by destruct st).
           destruct (length (lines st)) eqn:Hlen; [|done].
           by apply nil_length_inv in Hlen.
      * cbn [storage].
        apply (loadSession_stored e' (storage st)
                 (JSON_stringify (sessionData (lines st) (index st) t))
                 (lines st) (index st) t); [done|done| |done].
        intros Hnil. rewrite Hnil in Hround. congruence.
    + destruct Hm as [HL Hidx].
      unfold loadSessionDirect, loadSession, loadSession_try.
      cbn [storage]. rewrite Hget, Hls. cbn [mbind option_bind].
      cbn [empty_session s_lines].
      destruct (decide (lines st = [])) as [_|]; [|done].
      f_equal. f_equal. destruct st as [l i s]. cbn in HL, Hidx. by subst.
  - intros Hseq HL.
    assert (index_in_range st) as Hrange.
    { unfold st. rewrite Hseq. unfold started. rewrite play_run. cbn [app_state].
      apply run_in_range. unfold index_in_range, len. simpl. lia. }
    unfold index_in_range, len in Hrange. rewrite HL in Hrange. simpl in Hrange. lia.
Qed.

Section Scenario_reload.
Import RefJSON.

(** The scenario's text entered and its first line copied, then the page
    reloaded. *)
Lemma reload_restores_witness :
  let acts := [ConfirmInput (Some scenario_input) browser; CopyNext browser] in
  let st := app_state (fst (play (flat_map sequential acts) started)) in
  init browser (storage st)
  = Some (if decide (lines st = []) then (set_index 0 st, [])
          else (st, [SetInputText (join [LF] (lines st)); ShowButtons]
                    ++ updateStatus st))
  /\ (flat_map sequential acts = flat_map sequential acts ->
      lines st = [] -> index st = 0).
Proof.
  apply (reload_restores (H := RefJSON.codec)
           (flat_map sequential
              [ConfirmInput (Some scenario_input) browser; CopyNext browser])
           [ConfirmInput (Some scenario_input) browser; CopyNext browser]
           browser).
  - repeat constructor.
  - reflexivity.
  - reflexivity.
  - intros t Ht. cbn in Ht.
    apply elem_of_cons in Ht as [->|Ht]; [vm_compute; reflexivity|].
    apply elem_of_cons in Ht as [->|Ht]; [vm_compute; reflexivity|].
    by apply elem_of_nil in Ht.
Defined.

End Scenario_reload.

(** X23. Two calls of [copyNext] that overlap copy the same line twice
    and move the cursor by two: when the second call is made before the
    clipboard write of the first has settled, on a line that is not blank
    and with both writes resolving, both read the line under the cursor,
    both writes carry it, and each call advances the cursor when its
    write settles.  On the last line this leaves the cursor one past the
    length of the lines. *)
Theorem overlapping_copyNext `{JSON} (e1 e2 : Env) (st : App) (line : jsstring) :
  line_at (lines st) (index st) = Some line ->
  blank line = false ->
  snd (ClipboardManager.copy (clip e1) (Some line)) = None ->
  snd (ClipboardManager.copy (clip e2) (Some line)) = None ->
  let r := play [Begin CallCopyNext; Begin CallCopyNext;
                 SettleCopy 0 e1; SettleCopy 0 e2]
                {| app_state := st; pending := [] |} in
  pending (fst r) = []
  /\ lines (app_state (fst r)) = lines st
  /\ index (app_state (fst r)) = index st + 2
  /\ copied (snd r) = [line; line]
  /\ (index st + 1 = len st -> ~ index_in_range (app_state (fst r))).
Proof.
  intros Hl Hb Hc1 Hc2.
  assert (begin_copyNext st = (st, [AwaitCopyNext (Some line)], [])) as Hbegin.
  { unfold begin_copyNext.
    rewrite skipEmptyLines_id by (by eapply skip_from_line).
    apply line_at_Some in Hl as Hrange. unfold len.
    destruct (Z.leb_spec (Z.of_nat (length (lines st))) (index st)); [lia|].
    by rewrite Hl. }
  destruct (ClipboardManager.copy (clip e1) (Some line)) as [log1 r1] eqn:Hcopy1.
  destruct (ClipboardManager.copy (clip e2) (Some line)) as [log2 r2] eqn:Hcopy2.
  cbn [snd] in Hc1, Hc2. subst r1 r2.
  apply copy_resolved in Hcopy1 as Hlog1. destruct Hlog1 as (t1 & [= <-] & _ & Hlog1).
  apply copy_resolved in Hcopy2 as Hlog2. destruct Hlog2 as (t2 & [= <-] & _ & Hlog2).
  cbn zeta. cbn [play play_step begin_call app_state pending].
  rewrite Hbegin. cbn [app_state pending app lookup list_lookup delete list_delete].
  rewrite Hbegin. cbn [app_state pending app lookup list_lookup delete list_delete].
  unfold settle_copyNext. rewrite Hcopy1.
  cbn [app_state pending app lookup list_lookup delete list_delete].
  rewrite Hcopy2. cbn [fst snd app_state pending lines index set_index set_storage].
  split; [done|]. split; [done|]. split; [lia|]. split.
  - assert (forall l, copied (FlashElement genBtn :: l) = copied l) as Hflash by done.
    repeat first [rewrite copied_app | rewrite Hflash | rewrite copied_updateStatus].
    rewrite Hlog1, Hlog2. done.
  - intros Hlast. unfold index_in_range, len.
    cbn [lines index set_index set_storage]. unfold len in Hlast. lia.
Qed.

Section Scenario_overlap.
Import RefJSON.

(** One line, two overlapping copies: the cursor ends at 2 of 1. *)
Lemma overlapping_copyNext_witness :
  let st := {| lines := [js "a"]; index := 0; storage := ∅ |} in
  let r := play [Begin CallCopyNext; Begin CallCopyNext;
                 SettleCopy 0 browser; SettleCopy 0 browser]
                {| app_state := st; pending := [] |} in
  pending (fst r) = []
  /\ lines (app_state (fst r)) = lines st
  /\ index (app_state (fst r)) = index st + 2
  /\ copied (snd r) = [js "a"; js "a"]
  /\ (index st + 1 = len st -> ~ index_in_range (app_state (fst r))).
Proof.
  apply (overlapping_copyNext (H := RefJSON.codec) browser browser
           {| lines := [js "a"]; index := 0; storage := ∅ |} (js "a"));
    reflexivity.
Defined.

End Scenario_overlap.

(** ** The line-number dialog *)

(** X11. The dialog's [inputValidator] and [copyByNumber] agree: the
    validator accepts an answer exactly when the answer is not empty and
    [isValidLineNumber] accepts the number [parseInt] reads from it.  An
    answer the validator accepts never gets the invalid-number error from
    [copyByNumber], which jumps to that line; an answer it refuses leaves
    the session untouched when it is confirmed all the same. *)
Theorem inputValidator_agrees `{JSON} (value : option jsstring) (e1 e2 : Env)
    (st : App) :
  let r := copyByNumber (Resolved true value) e1 e2 st in
  (inputValidator (length (lines st)) value = None <->
   from_option str_truthy false value = true
   /\ isValidLineNumber st (value ≫= parseInt) = true)
  /\ (inputValidator (length (lines st)) value = None ->
      lines st <> [] ->
      exists n,
        value ≫= parseInt = Some n /\ 1 <= n <= len st
        /\ let st2 := set_storage (saveSession e1 (lines st) (n - 1) (storage st))
                                  (set_index (n - 1) st) in
           r = (fst (copyNext e2 st2),
                PromptForLineNumber (length (lines st)) :: snd (copyNext e2 st2)))
  /\ (inputValidator (length (lines st)) value <> None -> fst r = st).
Proof.
  cbn zeta.
  assert (inputValidator (length (lines st)) value = None <->
          from_option str_truthy false value = true
          /\ isValidLineNumber st (value ≫= parseInt) = true) as Hiff.
  { unfold inputValidator, isValidLineNumber, len.
    destruct (from_option str_truthy false value); cbn [negb orb andb]; [|by split; [|intros []]].
    destruct (value ≫= parseInt) as [n|]; cbn [default]; unfold Datatypes.id.
    - destruct (bool_decide (is_Some (Some n))) eqn:Hsome;
        [|apply bool_decide_eq_false in Hsome; exfalso; apply Hsome; by exists n].
      cbn [negb orb].
      destruct (Z.ltb_spec n 1), (Z.ltb_spec (Z.of_nat (length (lines st))) n),
        (Z.leb_spec 1 n), (Z.leb_spec n (Z.of_nat (length (lines st))));
        cbn [orb andb]; try lia; split; try done; by intros [].
    - destruct (bool_decide (is_Some (@None Z))) eqn:Hsome.
      + apply bool_decide_eq_true in Hsome. by destruct Hsome.
      + cbn [negb orb]. split; [done|]. by intros []. }
  split; [exact Hiff|]. split.
  - intros Hok Hne. apply Hiff in Hok as [Htruthy Hvalid].
    destruct value as [v|]; [|done]. cbn [from_option mbind option_bind] in *.
    pose proof Hvalid as Hvalid'.
    apply isValidLineNumber_spec in Hvalid' as (n & Hn & Hrange).
    exists n. split; [done|]. split; [done|].
    unfold copyByNumber.
    destruct (Nat.eqb_spec (length (lines st)) 0) as [Hlen|_];
      [by apply nil_length_inv in Hlen|].
    cbn [negb orb from_option default]. rewrite Htruthy. cbn [negb].
    unfold Datatypes.id. rewrite Hvalid. cbn [negb]. rewrite Hn. cbn [default].
    by destruct (copyNext e2 _) as [st' log].
  - intros Hbad. unfold copyByNumber.
    destruct (length (lines st) =? 0)%nat; [done|].
    cbn [negb orb].
    destruct (from_option str_truthy false value) eqn:Htruthy; [|done].
    cbn [negb].
    destruct (isValidLineNumber st (parseInt (default [] value))) eqn:Hvalid; [|done].
    exfalso. apply Hbad, Hiff. split; [done|].
    destruct value as [v|]; [|done]. exact Hvalid.
Qed.

(** ** The progress bar *)

(** X12. In a state whose cursor is in range, with at least one line and
    fewer than 2^32, the percentage [updateStatus] gives the progress bar
    lies between 0 and 100, is 0 when nothing has been copied and 100 when
    the cursor is at the end, and does not go down when the cursor goes
    up: of two cursors on the same lines the larger gets at least the
    percentage of the smaller. *)
Theorem progress_bounds (st st' : App) :
  lines st' = lines st ->
  index_in_range st -> index_in_range st' ->
  0 < len st < 2 ^ 32 ->
  index st <= index st' ->
  exists p p',
    updateStatus st = [SetProgress (Some p); SetStatus (index st) (len st)]
    /\ updateStatus st' = [SetProgress (Some p'); SetStatus (index st') (len st)]
    /\ 0 <= p <= p' /\ p' <= 100
    /\ (index st = 0 -> p = 0)
    /\ (index st' = len st -> p' = 100).
Proof.
  intros Hlines Hi Hi' Hn Hle.
  assert (len st' = len st) as Hlen by (unfold len; by rewrite Hlines).
  unfold index_in_range in *. rewrite Hlen in Hi'.
  unfold updateStatus. rewrite Hlines.
  destruct (Nat.eqb_spec (length (lines st)) 0) as [Hz|_].
  { unfold len in Hn. rewrite Hz in Hn. simpl in Hn. lia. }
  rewrite Hlen.
  destruct (percent_nearest (index st) (len st) Hi Hn) as (p & Hp & Hnear).
  destruct (percent_nearest (index st') (len st) Hi' Hn) as (p' & Hp' & Hnear').
  exists p, p'. rewrite Hp, Hp'. split; [done|]. split; [done|].
  set (n := len st) in *. set (i := index st) in *. set (j := index st') in *.
  assert (0 <= p) as H0 by nia.
  assert (p' <= 100) as H100 by nia.
  assert (p <= p') as Hmono.
  { destruct (Z.eq_dec i j) as [Heq|Hneq].
    - rewrite <- Heq in Hp'. rewrite Hp in Hp'. by injection Hp' as ->.
    - nia. }
  split; [lia|]. split; [done|]. split; intros Heq; rewrite Heq in *; nia.
Qed.

(** Halfway through four lines the bar is at 50, and at 75 one line
    later. *)
Lemma progress_bounds_witness :
  exists p p',
    updateStatus {| lines := [js "a"; js "b"; js "c"; js "d"]; index := 2; storage := ∅ |}
    = [SetProgress (Some p); SetStatus 2 4]
    /\ updateStatus {| lines := [js "a"; js "b"; js "c"; js "d"]; index := 3; storage := ∅ |}
       = [SetProgress (Some p'); SetStatus 3 4]
    /\ 0 <= p <= p' /\ p' <= 100
    /\ (2 = 0 -> p = 0)
    /\ (3 = 4 -> p' = 100).
Proof.
  apply (progress_bounds
           {| lines := [js "a"; js "b"; js "c"; js "d"]; index := 2; storage := ∅ |}
           {| lines := [js "a"; js "b"; js "c"; js "d"]; index := 3; storage := ∅ |}).
  - reflexivity.
  - unfold index_in_range, len. simpl. lia.
  - unfold index_in_range, len. simpl. lia.
  - unfold len. simpl. lia.
  - simpl. lia.
Defined.

(** ** The copy mechanisms *)

Ltac elem_cases :=
  repeat match goal with
         | Hin : _ ∈ [] |- _ => by apply elem_of_nil in Hin
         | Hin : _ ∈ _ :: _ |- _ => apply elem_of_cons in Hin as [Hin|Hin]
         end.

(** X13. One call of [copy] invokes at most two mechanisms, never the
    same one twice and never both the library and the copy command; the
    native write is invoked only where it is supported, the library only
    where it is defined, the copy command only where the library is not.
    Every attempt is made with the text that was asked for, the text
    reaches the clipboard at most once, and the promise resolves exactly
    when it did. *)
Theorem copy_attempts (c : ClipEnv) (text : option jsstring) :
  let log := fst (ClipboardManager.copy c text) in
  (length (tried log) <= 2)%nat
  /\ NoDup (tried log)
  /\ (NativeClipboard ∈ tried log -> hasNativeSupport c = true)
  /\ (ClipboardJS ∈ tried log -> ClipboardJS_defined c = true)
  /\ (ExecCommand ∈ tried log -> ClipboardJS_defined c = false)
  /\ (forall ev, ev ∈ log -> exists m ok, ev = ClipboardTry m (default [] text) ok)
  /\ (snd (ClipboardManager.copy c text) = None -> copied log = [default [] text])
  /\ (snd (ClipboardManager.copy c text) <> None -> copied log = []).
Proof.
  cbn zeta. unfold ClipboardManager.copy.
  destruct text as [[|a t]|].
  1,3: simpl; (split; [lia|]); (split; [constructor|]);
       repeat split; try done; intros; elem_cases.
  unfold ClipboardManager.copyWithClipboardJS, ClipboardManager.copyWithExecCommand.
  cbn [default]. unfold Datatypes.id.
  destruct (hasNativeSupport c), (writeText c (a :: t)), (ClipboardJS_defined c);
    cbn [andb];
    try destruct (ClipboardJS_success c (a :: t));
    try destruct (execCommand_copy c (a :: t)) as [[]|m];
    simpl; (split; [lia|]);
    (split; [repeat constructor; intros Hin; elem_cases; discriminate|]);
    repeat split; try done;
    try (intros Hin; elem_cases; discriminate);
    intros ev Hin; elem_cases; subst; eauto.
Qed.

(** ** Utils.formatMessage *)

Lemma replace_placeholders_step
    (replacer : jsstring -> jsstring -> Result jsstring) (s : jsstring) :
  replace_placeholders replacer s
  = match s with
    | [] => Ok []
    | c :: s' =>
        match match_placeholder s with
        | Some (key, rest) =>
            and_then (replacer (placeholder key) key) (fun replacement =>
            and_then (replace_placeholders replacer rest) (fun tail =>
            Ok (replacement ++ tail)))
        | None =>
            and_then (replace_placeholders replacer s') (fun tail => Ok (c :: tail))
        end
    end.
Proof. funelim (replace_placeholders replacer s); [done| |]; by rewrite e. Qed.

Lemma span_word_app (s w r : jsstring) : span_word s = (w, r) -> s = w ++ r.
Proof.
  revert w r. induction s as [|c s IH]; intros w r Hs; simpl in Hs.
  - by injection Hs as <- <-.
  - destruct (isWordChar c).
    + destruct (span_word s) as [w' r'] eqn:E. injection Hs as <- <-.
      simpl. f_equal. by apply IH.
    + by injection Hs as <- <-.
Qed.

Lemma match_placeholder_Some (s key rest : jsstring) :
  match_placeholder s = Some (key, rest) -> s = placeholder key ++ rest.
Proof.
  unfold match_placeholder, placeholder.
  destruct s as [|c1 s]; [done|].
  destruct c1 as [|p]; [done|].
  repeat (destruct p as [ p | p | ]; try done).
  destruct s as [|c2 s1]; [done|].
  destruct c2 as [|p]; [done|].
  repeat (destruct p as [ p | p | ]; try done).
  destruct (span_word s1) as [w r] eqn:E. apply span_word_app in E. subst s1.
  destruct w as [|k0 w]; [done|].
  destruct r as [|d1 r]; [done|].
  destruct d1 as [|p]; [done|].
  repeat (destruct p as [ p | p | ]; try done).
  destruct r as [|d2 r]; [done|].
  destruct d2 as [|p]; [done|].
  repeat (destruct p as [ p | p | ]; try done).
  intros [= <- <-]. simpl. by rewrite <- app_assoc.
Qed.

Lemma match_placeholder_other (c : N) (s : jsstring) :
  c <> 0x7B%N -> match_placeholder (c :: s) = None.
Proof.
  intros Hc. unfold match_placeholder.
  by destruct c as [|p]; [|repeat (destruct p as [ p | p | ]; try done)].
Qed.

Lemma span_word_key (key rest : jsstring) :
  forallb isWordChar key = true ->
  span_word (key ++ 0x7D%N :: rest) = (key, 0x7D%N :: rest).
Proof.
  induction key as [|c key IH]; simpl; [done|].
  intros [Hc Hkey]%andb_true_iff. by rewrite Hc, (IH Hkey).
Qed.

Lemma match_placeholder_key (key rest : jsstring) :
  key <> [] -> forallb isWordChar key = true ->
  match_placeholder (placeholder key ++ rest) = Some (key, rest).
Proof.
  intros Hne Hkey. unfold placeholder, match_placeholder.
  rewrite <- !app_assoc. cbn [app].
  rewrite (span_word_key key (0x7D%N :: rest) Hkey).
  by destruct key.
Qed.

Lemma replace_placeholders_plain
    (replacer : jsstring -> jsstring -> Result jsstring) (a s : jsstring) :
  0x7B%N ∉ a ->
  replace_placeholders replacer (a ++ s)
  = and_then (replace_placeholders replacer s) (fun tail => Ok (a ++ tail)).
Proof.
  induction a as [|c a IH].
  - intros _. cbn [app]. by destruct (replace_placeholders replacer s).
  - intros [Hc Ha]%not_elem_of_cons.
    rewrite replace_placeholders_step. cbn [app].
    rewrite match_placeholder_other by done. rewrite IH by done.
    by destruct (replace_placeholders replacer s).
Qed.

Lemma replace_placeholders_key
    (replacer : jsstring -> jsstring -> Result jsstring) (key rest : jsstring) :
  key <> [] -> forallb isWordChar key = true ->
  replace_placeholders replacer (placeholder key ++ rest)
  = and_then (replacer (placeholder key) key) (fun replacement =>
    and_then (replace_placeholders replacer rest) (fun tail =>
    Ok (replacement ++ tail))).
Proof.
  intros Hne Hkey. rewrite replace_placeholders_step.
  rewrite (match_placeholder_key key rest Hne Hkey).
  unfold placeholder. done.
Qed.

Lemma replace_placeholders_id (s : jsstring) :
  replace_placeholders (fun match_ _ => Ok match_) s = Ok s.
Proof.
  funelim (replace_placeholders (fun match_ _ => Ok match_) s); [done| |].
  - cbn [and_then]. rewrite (H []). cbn [and_then].
    f_equal. symmetry. by apply match_placeholder_Some.
  - match goal with IH : _ = Ok _ |- _ => rewrite IH end. done.
Qed.

(** X14. [formatMessage] replaces the placeholders it has a parameter for
    and nothing else.  Without parameters the template is returned as it
    is; text without an opening brace is copied, whatever the
    parameters; a placeholder whose key is a non-empty word is replaced
    by the string of its parameter when there is one, for the value
    [undefined] too, and left in place when there is none, and a
    replacement is not searched for placeholders again.  When the
    parameters have a property of their own called [hasOwnProperty], the
    first placeholder makes the call throw a [TypeError].  The strings of
    the parameters are those of [ToString]: of the primitive values, of
    numbers the integers below 2^53 in magnitude. *)
Theorem formatMessage_placeholders (params : list (jsstring * value))
    (a key rest : jsstring) :
  formatMessage (a ++ rest) [] = Ok (a ++ rest)
  /\ (0x7B%N ∉ a -> formatMessage a params = Ok a)
  /\ (0x7B%N ∉ a -> key <> [] -> forallb isWordChar key = true ->
      formatMessage (a ++ placeholder key ++ rest) params
      = match assoc (js "hasOwnProperty") params with
        | Some _ => Fails ThrowsTypeError
        | None =>
            and_then (match assoc key params with
                      | Some v => ToString v
                      | None => Ok (placeholder key)
                      end) (fun replacement =>
            and_then (formatMessage rest params) (fun tail =>
            Ok (a ++ replacement ++ tail)))
        end).
Proof.
  unfold formatMessage. split; [|split].
  - apply (replace_placeholders_id (a ++ rest)).
  - intros Ha. rewrite <- (app_nil_r a) at 1.
    rewrite replace_placeholders_plain by done.
    rewrite replace_placeholders_step. cbn [and_then]. by rewrite app_nil_r.
  - intros Ha Hne Hkey.
    rewrite replace_placeholders_plain by done.
    rewrite replace_placeholders_key by done.
    destruct (assoc (js "hasOwnProperty") params); [done|].
    destruct (match assoc key params with
              | Some v => ToString v
              | None => Ok (placeholder key)
              end) as [replacement|f]; [|done].
    cbn [and_then].
    by destruct (replace_placeholders _ rest).
Qed.

Lemma brace_free_prefixes :
  (0x7B%N ∉ MESSAGES.COPIED_STATUS_prefix)
  /\ (0x7B%N ∉ MESSAGES.COPIED_STATUS_of)
  /\ (0x7B%N ∉ MESSAGES.ENTER_LINE_NUMBER_prefix).
Proof.
  unfold MESSAGES.COPIED_STATUS_prefix, MESSAGES.COPIED_STATUS_of,
    MESSAGES.ENTER_LINE_NUMBER_prefix.
  repeat split; intros Hin; elem_cases; discriminate.
Qed.

Lemma ToString_integer (n : Z) :
  Z.abs n < 2 ^ 53 -> ToString (VNum n) = Ok (RefJSON.print_Z n).
Proof.
  intros Hn. cbn [ToString].
  destruct (Z.ltb_spec (Z.abs n) (2 ^ 53)); [done|lia].
Qed.

(** X15. The status line and the label of the line-number dialog, for a
    cursor and a number of lines below 2^53 in magnitude, where
    JavaScript prints a number in decimal: [updateStatus] writes the text
    before the first placeholder of [COPIED_STATUS], the cursor in
    decimal, the text between the placeholders and the number of lines in
    decimal; [copyByNumber] asks with the text of [ENTER_LINE_NUMBER] in
    which the number of lines stands for the placeholder. *)
Theorem status_text_decimal (current total : Z) (maxLines : nat) :
  Z.abs current < 2 ^ 53 ->
  Z.abs total < 2 ^ 53 ->
  Z.of_nat maxLines < 2 ^ 53 ->
  status_text current total
  = Ok (MESSAGES.COPIED_STATUS_prefix ++ RefJSON.print_Z current
        ++ MESSAGES.COPIED_STATUS_of ++ RefJSON.print_Z total)
  /\ prompt_label maxLines
     = Ok (MESSAGES.ENTER_LINE_NUMBER_prefix
           ++ RefJSON.print_Z (Z.of_nat maxLines) ++ js ")").
Proof.
  intros Hcurrent Htotal Hmax.
  destruct brace_free_prefixes as (Hp & Ho & Hl).
  unfold status_text, prompt_label, MESSAGES.COPIED_STATUS, MESSAGES.ENTER_LINE_NUMBER.
  unfold formatMessage. split.
  - change (js "{{current}}") with (placeholder (js "current")).
    change (js "{{total}}") with (placeholder (js "total") ++ []).
    rewrite replace_placeholders_plain by done.
    rewrite replace_placeholders_key by done.
    rewrite replace_placeholders_plain by done.
    rewrite replace_placeholders_key by done.
    rewrite replace_placeholders_step. cbn [assoc].
    destruct (decide (js "hasOwnProperty" = js "current")) as [Heq|_];
      [discriminate Heq|].
    destruct (decide (js "hasOwnProperty" = js "total")) as [Heq|_];
      [discriminate Heq|].
    destruct (decide (js "current" = js "current")) as [_|]; [|done].
    destruct (decide (js "total" = js "current")) as [Heq|_]; [discriminate Heq|].
    destruct (decide (js "total" = js "total")) as [_|]; [|done].
    rewrite !ToString_integer by done. cbn [and_then]. by rewrite app_nil_r.
  - change (js "{{max}})") with (placeholder (js "max") ++ js ")").
    rewrite replace_placeholders_plain by done.
    rewrite replace_placeholders_key by done.
    cbn [assoc].
    destruct (decide (js "hasOwnProperty" = js "max")) as [Heq|_];
      [discriminate Heq|].
    destruct (decide (js "max" = js "max")) as [_|]; [|done].
    rewrite ToString_integer by lia. cbn [and_then].
    change (js ")") with ([0x29%N] ++ []) at 1.
    rewrite replace_placeholders_plain by (intros Hin; elem_cases; discriminate).
    rewrite replace_placeholders_step. done.
Qed.

(** Three of ten lines copied. *)
Lemma status_text_decimal_witness :
  status_text 3 10
  = Ok (MESSAGES.COPIED_STATUS_prefix ++ RefJSON.print_Z 3
        ++ MESSAGES.COPIED_STATUS_of ++ RefJSON.print_Z 10)
  /\ prompt_label 10
     = Ok (MESSAGES.ENTER_LINE_NUMBER_prefix
           ++ RefJSON.print_Z (Z.of_nat 10) ++ js ")").
Proof. apply (status_text_decimal 3 10 10); vm_compute; reflexivity. Defined.

(** ** Utils.debounce and the keyboard *)

Section DebounceProperties.
Context {A : Type}.

Lemma debounce_elem_of (timeout : option A) (evs : list (TimerEvent A)) (a : A) :
  a ∈ debounce timeout evs <->
  (timeout = Some a /\ exists post, evs = TimerFires :: post)
  \/ exists pre post, evs = pre ++ Call a :: TimerFires :: post.
Proof.
  revert timeout. induction evs as [|ev evs IH]; intros timeout.
  - simpl. split.
    + by intros Hin%elem_of_nil.
    + intros [(_ & post & Hpost)|(pre & post & Hevs)]; [done|].
      by destruct pre.
  - destruct ev as [b|]; cbn [debounce debounce_step app].
    + rewrite IH. split.
      * intros [([= ->] & post & ->)|(pre & post & ->)].
        -- right. by exists [], post.
        -- right. by exists (Call b :: pre), post.
      * intros [(_ & post & Hpost)|(pre & post & Hevs)]; [done|].
        destruct pre as [|ev pre]; simpl in Hevs; injection Hevs as ? ?; subst.
        -- left. split; [done|]. by exists post.
        -- right. by exists pre, post.
    + destruct timeout as [x|]; cbn [debounce debounce_step app].
      * rewrite elem_of_cons, IH. split.
        -- intros [->|[([=] & _)|(pre & post & ->)]].
           ++ left. split; [done|]. by exists evs.
           ++ right. by exists (TimerFires :: pre), post.
        -- intros [([= ->] & _)|(pre & post & Hevs)]; [by left|].
           right. right. destruct pre as [|ev pre]; simpl in Hevs; [done|].
           injection Hevs as ? ?; subst. by exists pre, post.
      * rewrite IH. split.
        -- intros [([=] & _)|(pre & post & ->)].
           right. by exists (TimerFires :: pre), post.
        -- intros [([=] & _)|(pre & post & Hevs)].
           right. destruct pre as [|ev pre]; simpl in Hevs; [done|].
           injection Hevs as ? ?; subst. by exists pre, post.
Qed.

Lemma debounce_burst (timeout : option A) (l : list A) (a : A)
    (rest : list (TimerEvent A)) :
  debounce timeout (map Call l ++ Call a :: TimerFires :: rest)
  = a :: debounce None rest.
Proof.
  revert timeout. induction l as [|b l IH]; intros timeout; [done|].
  cbn [map app debounce debounce_step]. apply IH.
Qed.

Lemma debounce_sublist (timeout : option A) (evs : list (TimerEvent A)) :
  sublist (debounce timeout evs)
          (from_option (fun a => [a]) [] timeout
           ++ omap (fun ev => match ev with Call a => Some a | TimerFires => None end) evs).
Proof.
  revert timeout. induction evs as [|ev evs IH]; intros timeout.
  - apply sublist_nil_l.
  - destruct ev as [b|]; cbn [debounce debounce_step app omap].
    + apply sublist_inserts_l. apply (IH (Some b)).
    + destruct timeout as [x|]; cbn [from_option app].
      * apply sublist_skip. apply (IH None).
      * apply (IH None).
Qed.

End DebounceProperties.

(** X16. A debounced function runs only for a call that the timer
    outlives: [func] is called with given arguments exactly when a call
    with these arguments is followed by the firing of the timer before any
    other call.  Of a burst of calls made before the timer fires only the
    last one is executed, and the executions follow the order of the
    calls. *)
Theorem debounce_last_call_wins {A : Type} (evs rest : list (TimerEvent A))
    (l : list A) (a : A) :
  (a ∈ debounce None evs <->
   exists pre post, evs = pre ++ Call a :: TimerFires :: post)
  /\ debounce None (map Call l ++ Call a :: TimerFires :: rest)
     = a :: debounce None rest
  /\ sublist (debounce None evs)
       (omap (fun ev => match ev with Call a => Some a | TimerFires => None end) evs).
Proof.
  split; [|split].
  - rewrite debounce_elem_of. split; [|by right].
    by intros [([=] & _)|Hex].
  - apply debounce_burst.
  - apply (debounce_sublist None evs).
Qed.

Lemma handleKeydown_cases (e : KeyboardEvent) :
  handleKeydown e
  = if ctrlKey e then
      if bool_decide (key e = js "Enter")
      then [if shiftKey e then DoCopyPrev else DoCopyNext]
      else if altKey e then
             if bool_decide (key e = js "c") then [DoCopyAll]
             else if bool_decide (key e = js "r") then [DoResetAll] else []
           else []
    else [].
Proof.
  unfold handleKeydown.
  destruct (ctrlKey e), (altKey e); cbn [andb]; try done.
  - destruct (bool_decide_reflect (key e = js "Enter")) as [->|_]; [done|].
    destruct (bool_decide_reflect (key e = js "c")) as [->|_]; [done|].
    by destruct (bool_decide (key e = js "r")).
  - by destruct (bool_decide (key e = js "Enter")).
Qed.

Ltac dispatch_case :=
  split;
  [ intros Hin; elem_cases; try discriminate; by repeat split
  | intros (Hctl & Hmod & Hkey); try discriminate; try done;
    try (match goal with
         | H1 : key ?e = _, H2 : key ?e = _ |- _ => rewrite H1 in H2; discriminate H2
         end);
    by apply list_elem_of_singleton ].

(** X17. A key press runs at most one handler, and none without the
    control key: control and Enter copy the next line, or the previous
    one when shift is held, whether or not alt is held; control, alt and
    the key [c] copy all lines; control, alt and [r] reset.  Through the
    debounced listener, of several key presses made before the timer
    fires only the last one is handled. *)
Theorem handleKeydown_dispatch (e : KeyboardEvent)
    (earlier : list KeyboardEvent) (rest : list (TimerEvent KeyboardEvent)) :
  (length (handleKeydown e) <= 1)%nat
  /\ (ctrlKey e = false -> handleKeydown e = [])
  /\ (DoCopyNext ∈ handleKeydown e <->
      ctrlKey e = true /\ shiftKey e = false /\ key e = js "Enter")
  /\ (DoCopyPrev ∈ handleKeydown e <->
      ctrlKey e = true /\ shiftKey e = true /\ key e = js "Enter")
  /\ (DoCopyAll ∈ handleKeydown e <->
      ctrlKey e = true /\ altKey e = true /\ key e = js "c")
  /\ (DoResetAll ∈ handleKeydown e <->
      ctrlKey e = true /\ altKey e = true /\ key e = js "r")
  /\ debouncedKeyHandler (map Call earlier ++ Call e :: TimerFires :: rest)
     = handleKeydown e ++ debouncedKeyHandler rest.
Proof.
  unfold debouncedKeyHandler. rewrite debounce_burst. cbn [flat_map].
  rewrite handleKeydown_cases.
  destruct (ctrlKey e), (altKey e), (shiftKey e);
    destruct (bool_decide_reflect (key e = js "Enter")) as [HE|HE];
    destruct (bool_decide_reflect (key e = js "c")) as [Hc|Hc];
    destruct (bool_decide_reflect (key e = js "r")) as [Hr|Hr];
    try (rewrite HE in Hc; discriminate Hc);
    try (rewrite HE in Hr; discriminate Hr);
    try (rewrite Hc in Hr; discriminate Hr);
    (split; [simpl; lia|]); (split; [done|]);
    repeat (split; [dispatch_case|]); done.
Qed.

(** ** The theme *)

(** X18. The theme survives a reload when the storage works: after
    [toggleMode] whose write is stored, [loadSavedMode] on a page that
    starts dark and can read the storage gives the theme the toggled page
    shows, and the value stored is [light] or [dark] accordingly.
    [toggleMode] flips the theme whether or not the write succeeds and
    touches no other key of the storage. *)
Theorem toggleMode_reload (e e' : Env) (light_mode : bool) (ls : LocalStorage) :
  setItem e = Stored ->
  getItem_ok e' = true ->
  let r := toggleMode e light_mode ls in
  fst r = negb light_mode
  /\ snd r !! CONFIG.MODE = Some (if fst r then js "light" else js "dark")
  /\ loadSavedMode e' false (snd r) = fst r
  /\ (forall k, k <> CONFIG.MODE -> snd r !! k = ls !! k).
Proof.
  intros Hset Hget. cbn zeta. unfold toggleMode, saveMode, loadSavedMode, getMode.
  rewrite Hset, Hget. cbn [fst snd]. rewrite lookup_insert_eq.
  split; [done|]. split; [done|]. split.
  - by destruct light_mode.
  - intros k Hk. by rewrite lookup_insert_ne.
Qed.

Lemma toggleMode_reload_witness :
  let r := toggleMode browser false ∅ in
  fst r = negb false
  /\ snd r !! CONFIG.MODE = Some (if fst r then js "light" else js "dark")
  /\ loadSavedMode browser false (snd r) = fst r
  /\ (forall k, k <> CONFIG.MODE -> snd r !! k = (∅ : LocalStorage) !! k).
Proof. apply (toggleMode_reload browser browser false ∅); reflexivity. Defined.

(** X19. Where the theme is not restored: [loadSavedMode] never turns
    the light theme off and turns it on only for the stored value
    [light], so a page that starts dark stays dark when nothing is
    stored, when the stored value is anything else, and when the storage
    cannot be read; and a [toggleMode] whose write fails flips the theme
    of the page and leaves the storage as it was, so that the next load
    shows the theme stored before. *)
Theorem loadSavedMode_default (e e' : Env) (light_mode : bool) (ls : LocalStorage) :
  loadSavedMode e true ls = true
  /\ (loadSavedMode e false ls = true <->
      getItem_ok e = true /\ ls !! CONFIG.MODE = Some (js "light"))
  /\ (setItem e <> Stored ->
      fst (toggleMode e light_mode ls) = negb light_mode
      /\ snd (toggleMode e light_mode ls) = ls
      /\ loadSavedMode e' false (snd (toggleMode e light_mode ls))
         = loadSavedMode e' false ls).
Proof.
  unfold loadSavedMode, getMode, toggleMode, saveMode. split; [|split].
  - by destruct (bool_decide _).
  - destruct (getItem_ok e).
    + destruct (bool_decide_reflect (ls !! CONFIG.MODE = Some (js "light"))) as [Heq|Hne].
      * by split.
      * split; [done|]. by intros [_ ?].
    + destruct (bool_decide_reflect (None = Some (js "light"))) as [Heq|_]; [done|].
      split; [done|]. by intros [? _].
  - intros Hset. cbn [fst snd]. by destruct (setItem e).
Qed.

(** ** The clipboard permission dialog *)

Lemma test_copied_app (l1 l2 : list PermissionEvent) :
  test_copied (l1 ++ l2) = test_copied l1 ++ test_copied l2.
Proof. unfold test_copied. apply flat_map_app. Qed.

Lemma last_app_Some {A : Type} (l1 l2 : list A) (x : A) :
  last l2 = Some x -> last (l1 ++ l2) = Some x.
Proof.
  intros Hl. induction l1 as [|a l1 IH]; [done|].
  cbn [app]. destruct (l1 ++ l2) eqn:E; [|done].
  destruct l1; [|done]. cbn in E. subst l2. done.
Qed.

(** Events without the hiding of the button, put before a run. *)
Lemma dialog_outcome_prefix (ls ls' : LocalStorage)
    (pre evs : list PermissionEvent) (c : Completion) :
  HideRequestButton ∉ pre ->
  dialog_outcome ls (ls', evs, c) ->
  dialog_outcome ls (ls', pre ++ evs, c).
Proof.
  unfold dialog_outcome. cbn [fst snd]. intros Hpre [Hframe Hout].
  split; [done|].
  assert (HideRequestButton ∉ evs -> HideRequestButton ∉ pre ++ evs) as Hhide.
  { intros Hevs Hin. apply elem_of_app in Hin as [Hin|Hin]; auto. }
  destruct c.
  - destruct Hout as [(Hg & Hcopy & Hlast)|(Hd & Hevs)]; [left|right; auto].
    split; [done|]. split; [|by apply last_app_Some].
    rewrite test_copied_app. apply elem_of_app. by right.
  - destruct Hout as [Heq Hevs]. auto.
  - destruct Hout as [[Heq|[Heq Hlast]] Hevs]; (split; [|auto]).
    + by left.
    + right. split; [done|]. by apply last_app_Some.
Qed.

Lemma handlePermissionError_outcome (r : Round) (error : PermissionError)
    (retry : LocalStorage -> LocalStorage * list PermissionEvent * Completion)
    (ls : LocalStorage) :
  dialog_outcome ls (retry ls) ->
  dialog_outcome ls (handlePermissionError r error retry ls).
Proof.
  intros Hretry. unfold handlePermissionError.
  destruct (tryAgain r) as [[|]|].
  - destruct (retry ls) as [[ls' evs] c].
    apply (dialog_outcome_prefix ls ls' [TellAccessFailed error] evs c); [|done].
    intros Hin. elem_cases. discriminate.
  - unfold setPermission, dialog_outcome.
    destruct (store_denied r); cbn [fst snd].
    + split; [intros k Hk; by rewrite lookup_insert_ne|].
      destruct (note_closed r).
      * right. rewrite lookup_insert_eq. split; [done|].
        intros Hin. elem_cases; discriminate.
      * split; [by right|]. intros Hin. elem_cases; discriminate.
    + split; [done|]. split; [done|]. intros Hin. elem_cases; discriminate.
    + split; [done|]. split; [done|]. intros Hin. elem_cases; discriminate.
  - unfold dialog_outcome. cbn [fst snd]. split; [done|].
    split; [by left|]. intros Hin. elem_cases; discriminate.
Qed.

(** What one run of the dialog guarantees, whatever the rounds. *)
Lemma requestPermission_outcome (rounds : list Round) (ls : LocalStorage) :
  dialog_outcome ls (requestPermission rounds ls).
Proof.
  induction rounds as [|r rounds IH]; cbn [requestPermission].
  { unfold dialog_outcome. cbn [fst snd]. split; [done|].
    split; [by left|]. intros Hin. elem_cases. discriminate. }
  destruct (allow r) as [[|]|].
  - destruct (copy_settled r); cbn [negb].
    2:{ unfold dialog_outcome. cbn [fst snd]. split; [done|].
        split; [by left|]. intros Hin. elem_cases; discriminate. }
    destruct (ClipboardManager.copy (round_clip r) (Some (js " ")))
      as [log [err|]] eqn:Hcopy.
    + pose proof (handlePermissionError_outcome r (CopyRejected err)
                    (requestPermission rounds) ls IH) as Hh.
      destruct (handlePermissionError r (CopyRejected err) _ ls) as [[ls' evs] c].
      apply (dialog_outcome_prefix ls ls' [AskAllowClipboard; TestCopy log] evs c);
        [|done].
      intros Hin. elem_cases; discriminate.
    + apply copy_resolved in Hcopy as (t & [= <-] & _ & Hlog).
      destruct (granted_closed r); cbn [negb].
      * destruct (store_granted r); cbn [setPermission].
        -- unfold dialog_outcome. cbn [fst snd].
           split; [intros k Hk; by rewrite lookup_insert_ne|].
           left. rewrite lookup_insert_eq. split; [done|]. split; [|done].
           cbn [test_copied flat_map]. rewrite Hlog. simpl.
           apply elem_of_cons. by left.
        -- pose proof (handlePermissionError_outcome r StorageThrew
                         (requestPermission rounds) ls IH) as Hh.
           destruct (handlePermissionError r StorageThrew _ ls) as [[ls' evs] c].
           apply (dialog_outcome_prefix ls ls'
                    [AskAllowClipboard; TestCopy log; TellAccessGranted] evs c);
             [|done].
           intros Hin. elem_cases; discriminate.
        -- pose proof (handlePermissionError_outcome r StorageThrew
                         (requestPermission rounds) ls IH) as Hh.
           destruct (handlePermissionError r StorageThrew _ ls) as [[ls' evs] c].
           apply (dialog_outcome_prefix ls ls'
                    [AskAllowClipboard; TestCopy log; TellAccessGranted] evs c);
             [|done].
           intros Hin. elem_cases; discriminate.
      * unfold dialog_outcome. cbn [fst snd]. split; [done|].
        split; [by left|]. intros Hin. elem_cases; discriminate.
  - unfold setPermission, dialog_outcome. destruct (store_denied r); cbn [fst snd].
    + split; [intros k Hk; by rewrite lookup_insert_ne|].
      right. rewrite lookup_insert_eq. split; [done|].
      intros Hin. elem_cases; discriminate.
    + split; [done|]. split; [done|]. intros Hin. elem_cases; discriminate.
    + split; [done|]. split; [done|]. intros Hin. elem_cases; discriminate.
  - unfold dialog_outcome. cbn [fst snd]. split; [done|].
    split; [by left|]. intros Hin. elem_cases; discriminate.
Qed.

(** X20. The permission dialog records [granted] only after a test copy
    has reached the clipboard.  However many times the user tries again
    and wherever a dialog stays open: when the call returns, the stored
    permission is [granted] or [denied]; when a write to the storage
    throws outside the [try] block, the storage is as before; while the
    call is waiting for a dialog, the storage is as before, or [denied]
    has been written and the dialog that is open is the closing note.
    When [granted] is stored and was not before, the call has returned, a
    test copy of one space succeeded and the request button was hidden
    last.  No other key of the storage is written, and at the next page
    load [requestPermissionIfNeeded] shows the request button exactly
    when the stored permission is not [granted]. *)
Theorem requestPermission_granted (rounds : list Round) (ls : LocalStorage)
    (e : Env) :
  let r := requestPermission rounds ls in
  let ls' := fst (fst r) in
  (forall k, k <> CONFIG.CLIPBOARD_PERMISSION -> ls' !! k = ls !! k)
  /\ (snd r = Returned ->
      ls' !! CONFIG.CLIPBOARD_PERMISSION = Some (js "granted")
      \/ ls' !! CONFIG.CLIPBOARD_PERMISSION = Some (js "denied"))
  /\ (snd r = Threw -> ls' = ls)
  /\ (snd r = Awaiting ->
      ls' = ls
      \/ (ls' = <[CONFIG.CLIPBOARD_PERMISSION := js "denied"]> ls
          /\ last (snd (fst r)) = Some TellBrowserSettings))
  /\ (ls' !! CONFIG.CLIPBOARD_PERMISSION = Some (js "granted") ->
      ls !! CONFIG.CLIPBOARD_PERMISSION <> Some (js "granted") ->
      snd r = Returned
      /\ js " " ∈ test_copied (snd (fst r))
      /\ last (snd (fst r)) = Some HideRequestButton)
  /\ (getItem_ok e = true ->
      (requestPermissionIfNeeded e ls' = Some false <->
       ls' !! CONFIG.CLIPBOARD_PERMISSION = Some (js "granted"))
      /\ (requestPermissionIfNeeded e ls' = Some true <->
          ls' !! CONFIG.CLIPBOARD_PERMISSION <> Some (js "granted"))).
Proof.
  cbn zeta. pose proof (requestPermission_outcome rounds ls) as [Hframe Hout].
  cbn zeta in Hframe, Hout.
  split; [done|]. split; [|split; [|split; [|split]]].
  - intros Hret. rewrite Hret in Hout.
    destruct Hout as [(? & _)|(? & _)]; auto.
  - intros Hret. rewrite Hret in Hout. apply Hout.
  - intros Hret. rewrite Hret in Hout. apply Hout.
  - intros Hg Hbefore. destruct (snd (requestPermission rounds ls)).
    + destruct Hout as [(_ & Hcp & Hlast)|(Hd & _)]; [done|].
      rewrite Hd in Hg. discriminate Hg.
    + destruct Hout as [Heq _]. rewrite Heq in Hg. done.
    + destruct Hout as [[Heq|[Heq _]] _]; rewrite Heq in Hg; [done|].
      rewrite lookup_insert_eq in Hg. discriminate Hg.
  - intros Hget. unfold requestPermissionIfNeeded. rewrite Hget.
    destruct (bool_decide_reflect
                (fst (fst (requestPermission rounds ls)) !! CONFIG.CLIPBOARD_PERMISSION
                 = Some (js "granted"))) as [Hg|Hg]; cbn [negb]; split; split; try done.
Qed.

(** ** Empty texts and failed writes *)

(** X21. [Utils.isEmpty] holds of a missing text and of the texts made
    of white space and line terminators only, the empty one included, and
    of no other; trimming a text does not change the answer, and the
    texts it holds of are those [parseLines] finds no line in. *)
Theorem isEmpty_iff (text : option jsstring) (s : jsstring) :
  (Utils.isEmpty text = true <->
   text = None
   \/ exists s', text = Some s' /\ Forall (fun c => isStrWhiteSpaceChar c = true) s')
  /\ Utils.isEmpty (Some (trim s)) = Utils.isEmpty (Some s)
  /\ (Utils.isEmpty (Some s) = true <-> parseLines s = []).
Proof.
  split; [|split].
  - destruct text as [s'|].
    + rewrite isEmpty_blank, blank_Forall. split.
      * intros Hall. right. by exists s'.
      * by intros [|(? & [= <-] & ?)].
    + split; [by left|done].
  - by rewrite !isEmpty_blank, blank_trim.
  - rewrite isEmpty_blank. symmetry. apply parseLines_nil_iff.
Qed.

(** X22. A write of the session that fails never stores a partial
    record: no key other than the session key changes; when the storage
    is full and the removal succeeds the previous record is removed, so
    that the next page load restores nothing; on any other failure, or
    when the removal fails too, the storage is left as it was. *)
Theorem saveSession_failure `{JSON} (e e' : Env) (L : list jsstring) (i : Z)
    (ls : LocalStorage) :
  setItem e <> Stored ->
  let saved := saveSession e L i ls in
  (forall k, k <> CONFIG.LINES -> saved !! k = ls !! k)
  /\ (setItem e = QuotaExceededError -> removeItem_ok e = true ->
      saved = delete CONFIG.LINES ls
      /\ init e' saved = Some ({| lines := []; index := 0; storage := saved |}, []))
  /\ (setItem e = OtherStorageError \/ removeItem_ok e = false -> saved = ls).
Proof.
  intros Hset saved. split; [|split].
  - intros k Hk. by apply saveSession_other_keys.
  - intros Hq Hrem. unfold saved, saveSession, handleStorageError, clearSession.
    rewrite Hq, Hrem. split; [done|].
    unfold init, loadSessionDirect, loadSession, loadSession_try. cbn [storage].
    destruct (getItem_ok e'); cbn [mbind option_bind]; [|done].
    by rewrite lookup_delete_eq.
  - unfold saved, saveSession, handleStorageError, clearSession.
    intros [Ho|Hrem].
    + by rewrite Ho.
    + rewrite Hrem. by destruct (setItem e).
Qed.

Section Scenario_full_storage.
Import RefJSON.

(** A full storage that held a record. *)
Lemma saveSession_failure_witness :
  let e := {| clip := native_ok; now := 1700000000000; getItem_ok := true;
              setItem := QuotaExceededError; removeItem_ok := true |} in
  let ls : LocalStorage := {[ CONFIG.LINES := js "stale" ]} in
  let saved := saveSession e [js "a"] 0 ls in
  (forall k, k <> CONFIG.LINES -> saved !! k = ls !! k)
  /\ (setItem e = QuotaExceededError -> removeItem_ok e = true ->
      saved = delete CONFIG.LINES ls
      /\ init browser saved = Some ({| lines := []; index := 0; storage := saved |}, []))
  /\ (setItem e = OtherStorageError \/ removeItem_ok e = false -> saved = ls).
Proof.
  apply (saveSession_failure (H := RefJSON.codec)
           {| clip := native_ok; now := 1700000000000; getItem_ok := true;
              setItem := QuotaExceededError; removeItem_ok := true |}
           browser [js "a"] 0 {[ CONFIG.LINES := js "stale" ]}).
  discriminate.
Defined.

End Scenario_full_storage.
